(** * llama2 inference engine: a shallow embedding of [llama2.cu]

    The development follows the order of the source file:
    the tokenizer ([strcmp], [str_lookup], [encode]), the checkpoint
    loader ([memory_map_weights], [read_checkpoint]), the neural-net blocks
    ([rmsnorm], [forward]), the generation loop ([generate]) and the
    parameter correction of [main].

    Conventions.
    - A C [int] is a [Z] in the range of [int32]; arithmetic that can leave
      the range is wrapped with [wrap32], an [unsigned long long] with
      [wrap64].
    - A C [float] is a binary32 number: a [spec_float] operated on with
      precision 24 and maximal exponent 128, round-to-nearest-even.
    - A C string is a [string] (the bytes before the terminating NUL).
    - A run of the program ends in a value ([Ok]), in a call of [exit]
      ([Exit status]) or in undefined behaviour that the model detects
      ([Fault]): an array read outside its bounds, a division by zero. *)

From Stdlib Require Import ZArith Lia Bool Ascii String SpecFloat.
From Stdlib.Strings Require Import Byte.
From stdpp Require Import base list sorting.

Local Open Scope Z_scope.

(** ** Outcomes of a run *)

Inductive fault : Type :=
  | OutOfBounds (index : Z)   (* array read or write outside the array *)
  | DivideByZero              (* integer division by zero, or INT_MIN / -1 *)
  | BadCall                   (* a library call given an invalid size *)
  | BadFree                   (* free of a pointer that malloc did not return *)
  | FuelExhausted.            (* a loop of the model ran out of fuel *)

Inductive outcome (A : Type) : Type :=
  | Ok (a : A)
  | Exit (status : Z)
  | Fault (f : fault).

Arguments Ok {A} a.
Arguments Exit {A} status.
Arguments Fault {A} f.

Definition bind {A B : Type} (m : outcome A) (k : A -> outcome B) : outcome B :=
  match m with
  | Ok a => k a
  | Exit s => Exit s
  | Fault f => Fault f
  end.

Notation "'do' x <- m ; k" := (bind m (fun x => k))
  (at level 10, x name, m at level 100, k at level 200).

Definition is_ok {A : Type} (m : outcome A) : bool :=
  match m with Ok _ => true | _ => false end.

Definition EXIT_FAILURE : Z := 1.

(** ** Machine integers *)

Definition INT_MIN : Z := - 2 ^ 31.
Definition INT_MAX : Z := 2 ^ 31 - 1.

(** Two's-complement reduction of an integer to [int]. *)
Definition wrap32 (z : Z) : Z := (z + 2 ^ 31) mod 2 ^ 32 - 2 ^ 31.

(** Conversion to [unsigned long long]. *)
Definition wrap64 (z : Z) : Z := z mod 2 ^ 64.

(** [a / b] on [int]: truncation toward zero; undefined for [b = 0] and for
    [INT_MIN / -1]. *)
Definition int_div (a b : Z) : outcome Z :=
  if b =? 0 then Fault DivideByZero
  else if (a =? INT_MIN) && (b =? -1) then Fault DivideByZero
  else Ok (Z.quot a b).

(** [abs] of <stdlib.h> on a two's-complement machine. *)
Definition abs (v : Z) : Z := wrap32 (Z.abs v).

(** ** The CUDA runtime, as far as the program depends on it

    Every call of the runtime is wrapped in [checkCudaErrors], which calls
    [exit(-1)] when the call reports an error.  [cudaMallocManaged] reports
    one for a size of zero, and for the sizes that a negative [int] turns
    into; the other calls are taken to succeed. *)
Definition checked_alloc (n : Z) : outcome unit :=
  if n <=? 0 then Exit (-1) else Ok tt.

(** ** binary32 floating point *)

Module F32.

Definition prec : Z := 24.
Definition emax : Z := 128.

Definition t : Type := spec_float.

Definition add : t -> t -> t := SFadd prec emax.
Definition mul : t -> t -> t := SFmul prec emax.
Definition div : t -> t -> t := SFdiv prec emax.
Definition sqrtf : t -> t := SFsqrt prec emax.

(** [(float) z] for an integer [z]. *)
Definition of_int (z : Z) : t := binary_normalize prec emax z 0 false.

(** C comparison operators on floats; every comparison with a NaN is false. *)
Definition lt (a b : t) : bool := SFltb a b.
Definition le (a b : t) : bool := SFleb a b.
Definition gt (a b : t) : bool := SFltb b a.

Definition is_nan (x : t) : bool :=
  match x with S754_nan => true | _ => false end.

Definition zero : t := S754_zero false.
Definition one : t := S754_finite false 8388608 (-23).
(** [1e-5f] *)
Definition eps : t := S754_finite false 10995116 (-40).
(** [0.9f] *)
Definition nine_tenths : t := S754_finite false 15099494 (-24).
(** [-1e10], which binary32 represents exactly: 9765625 * 2^10. *)
Definition minus_1e10 : t := S754_finite true 9765625 10.

End F32.


(** ** Strings *)

(** [(unsigned char) c] *)
Definition byte_val (c : ascii) : Z := Z.of_N (N_of_ascii c).

(** [strcmp]: bytewise comparison as [unsigned char]; a proper prefix is
    smaller.  Only the sign of the C result matters to its callers. *)
Fixpoint strcmp (a b : string) : comparison :=
  match a, b with
  | EmptyString, EmptyString => Eq
  | EmptyString, String _ _ => Lt
  | String _ _, EmptyString => Gt
  | String x a', String y b' =>
      match byte_val x ?= byte_val y with
      | Eq => strcmp a' b'
      | c => c
      end
  end.

(** ** Tokenizer *)

Record TokenIndex : Type := { str : string; id : Z }.

(** One slot of the vocabulary: [vocab[i]] and [vocab_scores[i]], which
    [build_tokenizer] reads from the file in the same loop iteration, so
    both arrays have [vocab_size] entries. *)
Record vocab_entry : Type := { piece : string; score : F32.t }.

Record Tokenizer : Type := {
  vocab : list vocab_entry;
  max_token_length : Z
}.

(** [t->vocab_size] *)
Definition tokenizer_vocab_size (t : Tokenizer) : Z := Z.of_nat (length (vocab t)).

(** [t->vocab[i]] together with [t->vocab_scores[i]]. *)
Definition vocab_at (t : Tokenizer) (i : Z) : outcome vocab_entry :=
  if (0 <=? i) && (i <? tokenizer_vocab_size t) then
    match vocab t !! Z.to_nat i with
    | Some e => Ok e
    | None => Fault (OutOfBounds i)
    end
  else Fault (OutOfBounds i).

Definition compare_tokens (a b : TokenIndex) : comparison :=
  strcmp (str a) (str b).

(** The order [qsort] sorts by: [compare_tokens a b <= 0]. *)
Definition token_le (a b : TokenIndex) : Prop := compare_tokens a b <> Gt.

#[global] Instance token_le_dec (a b : TokenIndex) : Decision (token_le a b).
Proof. unfold token_le. destruct (compare_tokens a b); [left|left|right]; congruence. Defined.

(** [qsort(base, n, size, compare_tokens)], as a merge sort. *)
Definition qsort (base : list TokenIndex) : list TokenIndex :=
  merge_sort token_le base.

(** The index [encode] builds on its first call:
    [sorted_vocab[i] = { vocab[i], i }], then sorted.  The vocabulary does not
    change after [build_tokenizer], so the cached array always equals this
    value. *)
Definition sorted_vocab (t : Tokenizer) : list TokenIndex :=
  qsort (imap (fun i e => {| str := piece e; id := Z.of_nat i |}) (vocab t)).

(** [bsearch]: binary search of the half-open range [lo, hi) of [base]. *)
Fixpoint bsearch_range (fuel : nat) (key : string) (base : list TokenIndex)
    (lo hi : nat) : option TokenIndex :=
  match fuel with
  | O => None
  | S fuel' =>
      if (lo <? hi)%nat then
        let idx := ((lo + hi) / 2)%nat in
        match base !! idx with
        | None => None
        | Some e =>
            match strcmp key (str e) with
            | Lt => bsearch_range fuel' key base lo idx
            | Gt => bsearch_range fuel' key base (S idx) hi
            | Eq => Some e
            end
        end
      else None
  end.

Definition bsearch (key : string) (base : list TokenIndex) : option TokenIndex :=
  bsearch_range (length base) key base 0 (length base).

Definition str_lookup (s : string) (sorted : list TokenIndex) : Z :=
  match bsearch s sorted with
  | Some res => id res
  | None => -1
  end.

(** [(c & 0xC0) == 0x80]: [c] is a UTF-8 continuation byte. *)
Definition is_continuation (c : ascii) : bool :=
  Z.land (byte_val c) 192 =? 128.

Definition max_num_utf8_byte : Z := 4.

(** The loop over the bytes of [text].  [str_buffer] holds the bytes of the
    code point read so far ([str_len] is its length); [*(c+1)] is the next
    byte of the text, or the terminating NUL. *)
Fixpoint scan_text (sorted : list TokenIndex) (text : string)
    (str_buffer : string) (tokens : list Z) : list Z :=
  match text with
  | EmptyString => tokens
  | String c rest =>
      let buffer0 := if is_continuation c then str_buffer else EmptyString in
      let buffer := (buffer0 ++ String c EmptyString)%string in
      let next := match rest with String c' _ => c' | EmptyString => Ascii.zero end in
      if is_continuation next
         && (Z.of_nat (String.length buffer) <? max_num_utf8_byte)
      then scan_text sorted rest buffer tokens
      else
        let id := str_lookup buffer sorted in
        let tokens' :=
          if negb (id =? -1) then tokens ++ [id]
          else tokens ++ map (fun b => byte_val b + 3) (list_ascii_of_string buffer) in
        scan_text sorted rest EmptyString tokens'
  end.

(** The state of the inner [for] loop of the merge loop. *)
Record best : Type := { best_score : F32.t; best_id : Z; best_idx : Z }.

Definition no_best : best :=
  {| best_score := F32.minus_1e10; best_id := -1; best_idx := -1 |}.

(** The inner [for] loop from position [i] on: [tokens] is the part of the
    array from [tokens[i]]. *)
Fixpoint scan_pairs (t : Tokenizer) (tokens : list Z) (i : Z) (b : best)
    : outcome best :=
  match tokens with
  | a :: ((c :: _) as rest) =>
      do ea <- vocab_at t a;
      do ec <- vocab_at t c;
      let id := str_lookup (piece ea ++ piece ec)%string (sorted_vocab t) in
      do b' <- (if id =? -1 then Ok b
                else do e <- vocab_at t id;
                     Ok (if F32.gt (score e) (best_score b)
                         then {| best_score := score e; best_id := id; best_idx := i |}
                         else b));
      scan_pairs t rest (i + 1) b'
  | _ => Ok b
  end.

(** [for (i = from; i < n - 1; i++) tokens[i] = tokens[i+1];] *)
Definition shift_left (tokens : list Z) (from n : nat) : list Z :=
  fold_left
    (fun tk i => match tk !! S i with Some v => <[i := v]> tk | None => tk end)
    (seq from (n - 1 - from)) tokens.

(** The merge of the pair at [idx]: the write of [best_id], the shift, and
    the decrement of [n_tokens]. *)
Definition merge_pair (tokens : list Z) (idx : nat) (new_id : Z) : list Z :=
  let n := length tokens in
  take (n - 1) (shift_left (<[idx := new_id]> tokens) (S idx) n).

(** One pass of the body of the [while (1)] merge loop: [None] stands for
    [break], [Some tokens'] for the array after the merge. *)
Definition merge_step (t : Tokenizer) (tokens : list Z) : outcome (option (list Z)) :=
  do b <- scan_pairs t tokens 0 no_best;
  Ok (if best_idx b =? -1 then None
      else Some (merge_pair tokens (Z.to_nat (best_idx b)) (best_id b))).

(** The [while (1)] merge loop.  The second component counts the merges
    done; [None] means the fuel ran out before the loop reached [break]. *)
Fixpoint merge_loop (fuel : nat) (t : Tokenizer) (tokens : list Z) (merges : nat)
    : option (outcome (list Z) * nat) :=
  match fuel with
  | O => None
  | S fuel' =>
      match merge_step t tokens with
      | Ok None => Some (Ok tokens, merges)
      | Ok (Some tokens') => merge_loop fuel' t tokens' (S merges)
      | Exit s => Some (Exit s, merges)
      | Fault f => Some (Fault f, merges)
      end
  end.

(** The token array after the optional BOS, the dummy prefix and the scan of
    the text: the input of the merge loop. *)
Definition initial_tokens (t : Tokenizer) (text : string) (bos : Z) : list Z :=
  let tokens := if bos =? 0 then [] else [1] in
  let tokens :=
    match text with
    | EmptyString => tokens
    | String _ _ => tokens ++ [str_lookup " " (sorted_vocab t)]
    end in
  scan_text (sorted_vocab t) text EmptyString tokens.

(** [encode]; [text] is [None] for a NULL pointer, and the result is the
    array [tokens[0 .. n_tokens)].  The allocation is the one of the sorted
    index, made on the first call.  The output array is assumed as large as
    its callers promise, and the scratch buffer large enough for the pieces;
    what the function prints is left out. *)
Definition encode (t : Tokenizer) (text : option string) (bos eos : Z)
    : outcome (list Z) :=
  match text with
  | None => Exit EXIT_FAILURE
  | Some text =>
      do _ <- checked_alloc (tokenizer_vocab_size t);
      let tokens := initial_tokens t text bos in
      match merge_loop (S (length tokens)) t tokens 0 with
      | Some (r, _) =>
          do tokens <- r;
          Ok (if eos =? 0 then tokens else tokens ++ [2])
      | None => Fault FuelExhausted
      end
  end.

(** *** Vocabulary of the statements about the merge loop *)

(** The id the pair [(tokens[j], tokens[j+1])] resolves to: the result of
    looking up the concatenation of the two pieces, when it is found. *)
Definition pair_id (t : Tokenizer) (tokens : list Z) (j : nat) : option Z :=
  match tokens !! j, tokens !! S j with
  | Some a, Some c =>
      match vocab_at t a, vocab_at t c with
      | Ok ea, Ok ec =>
          let id := str_lookup (piece ea ++ piece ec)%string (sorted_vocab t) in
          if id =? -1 then None else Some id
      | _, _ => None
      end
  | _, _ => None
  end.

(** [t->vocab_scores[id]] for an id of the vocabulary. *)
Definition score_of (t : Tokenizer) (i : Z) : F32.t :=
  match vocab_at t i with Ok e => score e | _ => F32.zero end.

(** What the inner [for] loop has established once the pairs at the
    positions below [k] are scanned: either no pair so far resolved to a
    score above the initial [best_score], or [b] records the leftmost pair
    of the highest score among them. *)
Definition scan_inv (t : Tokenizer) (tokens : list Z) (k : nat) (b : best) : Prop :=
  (best_idx b = -1 /\ best_score b = F32.minus_1e10 /\
   forall j i, (j < k)%nat -> pair_id t tokens j = Some i ->
     F32.gt (score_of t i) F32.minus_1e10 = false)
  \/
  (exists i0 : nat, (i0 < k)%nat /\ best_idx b = Z.of_nat i0 /\
     pair_id t tokens i0 = Some (best_id b) /\
     best_score b = score_of t (best_id b) /\
     F32.gt (best_score b) F32.minus_1e10 = true /\
     (forall j i, (j < k)%nat -> pair_id t tokens j = Some i ->
        F32.gt (score_of t i) (best_score b) = false) /\
     (forall j i, (j < i0)%nat -> pair_id t tokens j = Some i ->
        F32.gt (score_of t i) F32.minus_1e10 = true ->
        F32.lt (score_of t i) (best_score b) = true)).

(** ** Transformer: configuration, weights and the checkpoint loader *)

Record Config : Type := {
  dim : Z;          (* transformer dimension *)
  hidden_dim : Z;   (* ffn layer dimension *)
  n_layers : Z;     (* number of transformer layers *)
  n_heads : Z;      (* number of query heads *)
  n_kv_heads : Z;   (* number of k/v heads *)
  vocab_size : Z;   (* vocabulary size *)
  max_seq_len : Z   (* maximum sequence length to generate *)
}.

(** [sizeof(Config)]: seven [int]s. *)
Definition sizeof_Config : Z := 28.

(** The weight pointers, as offsets (counted in floats) from
    [transformer->data]. *)
Record TransformerWeights : Type := {
  token_embedding_table : Z;
  rms_att_weight : Z;
  rms_ffn_weight : Z;
  wq : Z;
  wk : Z;
  wv : Z;
  wo : Z;
  w1 : Z;
  w2 : Z;
  w3 : Z;
  rms_final_weight : Z;
  wcls : Z
}.

(** The run state.  The contents of [partial_sum] are not tracked: it is
    scratch memory of the reduction kernels. *)
Module RunState.
Record t : Type := {
  x : list F32.t;
  xb : list F32.t;
  xb2 : list F32.t;
  hb : list F32.t;
  hb2 : list F32.t;
  q : list F32.t;
  att : list F32.t;
  logits : list F32.t;
  key_cache : list F32.t;
  value_cache : list F32.t
}.
End RunState.

Record Transformer : Type := {
  config : Config;
  weights : TransformerWeights;
  state : RunState.t;
  data : Z -> F32.t;   (* the contents of the buffer [data] points to *)
  file_size : Z
}.

(** [memory_map_weights]: the integer products are computed in the types
    the C expressions have, [int] or [unsigned long long]. *)
Definition memory_map_weights (config : Config) (ptr : Z) (shared_weights : Z)
    : outcome TransformerWeights :=
  do head_size <- int_div (dim config) (n_heads config);
  let n_layers := wrap64 (n_layers config) in
  let heads_x_size := wrap64 (wrap32 (n_heads config * head_size)) in
  let kv_heads_x_size := wrap64 (wrap32 (n_kv_heads config * head_size)) in
  let dim64 := wrap64 (dim config) in
  let hidden64 := wrap64 (hidden_dim config) in
  let token_embedding_table := ptr in
  let ptr := ptr + wrap32 (vocab_size config * dim config) in
  let rms_att_weight := ptr in
  let ptr := ptr + wrap64 (n_layers * dim64) in
  let wq := ptr in
  let ptr := ptr + wrap64 (wrap64 (n_layers * dim64) * heads_x_size) in
  let wk := ptr in
  let ptr := ptr + wrap64 (wrap64 (n_layers * dim64) * kv_heads_x_size) in
  let wv := ptr in
  let ptr := ptr + wrap64 (wrap64 (n_layers * dim64) * kv_heads_x_size) in
  let wo := ptr in
  let ptr := ptr + wrap64 (wrap64 (n_layers * heads_x_size) * dim64) in
  let rms_ffn_weight := ptr in
  let ptr := ptr + wrap64 (n_layers * dim64) in
  let w1 := ptr in
  let ptr := ptr + wrap64 (wrap64 (n_layers * dim64) * hidden64) in
  let w2 := ptr in
  let ptr := ptr + wrap64 (wrap64 (n_layers * hidden64) * dim64) in
  let w3 := ptr in
  let ptr := ptr + wrap64 (wrap64 (n_layers * dim64) * hidden64) in
  let rms_final_weight := ptr in
  let ptr := ptr + dim config in
  (* skip what used to be freq_cis_real and freq_cis_imag *)
  let ptr := ptr + Z.quot (wrap32 (max_seq_len config * head_size)) 2 in
  let ptr := ptr + Z.quot (wrap32 (max_seq_len config * head_size)) 2 in
  Ok {| token_embedding_table := token_embedding_table;
        rms_att_weight := rms_att_weight;
        rms_ffn_weight := rms_ffn_weight;
        wq := wq; wk := wk; wv := wv; wo := wo;
        w1 := w1; w2 := w2; w3 := w3;
        rms_final_weight := rms_final_weight;
        wcls := if shared_weights =? 0 then ptr else token_embedding_table |}.

(** A little-endian [int] of the file. *)
Definition byte_to_Z (b : byte) : Z := Z.of_N (Byte.to_N b).

Definition int_of_bytes (b0 b1 b2 b3 : byte) : Z :=
  wrap32 (byte_to_Z b0 + 2 ^ 8 * byte_to_Z b1
          + 2 ^ 16 * byte_to_Z b2 + 2 ^ 24 * byte_to_Z b3).

Fixpoint read_ints (n : nat) (file : list byte) : option (list Z) :=
  match n with
  | O => Some []
  | S n' =>
      match file with
      | b0 :: b1 :: b2 :: b3 :: rest =>
          match read_ints n' rest with
          | Some l => Some (int_of_bytes b0 b1 b2 b3 :: l)
          | None => None
          end
      | _ => None
      end
  end.

(** [fread(config, sizeof(Config), 1, file)]: [None] when the file is
    shorter than the header. *)
Definition fread_Config (file : list byte) : option Config :=
  match read_ints 7 file with
  | Some [d; h; l; nh; nkv; v; m] =>
      Some {| dim := d; hidden_dim := h; n_layers := l; n_heads := nh;
              n_kv_heads := nkv; vocab_size := v; max_seq_len := m |}
  | _ => None
  end.

(** [read_checkpoint].  [file] is the contents of the checkpoint path, [None]
    when it cannot be opened; [mem] is what the buffer allocated for [data]
    holds (the function reads nothing into it).  The calls of the CUDA
    runtime are taken to succeed. *)
Definition read_checkpoint (file : option (list byte)) (mem : Z -> F32.t)
    (transformer : Transformer) : outcome Transformer :=
  match file with
  | None => Exit EXIT_FAILURE
  | Some bytes =>
      match fread_Config bytes with
      | None => Exit EXIT_FAILURE
      | Some config =>
          (* negative vocab size signals unshared weights *)
          let shared_weights := if vocab_size config >? 0 then 1 else 0 in
          let config :=
            {| dim := dim config; hidden_dim := hidden_dim config;
               n_layers := n_layers config; n_heads := n_heads config;
               n_kv_heads := n_kv_heads config;
               vocab_size := abs (vocab_size config);
               max_seq_len := max_seq_len config |} in
          let file_size := Z.of_nat (length bytes) in
          let weights_ptr := Z.quot sizeof_Config 4 in
          do w <- memory_map_weights config weights_ptr shared_weights;
          Ok {| config := config; weights := w; state := state transformer;
                data := mem; file_size := file_size |}
      end
  end.

(** The end of the last region of the layout of [memory_map_weights], in
    bytes from the start of the file: the header, the regions up to the
    skipped rotary tables, and the classifier weights when they are not
    shared. *)
Definition layout_bytes (config : Config) (shared_weights : Z) : outcome Z :=
  do w <- memory_map_weights config (Z.quot sizeof_Config 4) 0;
  Ok (4 * (if shared_weights =? 0
           then wcls w + wrap32 (vocab_size config * dim config)
           else wcls w)).

(** The bytes of an [int], for writing example files. *)
Definition bytes_of_int (z : Z) : list byte :=
  map (fun k => match Byte.of_N (Z.to_N ((wrap64 z / 2 ^ (8 * k)) mod 2 ^ 8)) with
                | Some b => b
                | None => x00
                end)
      [0; 1; 2; 3].

Definition header_bytes (c : Config) : list byte :=
  flat_map bytes_of_int
    [dim c; hidden_dim c; n_layers c; n_heads c; n_kv_heads c; vocab_size c;
     max_seq_len c].

(** [checkCudaErrors(cudaMallocManaged(&p, n * sizeof(float)))]; [junk] is
    what the fresh memory holds. *)
Definition cudaMallocManaged (junk : F32.t) (n : Z) : outcome (list F32.t) :=
  do _ <- checked_alloc n;
  Ok (repeat junk (Z.to_nat n)).

(** [alloc_run_state]; the prefetches are taken to succeed. *)
Definition alloc_run_state (junk : F32.t) (config : Config) : outcome RunState.t :=
  do kv_dim <- int_div (wrap32 (dim config * n_kv_heads config)) (n_heads config);
  let cache := wrap32 (wrap32 (n_layers config * max_seq_len config) * kv_dim) in
  do x <- cudaMallocManaged junk (dim config);
  do partial_sum <- cudaMallocManaged junk (dim config);
  do xb <- cudaMallocManaged junk (dim config);
  do xb2 <- cudaMallocManaged junk (dim config);
  do hb <- cudaMallocManaged junk (hidden_dim config);
  do hb2 <- cudaMallocManaged junk (hidden_dim config);
  do q <- cudaMallocManaged junk (dim config);
  do key_cache <- cudaMallocManaged junk cache;
  do value_cache <- cudaMallocManaged junk cache;
  do att <- cudaMallocManaged junk (wrap32 (n_heads config * max_seq_len config));
  do logits <- cudaMallocManaged junk (vocab_size config);
  Ok {| RunState.x := x; RunState.xb := xb; RunState.xb2 := xb2;
        RunState.hb := hb; RunState.hb2 := hb2; RunState.q := q;
        RunState.att := att; RunState.logits := logits;
        RunState.key_cache := key_cache; RunState.value_cache := value_cache |}.

Definition build_transformer (file : option (list byte)) (mem : Z -> F32.t)
    (junk : F32.t) (transformer : Transformer) : outcome Transformer :=
  do t <- read_checkpoint file mem transformer;
  do s <- alloc_run_state junk (config t);
  Ok {| config := config t; weights := weights t; state := s;
        data := data t; file_size := file_size t |}.

(** ** Neural net blocks *)

Definition cudaCpuDeviceId : Z := -1.

(** [a[j]] read from, and written to, a buffer of the run state. *)
Definition load (a : list F32.t) (j : Z) : outcome F32.t :=
  if j <? 0 then Fault (OutOfBounds j)
  else match a !! Z.to_nat j with
       | Some v => Ok v
       | None => Fault (OutOfBounds j)
       end.

Definition store (a : list F32.t) (j : Z) (v : F32.t) : outcome (list F32.t) :=
  if (0 <=? j) && (j <? Z.of_nat (length a)) then Ok (<[Z.to_nat j := v]> a)
  else Fault (OutOfBounds j).

(** [data[i]]: the buffer of [read_checkpoint] has [file_size + 1] bytes. *)
Definition data_at (tr : Transformer) (i : Z) : outcome F32.t :=
  if (0 <=? i) && (4 * i + 4 <=? file_size tr + 1) then Ok (data tr i)
  else Fault (OutOfBounds i).

(** [for (j = ...; j < size; j++) ss += x[j] * x[j];] with [n] rounds left. *)
Fixpoint sum_of_squares (x : list F32.t) (j : Z) (n : nat) (ss : F32.t)
    : outcome F32.t :=
  match n with
  | O => Ok ss
  | S n' =>
      do xj <- load x j;
      sum_of_squares x (j + 1) n' (F32.add ss (F32.mul xj xj))
  end.

(** [for (j = ...; j < size; j++) o[j] = weight[j] * (ss * x[j]);] *)
Fixpoint normalize_and_scale (o x : list F32.t) (weight : Z -> outcome F32.t)
    (ss : F32.t) (j : Z) (n : nat) : outcome (list F32.t) :=
  match n with
  | O => Ok o
  | S n' =>
      do wj <- weight j;
      do xj <- load x j;
      do o' <- store o j (F32.mul wj (F32.mul ss xj));
      normalize_and_scale o' x weight ss (j + 1) n'
  end.

(** [rmsnorm]; the result is the buffer [o].  [weight] is the pointer
    argument, as the function that reads [weight[j]].  In the branch for a
    device the source launches the reduction kernels on [partial_o] and [x]
    and computes [ss] from [partial_o[0]]; its part "normalize and scale" is
    empty, and the call [rmsnorm_kernel()] passes no buffer, so [o] is left as
    it was. *)
Definition rmsnorm (o x : list F32.t) (weight : Z -> outcome F32.t)
    (size device : Z) : outcome (list F32.t) :=
  if device =? cudaCpuDeviceId then
    do ss <- sum_of_squares x 0 (Z.to_nat size) F32.zero;
    let ss := F32.div ss (F32.of_int size) in
    let ss := F32.add ss F32.eps in
    let ss := F32.div F32.one (F32.sqrtf ss) in
    normalize_and_scale o x weight ss 0 (Z.to_nat size)
  else Ok o.

(** The copy of the embedding row: [dim] floats from [data + src] to [x]. *)
Fixpoint copy_row (tr : Transformer) (src : Z) (x : list F32.t) (j : Z) (n : nat)
    : outcome (list F32.t) :=
  match n with
  | O => Ok x
  | S n' =>
      do v <- data_at tr (src + j);
      do x' <- store x j v;
      copy_row tr src x' (j + 1) n'
  end.

(** The loop over the layers of [forward], from layer [l], [n] rounds. *)
Fixpoint forward_layers (tr : Transformer) (x xb : list F32.t)
    (dim device : Z) (l : Z) (n : nat) : outcome (list F32.t) :=
  match n with
  | O => Ok xb
  | S n' =>
      (* attention rmsnorm *)
      do xb' <- rmsnorm xb x
                  (fun j => data_at tr (rms_att_weight (weights tr)
                                        + wrap64 (l * wrap64 dim) + j))
                  dim device;
      forward_layers tr x xb' dim device (l + 1) n'
  end.

(** [forward].  The function ends after the loop, without a [return]: the
    second component of the result, the value handed to the caller, is
    [None]. *)
Definition forward (tr : Transformer) (token pos device : Z)
    : outcome (Transformer * option (list F32.t)) :=
  let p := config tr in
  let w := weights tr in
  let s := state tr in
  let dim := dim p in
  do kv_dim <- int_div (wrap32 (dim * n_kv_heads p)) (n_heads p);
  do kv_mul <- int_div (n_heads p) (n_kv_heads p);
  do head_size <- int_div dim (n_heads p);
  (* copy the token embedding into x *)
  let content_row := token_embedding_table w + wrap32 (token * dim) in
  if dim <? 0 then Fault BadCall
  else
    do x <- copy_row tr content_row (RunState.x s) 0 (Z.to_nat dim);
    (* forward all the layers *)
    do xb <- forward_layers tr x (RunState.xb s) dim device 0
               (Z.to_nat (wrap64 (n_layers p)));
    Ok ({| config := p; weights := w;
           state := {| RunState.x := x; RunState.xb := xb;
                       RunState.xb2 := RunState.xb2 s;
                       RunState.hb := RunState.hb s;
                       RunState.hb2 := RunState.hb2 s;
                       RunState.q := RunState.q s;
                       RunState.att := RunState.att s;
                       RunState.logits := RunState.logits s;
                       RunState.key_cache := RunState.key_cache s;
                       RunState.value_cache := RunState.value_cache s |};
           data := data tr; file_size := file_size tr |},
        None).

Definition empty_state : RunState.t :=
  {| RunState.x := []; RunState.xb := []; RunState.xb2 := [];
     RunState.hb := []; RunState.hb2 := []; RunState.q := [];
     RunState.att := []; RunState.logits := [];
     RunState.key_cache := []; RunState.value_cache := [] |}.

(** A [Transformer] before [build_transformer] has filled it. *)
Definition blank_transformer : Transformer :=
  {| config := {| dim := 0; hidden_dim := 0; n_layers := 0; n_heads := 0;
                  n_kv_heads := 0; vocab_size := 0; max_seq_len := 0 |};
     weights := {| token_embedding_table := 0; rms_att_weight := 0;
                   rms_ffn_weight := 0; wq := 0; wk := 0; wv := 0; wo := 0;
                   w1 := 0; w2 := 0; w3 := 0; rms_final_weight := 0; wcls := 0 |};
     state := empty_state;
     data := fun _ => F32.zero;
     file_size := 0 |}.

(** ** Sampler *)

Module Sampler.
Record t : Type := {
  vocab_size : Z;
  temperature : F32.t;
  topp : F32.t;
  rng_state : Z
}.
End Sampler.

Definition build_sampler (vocab_size : Z) (temperature topp : F32.t)
    (rng_seed : Z) : Sampler.t :=
  {| Sampler.vocab_size := vocab_size; Sampler.temperature := temperature;
     Sampler.topp := topp; Sampler.rng_state := rng_seed |}.

(** ** Generation loop *)

(** What a call of [generate] did: the calls of [forward] it made, as pairs
    (token, pos) in order; the last value of [next] ([None] while the variable
    is uninitialised); the last value of [pos]; and how the call ended. *)
Record generation : Type := {
  forward_calls : list (Z * Z);
  next : option Z;
  pos : Z;
  ending : outcome unit
}.

(** The [while (pos < steps)] loop of [generate], entered with [pos = 0],
    and what follows it.  The body of the loop ends in [exit(-1)], so there is
    no second round; the lines that sample, test for BOS and decode are
    comments in the source. *)
Definition generate_loop (transformer : Transformer) (prompt_tokens : list Z)
    (steps device : Z) : generation :=
  let num_prompt_tokens := Z.of_nat (length prompt_tokens) in
  let token := match prompt_tokens with tok :: _ => tok | [] => 0 end in
  let pos := 0 in
  if pos <? steps then
    (* forward the transformer to get logits for the next token *)
    match forward transformer token pos device with
    | Ok (_, logits) =>
        (* advance the state machine *)
        let next :=
          if pos <? num_prompt_tokens - 1
          then prompt_tokens !! Z.to_nat (pos + 1)
          else None in
        {| forward_calls := [(token, pos)]; next := next; pos := pos + 1;
           ending := Exit (-1) |}
    | Exit s =>
        {| forward_calls := [(token, pos)]; next := None; pos := pos;
           ending := Exit s |}
    | Fault f =>
        {| forward_calls := [(token, pos)]; next := None; pos := pos;
           ending := Fault f |}
    end
  else
    (* free(prompt_tokens), on memory of cudaMallocManaged *)
    {| forward_calls := []; next := None; pos := pos; ending := Fault BadFree |}.

(** [generate].  [prompt] is [None] for a NULL pointer.  The size of the
    allocation for [prompt_tokens] is not modelled. *)
Definition generate (transformer : Transformer) (tokenizer : Tokenizer)
    (sampler : Sampler.t) (prompt : option string) (steps device : Z)
    : generation :=
  let prompt := match prompt with Some p => p | None => EmptyString end in
  let stopped e :=
    {| forward_calls := []; next := None; pos := 0; ending := e |} in
  match encode tokenizer (Some prompt) 1 0 with
  | Ok prompt_tokens =>
      if Z.of_nat (length prompt_tokens) <? 1 then stopped (Exit EXIT_FAILURE)
      else generate_loop transformer prompt_tokens steps device
  | Exit s => stopped (Exit s)
  | Fault f => stopped (Fault f)
  end.

(** ** [main] *)

(** The local variables of [main] after the options are parsed.
    [rng_seed] is the value last assigned to the variable: its initial 0, or
    the [int] that [atoi] returned for the option [-s].  The variable is an
    [unsigned long long], so the assignment reduces that value modulo 2^64. *)
Module Options.
Record t : Type := {
  temperature : F32.t;
  topp : F32.t;
  steps : Z;
  rng_seed : Z;
  device : Z;
  prompt : option string;
  mode : string
}.
End Options.

(** "parameter validation/correction"; [now] is the value of [time(NULL)].
    The test [rng_seed <= 0] is made on the [unsigned long long]. *)
Definition correct_parameters (now : Z) (o : Options.t) : Options.t :=
  let rng_seed := wrap64 (Options.rng_seed o) in
  let rng_seed := if rng_seed <=? 0 then wrap64 now else rng_seed in
  let temperature :=
    if F32.lt (Options.temperature o) F32.zero then F32.zero
    else Options.temperature o in
  let topp :=
    if F32.lt (Options.topp o) F32.zero || F32.le F32.one (Options.topp o)
    then F32.nine_tenths else Options.topp o in
  let steps := if Options.steps o <? 0 then 0 else Options.steps o in
  let device := if Options.device o <? 0 then cudaCpuDeviceId else Options.device o in
  {| Options.temperature := temperature; Options.topp := topp;
     Options.steps := steps; Options.rng_seed := rng_seed;
     Options.device := device; Options.prompt := Options.prompt o;
     Options.mode := Options.mode o |}.

(** The correction of [steps] that follows [build_transformer]. *)
Definition clamp_steps (steps max_seq_len : Z) : Z :=
  if (steps =? 0) || (steps >? max_seq_len) then max_seq_len else steps.

(** The state of [main] at its call of [generate]: the options as
    corrected, [steps] after the correction that follows
    [build_transformer], and what was built. *)
Module Run.
Record t : Type := {
  options : Options.t;
  transformer : Transformer;
  tokenizer : Tokenizer;
  sampler : Sampler.t
}.
End Run.

(** [main] from the parameter correction to the call of [build_sampler].
    [checkpoint] is the contents of the checkpoint file and [build_tokenizer]
    stands for the reading of the tokenizer file, given the vocabulary
    size. *)
Definition main_setup (now : Z) (o : Options.t) (checkpoint : option (list byte))
    (mem : Z -> F32.t) (junk : F32.t)
    (build_tokenizer : Z -> outcome Tokenizer) : outcome Run.t :=
  let o := correct_parameters now o in
  do transformer <- build_transformer checkpoint mem junk blank_transformer;
  let steps := clamp_steps (Options.steps o) (max_seq_len (config transformer)) in
  do tokenizer <- build_tokenizer (vocab_size (config transformer));
  let sampler :=
    build_sampler (vocab_size (config transformer))
      (Options.temperature o) (Options.topp o) (Options.rng_seed o) in
  Ok {| Run.options :=
          {| Options.temperature := Options.temperature o;
             Options.topp := Options.topp o;
             Options.steps := steps;
             Options.rng_seed := Options.rng_seed o;
             Options.device := Options.device o;
             Options.prompt := Options.prompt o;
             Options.mode := Options.mode o |};
        Run.transformer := transformer;
        Run.tokenizer := tokenizer;
        Run.sampler := sampler |}.

(** [main] from the parameter correction on: the setup, then "run!". *)
Definition main (now : Z) (o : Options.t) (checkpoint : option (list byte))
    (mem : Z -> F32.t) (junk : F32.t)
    (build_tokenizer : Z -> outcome Tokenizer) : generation :=
  let stopped e :=
    {| forward_calls := []; next := None; pos := 0; ending := e |} in
  match main_setup now o checkpoint mem junk build_tokenizer with
  | Ok run =>
      let o := Run.options run in
      if String.eqb (Options.mode o) "generate"
      then generate (Run.transformer run) (Run.tokenizer run) (Run.sampler run)
             (Options.prompt o) (Options.steps o) (Options.device o)
      else stopped (Exit EXIT_FAILURE)
  | Exit s => stopped (Exit s)
  | Fault f => stopped (Fault f)
  end.

(** ** Data for the examples *)

(** *** Small vocabularies for the examples

    Slots 0, 1 and 2 are the special pieces, as in the vocabulary files the
    program reads. *)

Definition entry (p : string) (s : Z) : vocab_entry :=
  {| piece := p; score := F32.of_int s |}.

Definition tiny_tokenizer : Tokenizer :=
  {| vocab := [ entry "<unk>" 0; entry "<s>" 0; entry "</s>" 0;
                entry " " (-1); entry "a" (-2); entry "b" (-3);
                entry "ab" (-4); entry " a" (-5); entry " ab" (-6) ];
     max_token_length := 5 |}.

(** As above, but the merged piece "ab" has the score -2e10. *)
Definition low_score_tokenizer : Tokenizer :=
  {| vocab := [ entry "<unk>" 0; entry "<s>" 0; entry "</s>" 0;
                entry " " (-1); entry "a" (-2); entry "b" (-3);
                entry "ab" (-20000000000) ];
     max_token_length := 5 |}.

(** A vocabulary without the piece " ". *)
Definition no_space_tokenizer : Tokenizer :=
  {| vocab := [ entry "<unk>" 0; entry "<s>" 0; entry "</s>" 0; entry "a" (-1) ];
     max_token_length := 5 |}.

(** *** A small configuration for the examples *)

Definition tiny_config : Config :=
  {| dim := 4; hidden_dim := 8; n_layers := 1; n_heads := 2; n_kv_heads := 1;
     vocab_size := 8; max_seq_len := 4 |}.

(** The same with the sign of the vocabulary size flipped, as a file with
    unshared classifier weights stores it. *)
Definition tiny_config_unshared : Config :=
  {| dim := 4; hidden_dim := 8; n_layers := 1; n_heads := 2; n_kv_heads := 1;
     vocab_size := -8; max_seq_len := 4 |}.

(** Memory in which every float is 1.0. *)
Definition all_ones : Z -> F32.t := fun _ => F32.one.

(** A checkpoint file of [tiny_config] of the size of its layout (812
    bytes), and the transformer built from it, in memory of ones and with a
    run state of zeros. *)
Definition tiny_file : list byte :=
  header_bytes tiny_config ++ repeat x00 784.

Definition tiny_transformer : Transformer :=
  Eval vm_compute in
    match build_transformer (Some tiny_file) all_ones F32.zero blank_transformer with
    | Ok t => t
    | _ => blank_transformer
    end.

Definition default_options : Options.t :=
  {| Options.temperature := F32.one; Options.topp := F32.nine_tenths;
     Options.steps := 256; Options.rng_seed := 0; Options.device := -1;
     Options.prompt := Some "ab"%string; Options.mode := "generate"%string |}.

(** What [read_checkpoint] makes of the header of [tiny_config_unshared]. *)
Definition tiny_unshared_loaded : Transformer :=
  Eval vm_compute in
    match read_checkpoint (Some (header_bytes tiny_config_unshared)) all_ones
            blank_transformer with
    | Ok t => t
    | _ => blank_transformer
    end.

(** ** Proof automation *)

(** Case analysis on a float, and on the comparisons of exponents and
    mantissas that [SFcompare] makes. *)
Ltac sf_split x := destruct x as [[|]|[|]| |[|] ? ?].

Ltac cmp_cases :=
  repeat match goal with
  | H : context [Z.compare ?a ?b] |- _ => destruct (Z.compare_spec a b); subst
  | |- context [Z.compare ?a ?b] => destruct (Z.compare_spec a b); subst
  | H : context [Pos.compare_cont Eq ?a ?b] |- _ =>
      change (Pos.compare_cont Eq a b) with (Pos.compare a b) in *;
      destruct (Pos.compare_spec a b); subst
  | |- context [Pos.compare_cont Eq ?a ?b] =>
      change (Pos.compare_cont Eq a b) with (Pos.compare a b) in *;
      destruct (Pos.compare_spec a b); subst
  end.

Ltac sf_finish :=
  cmp_cases; simpl in *; try discriminate; try reflexivity; try lia.


(** ** Vocabulary of the statements about [encode] *)

(** [t->vocab[i]], the empty string for an id outside the vocabulary. *)
Definition piece_of (t : Tokenizer) (i : Z) : string :=
  match vocab_at t i with Ok e => piece e | _ => EmptyString end.

(** The text a token array spells: the concatenation of its pieces. *)
Definition spell (t : Tokenizer) (tokens : list Z) : string :=
  fold_right (fun i s => (piece_of t i ++ s)%string) EmptyString tokens.

(** [i] indexes the vocabulary. *)
Definition in_vocab (t : Tokenizer) (i : Z) : Prop :=
  0 <= i < tokenizer_vocab_size t.

(** The tokens the scan of the text emits for the string [s] of one code
    point: its id, or one token per byte, offset by 3. *)
Definition code_point_tokens (sorted : list TokenIndex) (s : string) : list Z :=
  if negb (str_lookup s sorted =? -1) then [str_lookup s sorted]
  else map (fun b => byte_val b + 3) (list_ascii_of_string s).

(** No byte of the text is a UTF-8 continuation byte; every ASCII text is
    such a text. *)
Definition no_continuation (text : string) : Prop :=
  Forall (fun c => is_continuation c = false) (list_ascii_of_string text).

(** The bytes [generate] allocates for [prompt_tokens]:
    [sizeof(int) * strlen(prompt)+3]. *)
Definition prompt_tokens_bytes (prompt : string) : Z :=
  4 * Z.of_nat (String.length prompt) + 3.

(** The strings the loop over the text looks up, in order: the successive
    contents of [str_buffer] at the calls of [str_lookup].  [str_buffer] is
    the buffer on entry. *)
Fixpoint code_points (text : string) (str_buffer : string) : list string :=
  match text with
  | EmptyString => []
  | String c rest =>
      let buffer0 := if is_continuation c then str_buffer else EmptyString in
      let buffer := (buffer0 ++ String c EmptyString)%string in
      let next := match rest with String c' _ => c' | EmptyString => Ascii.zero end in
      if is_continuation next
         && (Z.of_nat (String.length buffer) <? max_num_utf8_byte)
      then code_points rest buffer
      else buffer :: code_points rest EmptyString
  end.

Definition join (l : list string) : string :=
  fold_right String.append EmptyString l.

(** [s] is a piece of the vocabulary. *)
Definition is_piece (t : Tokenizer) (s : string) : Prop :=
  exists v, v ∈ vocab t /\ piece v = s.

(** *** A vocabulary with the 256 byte pieces

    Slots 3 to 258 hold the pieces "<0x00>" to "<0xFF>", as in the vocabulary
    files the program reads; the pieces after them include the two bytes of
    the code point U+00E9. *)

Definition hex_digit (n : nat) : ascii :=
  ascii_of_nat (if (n <? 10)%nat then 48 + n else 55 + n).

Definition byte_piece (n : nat) : string :=
  ("<0x" ++ String (hex_digit (n / 16)) (String (hex_digit (n mod 16)) ">"))%string.

Definition e_acute : string :=
  String (ascii_of_nat 195) (String (ascii_of_nat 169) EmptyString).

Definition byte_tokenizer : Tokenizer :=
  {| vocab := [ entry "<unk>" 0; entry "<s>" 0; entry "</s>" 0 ]
              ++ map (fun n => entry (byte_piece n) 0) (seq 0 256)
              ++ [ entry " " (-1); entry "a" (-2); entry "b" (-3);
                   entry e_acute (-4); entry "ab" (-5); entry " a" (-6) ];
     max_token_length := 6 |}.

(** A text with a code point of two bytes, and what [encode] makes of it
    with BOS and EOS. *)
Definition cafe_text : string := ("a" ++ e_acute ++ "b")%string.

Definition cafe_tokens : list Z :=
  Eval vm_compute in
    match encode byte_tokenizer (Some cafe_text) 1 1 with
    | Ok tokens => tokens
    | _ => []
    end.

(** ** Vocabulary of the statements about [rmsnorm] and [forward] *)

(** The sum of the squares of a vector, added up from the left in binary32. *)
Definition sum_squares (x : list F32.t) : F32.t :=
  fold_left (fun ss v => F32.add ss (F32.mul v v)) x F32.zero.

(** [1.0f / sqrtf(ss / size + 1e-5f)] for the first [size] entries of [x]. *)
Definition rms_scale (x : list F32.t) (size : Z) : F32.t :=
  F32.div F32.one
    (F32.sqrtf
       (F32.add (F32.div (sum_squares (take (Z.to_nat size) x)) (F32.of_int size))
          F32.eps)).

(** The configurations on which none of the products of
    [memory_map_weights] leaves its type: the fields are [int]s and not
    negative, the [int] products fit 31 bits, and the [unsigned long long]
    products fit 64 bits. *)
Definition no_overflow (c : Config) : Prop :=
  0 < n_heads c <= INT_MAX /\ 0 <= n_kv_heads c <= INT_MAX
  /\ 0 <= n_layers c <= INT_MAX
  /\ 0 <= dim c <= INT_MAX /\ 0 <= hidden_dim c <= INT_MAX
  /\ 0 <= vocab_size c <= INT_MAX /\ 0 <= max_seq_len c <= INT_MAX
  /\ vocab_size c * dim c <= INT_MAX
  /\ n_kv_heads c * (dim c / n_heads c) <= INT_MAX
  /\ max_seq_len c * (dim c / n_heads c) <= INT_MAX
  /\ n_layers c * dim c * dim c < 2 ^ 64
  /\ n_layers c * dim c * hidden_dim c < 2 ^ 64
  /\ n_layers c * dim c * (n_kv_heads c * (dim c / n_heads c)) < 2 ^ 64.

(** The header of a checkpoint without query heads. *)
Definition headless_config : Config :=
  {| dim := 4; hidden_dim := 8; n_layers := 1; n_heads := 0; n_kv_heads := 1;
     vocab_size := 8; max_seq_len := 4 |}.

(** ** The tokenizer file *)

(** The [float] stored in four bytes of the file, from its bits: sign,
    eight bits of exponent, 23 bits of mantissa. *)
Definition float_of_bits (bits : Z) : F32.t :=
  let sign := Z.testbit bits 31 in
  let exponent := Z.land (Z.shiftr bits 23) 255 in
  let mantissa := Z.land bits (2 ^ 23 - 1) in
  if exponent =? 0 then
    if mantissa =? 0 then S754_zero sign
    else S754_finite sign (Z.to_pos mantissa) (-149)
  else if exponent =? 255 then
    if mantissa =? 0 then S754_infinity sign else S754_nan
  else S754_finite sign (Z.to_pos (mantissa + 2 ^ 23)) (exponent - 150).

(** A little-endian [unsigned int] of the file. *)
Definition uint_of_bytes (b0 b1 b2 b3 : byte) : Z :=
  byte_to_Z b0 + 2 ^ 8 * byte_to_Z b1
  + 2 ^ 16 * byte_to_Z b2 + 2 ^ 24 * byte_to_Z b3.

Definition float_of_bytes (b0 b1 b2 b3 : byte) : F32.t :=
  float_of_bits (uint_of_bytes b0 b1 b2 b3).

(** The C string in a buffer that ends in a NUL: the bytes before the first
    NUL. *)
Fixpoint c_string (buffer : list byte) : string :=
  match buffer with
  | [] => EmptyString
  | b :: rest =>
      if Byte.eqb b x00 then EmptyString
      else String (ascii_of_byte b) (c_string rest)
  end.

(** The loop of [build_tokenizer] over the entries, with [n] rounds left:
    a score, a length and the bytes of the piece for each.  The length is an
    [int]: for the greatest one [len + 1] overflows.  A call
    [fread(p, len, 1, file)] returns 1 only when [len] is not zero and the
    file has [len] more bytes.  A negative [len] turns into a size near 2^64
    in [fread], which then copies what is left of the file into a buffer that
    is too small. *)
Fixpoint read_vocab (n : nat) (file : list byte) : outcome (list vocab_entry) :=
  match n with
  | O => Ok []
  | S n' =>
      match file with
      | s0 :: s1 :: s2 :: s3 :: l0 :: l1 :: l2 :: l3 :: rest =>
          let len := int_of_bytes l0 l1 l2 l3 in
          if len =? INT_MAX then Fault BadCall
          else if len <? 0 then
            match rest with
            | [] => Exit EXIT_FAILURE
            | _ :: _ => Fault BadCall
            end
          else if (len =? 0) || (Z.of_nat (length rest) <? len)
          then Exit EXIT_FAILURE
          else
            do more <- read_vocab n' (drop (Z.to_nat len) rest);
            Ok ({| piece := c_string (take (Z.to_nat len) rest);
                   score := float_of_bytes s0 s1 s2 s3 |} :: more)
      | _ => Exit EXIT_FAILURE
      end
  end.

(** [build_tokenizer]; [file] is the contents of the tokenizer path, [None]
    when it cannot be opened.  [max_token_length] is an [unsigned int].  The
    calls of [malloc] are taken to succeed. *)
Definition build_tokenizer (file : option (list byte)) (vocab_size : Z)
    : outcome Tokenizer :=
  match file with
  | None => Exit EXIT_FAILURE
  | Some (b0 :: b1 :: b2 :: b3 :: rest) =>
      do v <- read_vocab (Z.to_nat vocab_size) rest;
      Ok {| vocab := v; max_token_length := uint_of_bytes b0 b1 b2 b3 |}
  | Some _ => Exit EXIT_FAILURE
  end.

(** A tokenizer file of four entries: [max_token_length] 5, then "<unk>",
    "<s>" and "</s>" with the score 0.0 and " " with the score -1.0. *)
Definition tiny_tokenizer_file : list byte :=
  [x05; x00; x00; x00]
  ++ [x00; x00; x00; x00] ++ [x05; x00; x00; x00] ++ [x3c; x75; x6e; x6b; x3e]
  ++ [x00; x00; x00; x00] ++ [x03; x00; x00; x00] ++ [x3c; x73; x3e]
  ++ [x00; x00; x00; x00] ++ [x04; x00; x00; x00] ++ [x3c; x2f; x73; x3e]
  ++ [x00; x00; x80; xbf] ++ [x01; x00; x00; x00] ++ [x20].

Definition tiny_file_tokenizer : Tokenizer :=
  {| vocab := [ entry "<unk>" 0; entry "<s>" 0; entry "</s>" 0; entry " " (-1) ];
     max_token_length := 5 |}.

(** The least number of bytes the entries of a vocabulary take in the file:
    a score, a length, and a piece of at least one byte each. *)
Definition entries_size (v : list vocab_entry) : nat :=
  fold_right (fun e n => (8 + Nat.max 1 (String.length (piece e)) + n)%nat) 0%nat v.

(** The file above with the bytes ff ff ff ff in front: the greatest
    [unsigned int] as [max_token_length]. *)
Definition long_token_file : list byte :=
  [xff; xff; xff; xff] ++ drop 4 tiny_tokenizer_file.

(** ** [encode] with its scratch buffer

    [str_buffer] has [max_token_length*2 +1 +2] chars, a sum computed in
    [unsigned int]; its [malloc] is taken to succeed.  The functions below
    are those of [encode] above with every write to the buffer checked
    against that size. *)

Definition str_buffer_size (t : Tokenizer) : Z :=
  (max_token_length t * 2 + 1 + 2) mod 2 ^ 32.

(** [str_buffer[i] = ...] *)
Definition buffer_write (size i : Z) : outcome unit :=
  if (0 <=? i) && (i <? size) then Ok tt else Fault (OutOfBounds i).

(** [sprintf(str_buffer, "%s%s", a, b)]: the chars of [s] and a NUL, written
    from the start of the buffer. *)
Definition sprintf (size : Z) (s : string) : outcome unit :=
  if Z.of_nat (String.length s) <? size then Ok tt
  else Fault (OutOfBounds size).

Fixpoint scan_text_checked (sorted : list TokenIndex) (size : Z) (text : string)
    (str_buffer : string) (tokens : list Z) : outcome (list Z) :=
  match text with
  | EmptyString => Ok tokens
  | String c rest =>
      let buffer0 := if is_continuation c then str_buffer else EmptyString in
      let str_len := Z.of_nat (String.length buffer0) in
      do _ <- buffer_write size str_len;
      do _ <- buffer_write size (str_len + 1);
      let buffer := (buffer0 ++ String c EmptyString)%string in
      let next := match rest with String c' _ => c' | EmptyString => Ascii.zero end in
      if is_continuation next
         && (Z.of_nat (String.length buffer) <? max_num_utf8_byte)
      then scan_text_checked sorted size rest buffer tokens
      else
        let id := str_lookup buffer sorted in
        let tokens' :=
          if negb (id =? -1) then tokens ++ [id]
          else tokens ++ map (fun b => byte_val b + 3) (list_ascii_of_string buffer) in
        scan_text_checked sorted size rest EmptyString tokens'
  end.

Fixpoint scan_pairs_checked (t : Tokenizer) (tokens : list Z) (i : Z) (b : best)
    : outcome best :=
  match tokens with
  | a :: ((c :: _) as rest) =>
      do ea <- vocab_at t a;
      do ec <- vocab_at t c;
      do _ <- sprintf (str_buffer_size t) (piece ea ++ piece ec);
      let id := str_lookup (piece ea ++ piece ec)%string (sorted_vocab t) in
      do b' <- (if id =? -1 then Ok b
                else do e <- vocab_at t id;
                     Ok (if F32.gt (score e) (best_score b)
                         then {| best_score := score e; best_id := id; best_idx := i |}
                         else b));
      scan_pairs_checked t rest (i + 1) b'
  | _ => Ok b
  end.

Definition merge_step_checked (t : Tokenizer) (tokens : list Z)
    : outcome (option (list Z)) :=
  do b <- scan_pairs_checked t tokens 0 no_best;
  Ok (if best_idx b =? -1 then None
      else Some (merge_pair tokens (Z.to_nat (best_idx b)) (best_id b))).

Fixpoint merge_loop_checked (fuel : nat) (t : Tokenizer) (tokens : list Z)
    (merges : nat) : option (outcome (list Z) * nat) :=
  match fuel with
  | O => None
  | S fuel' =>
      match merge_step_checked t tokens with
      | Ok None => Some (Ok tokens, merges)
      | Ok (Some tokens') => merge_loop_checked fuel' t tokens' (S merges)
      | Exit s => Some (Exit s, merges)
      | Fault f => Some (Fault f, merges)
      end
  end.

Definition encode_checked (t : Tokenizer) (text : option string) (bos eos : Z)
    : outcome (list Z) :=
  match text with
  | None => Exit EXIT_FAILURE
  | Some text =>
      do _ <- checked_alloc (tokenizer_vocab_size t);
      let tokens := if bos =? 0 then [] else [1] in
      let tokens :=
        match text with
        | EmptyString => tokens
        | String _ _ => tokens ++ [str_lookup " " (sorted_vocab t)]
        end in
      do tokens <- scan_text_checked (sorted_vocab t) (str_buffer_size t) text
                     EmptyString tokens;
      match merge_loop_checked (S (length tokens)) t tokens 0 with
      | Some (r, _) =>
          do tokens <- r;
          Ok (if eos =? 0 then tokens else tokens ++ [2])
      | None => Fault FuelExhausted
      end
  end.

(** The pieces fit the buffer as its size supposes: [max_token_length] is at
    least 1 and small enough for the size not to wrap, and no piece is
    longer. *)
Definition pieces_fit (t : Tokenizer) : Prop :=
  1 <= max_token_length t /\ max_token_length t * 2 + 3 < 2 ^ 32
  /\ Forall (fun e => Z.of_nat (String.length (piece e)) <= max_token_length t)
       (vocab t).

(** A vocabulary whose file understates the length of its pieces. *)
Definition understated_tokenizer : Tokenizer :=
  {| vocab := vocab byte_tokenizer; max_token_length := 1 |}.

(** ** The body of [forward]

    The statements of [forward] up to its closing brace, and the run state
    they leave.  The function has no [return] statement: what the caller of
    the C++ function receives, and does next, is not defined. *)
Definition forward_body (tr : Transformer) (token pos device : Z)
    : outcome RunState.t :=
  let p := config tr in
  let w := weights tr in
  let s := state tr in
  let dim := dim p in
  do kv_dim <- int_div (wrap32 (dim * n_kv_heads p)) (n_heads p);
  do kv_mul <- int_div (n_heads p) (n_kv_heads p);
  do head_size <- int_div dim (n_heads p);
  (* copy the token embedding into x *)
  let content_row := token_embedding_table w + wrap32 (token * dim) in
  if dim <? 0 then Fault BadCall
  else
    do x <- copy_row tr content_row (RunState.x s) 0 (Z.to_nat dim);
    (* forward all the layers *)
    do xb <- forward_layers tr x (RunState.xb s) dim device 0
               (Z.to_nat (wrap64 (n_layers p)));
    Ok {| RunState.x := x; RunState.xb := xb;
          RunState.xb2 := RunState.xb2 s;
          RunState.hb := RunState.hb s;
          RunState.hb2 := RunState.hb2 s;
          RunState.q := RunState.q s;
          RunState.att := RunState.att s;
          RunState.logits := RunState.logits s;
          RunState.key_cache := RunState.key_cache s;
          RunState.value_cache := RunState.value_cache s |}.
(** * Properties *)

(** The literals are the correctly rounded values of their decimal
    spellings. *)
Example F32_literals :
  F32.one = F32.of_int 1
  /\ F32.eps = F32.div (F32.of_int 1) (F32.of_int 100000)
  /\ F32.nine_tenths = F32.div (F32.of_int 9) (F32.of_int 10)
  /\ F32.minus_1e10 = F32.of_int (-10000000000).
Proof. repeat split; vm_compute; reflexivity. Qed.

(** *** Order facts about float comparison

    [SFcompare] orders the numbers that are not NaN; the lemmas below are
    proved by cases on the two or three operands. *)

Lemma F32_lt_trans a b c :
  F32.lt a b = true -> F32.lt b c = true -> F32.lt a c = true.
Proof.
  unfold F32.lt, SFltb, SFcompare.
  sf_split a; sf_split b; try discriminate; sf_split c;
    try discriminate; try reflexivity; intros H1 H2; sf_finish.
Qed.

Lemma F32_le_lt_trans a b c :
  F32.le a b = true -> F32.lt b c = true -> F32.lt a c = true.
Proof.
  unfold F32.le, F32.lt, SFltb, SFleb, SFcompare.
  sf_split a; sf_split b; try discriminate; sf_split c;
    try discriminate; try reflexivity; intros H1 H2; sf_finish.
Qed.

Lemma F32_lt_not_nan a b :
  F32.lt a b = true -> F32.is_nan a = false /\ F32.is_nan b = false.
Proof.
  unfold F32.lt, SFltb, SFcompare.
  sf_split a; sf_split b; try discriminate; auto.
Qed.

Lemma F32_not_lt_le a b :
  F32.is_nan a = false -> F32.is_nan b = false ->
  F32.lt a b = false -> F32.le b a = true.
Proof.
  unfold F32.le, F32.lt, SFltb, SFleb, SFcompare.
  sf_split a; sf_split b; try discriminate; try reflexivity;
    intros H0 H1 H2; sf_finish.
Qed.

Lemma F32_le_not_lt a b : F32.le a b = true -> F32.lt b a = false.
Proof.
  unfold F32.le, F32.lt, SFltb, SFleb, SFcompare.
  sf_split a; sf_split b; try discriminate; try reflexivity;
    intros H0; sf_finish.
Qed.

Lemma F32_not_le_lt a b :
  F32.is_nan a = false -> F32.is_nan b = false ->
  F32.le a b = false -> F32.lt b a = true.
Proof.
  unfold F32.le, F32.lt, SFltb, SFleb, SFcompare.
  sf_split a; sf_split b; try discriminate; try reflexivity;
    intros H0 H1 H2; sf_finish.
Qed.

Lemma F32_lt_irrefl a : F32.lt a a = false.
Proof.
  unfold F32.lt, SFltb, SFcompare.
  sf_split a; try reflexivity; sf_finish.
Qed.

Create HintDb f32 discriminated.
#[global] Hint Resolve F32_lt_trans F32_le_lt_trans F32_not_lt_le
  F32_le_not_lt F32_lt_irrefl : f32.
#[global] Hint Unfold F32.gt : f32.

(** ** [strcmp] is a total order on strings *)

Lemma byte_val_inj x y : byte_val x = byte_val y -> x = y.
Proof.
  unfold byte_val. intros H. apply N2Z.inj in H.
  rewrite <- (ascii_N_embedding x), <- (ascii_N_embedding y). now rewrite H.
Qed.

Lemma strcmp_eq a b : strcmp a b = Eq <-> a = b.
Proof.
  revert b. induction a as [|x a IH]; intros [|y b]; simpl; split;
    try discriminate; try reflexivity.
  - destruct (Z.compare_spec (byte_val x) (byte_val y)) as [E| |];
      try discriminate.
    intros H. apply IH in H. apply byte_val_inj in E. now subst.
  - intros H. injection H as -> ->. rewrite Z.compare_refl. now apply IH.
Qed.

Lemma strcmp_antisym a b : strcmp b a = CompOpp (strcmp a b).
Proof.
  revert b. induction a as [|x a IH]; intros [|y b]; simpl; try reflexivity.
  rewrite (Z.compare_antisym (byte_val x) (byte_val y)).
  destruct (byte_val x ?= byte_val y); simpl; auto.
Qed.

Lemma strcmp_lt_trans a b c :
  strcmp a b = Lt -> strcmp b c = Lt -> strcmp a c = Lt.
Proof.
  revert b c. induction a as [|x a IH]; intros [|y b] [|z c]; simpl;
    try discriminate; try reflexivity.
  destruct (Z.compare_spec (byte_val x) (byte_val y)) as [E1|L1|G1];
    destruct (Z.compare_spec (byte_val y) (byte_val z)) as [E2|L2|G2];
    try discriminate; intros H1 H2.
  - rewrite E1, E2, Z.compare_refl. eauto.
  - rewrite E1. now apply Z.compare_lt_iff in L2 as ->.
  - rewrite <- E2. now apply Z.compare_lt_iff in L1 as ->.
  - assert (L : byte_val x < byte_val z) by lia.
    now apply Z.compare_lt_iff in L as ->.
Qed.

Lemma strcmp_gt_lt a b : strcmp a b = Gt <-> strcmp b a = Lt.
Proof.
  rewrite (strcmp_antisym a b). destruct (strcmp a b); simpl; split; congruence.
Qed.

#[global] Instance token_le_total : Total token_le.
Proof.
  intros a b. unfold token_le, compare_tokens.
  rewrite (strcmp_antisym (str a) (str b)).
  destruct (strcmp (str a) (str b)); simpl; [left|left|right]; congruence.
Qed.

#[global] Instance token_le_trans : Transitive token_le.
Proof.
  intros a b c. unfold token_le, compare_tokens. intros H1 H2 H3.
  apply strcmp_gt_lt in H3.
  destruct (strcmp (str a) (str b)) eqn:E1; [| |congruence].
  - apply strcmp_eq in E1. rewrite E1 in H3. apply strcmp_gt_lt in H3. congruence.
  - destruct (strcmp (str b) (str c)) eqn:E2; [| |congruence].
    + apply strcmp_eq in E2. rewrite <- E2 in H3.
      apply strcmp_gt_lt in H3. congruence.
    + pose proof (strcmp_lt_trans _ _ _ E2 H3) as H.
      apply strcmp_gt_lt in H. congruence.
Qed.

(** ** The sorted index and the binary search *)

Lemma sorted_vocab_sorted t : StronglySorted token_le (sorted_vocab t).
Proof. apply StronglySorted_merge_sort; apply _. Qed.

Lemma sorted_vocab_perm t :
  sorted_vocab t ≡ₚ imap (fun i e => {| str := piece e; id := Z.of_nat i |}) (vocab t).
Proof. apply merge_sort_Permutation. Qed.

(** An entry of the index names a slot of the vocabulary and its piece. *)
Lemma sorted_vocab_elem t e :
  e ∈ sorted_vocab t <->
  exists i v, vocab t !! i = Some v /\ e = {| str := piece v; id := Z.of_nat i |}.
Proof.
  rewrite sorted_vocab_perm, list_elem_of_lookup. split.
  - intros [i H]. rewrite list_lookup_imap in H.
    destruct (vocab t !! i) as [v|] eqn:E; simpl in H; [|discriminate].
    injection H as <-. eauto.
  - intros (i & v & E & ->). exists i. now rewrite list_lookup_imap, E.
Qed.

Lemma bsearch_range_sound fuel key base lo hi e :
  bsearch_range fuel key base lo hi = Some e -> e ∈ base /\ str e = key.
Proof.
  revert lo hi. induction fuel as [|fuel IH]; intros lo hi;
    cbn [bsearch_range]; [done|].
  destruct (lo <? hi)%nat; [|done].
  destruct (base !! ((lo + hi) / 2)%nat) as [x|] eqn:E; [|done].
  destruct (strcmp key (str x)) eqn:C; eauto.
  intros H. injection H as <-. split.
  - eapply list_elem_of_lookup_2; eauto.
  - symmetry. now apply strcmp_eq.
Qed.

Lemma sorted_lookup_le base i j a b :
  StronglySorted token_le base -> (i < j)%nat ->
  base !! i = Some a -> base !! j = Some b -> token_le a b.
Proof.
  intros S. revert i j. induction S as [|x l S IH F]; intros i j Hij Ha Hb.
  - discriminate.
  - destruct i as [|i], j as [|j]; simpl in *; try lia.
    + injection Ha as <-. rewrite Forall_forall in F. apply F.
      eapply list_elem_of_lookup_2; eauto.
    + apply (IH i j); auto. lia.
Qed.

(** The search of a sorted array. *)
Section BinarySearch.

Context (base : list TokenIndex).
Hypothesis base_sorted : StronglySorted token_le base.

(** A key that occurs in the searched range is found. *)
Lemma bsearch_range_complete fuel key lo hi p e :
  (hi - lo <= fuel)%nat -> (hi <= length base)%nat ->
  (lo <= p < hi)%nat -> base !! p = Some e -> str e = key ->
  exists r, bsearch_range fuel key base lo hi = Some r.
Proof using base_sorted.
  revert lo hi.
  induction fuel as [|fuel IH]; intros lo hi Hf Hhi Hp He Hk; [lia|].
  cbn [bsearch_range]. destruct (Nat.ltb_spec lo hi) as [Hlt|]; [|lia].
  set (idx := ((lo + hi) / 2)%nat).
  assert (Hidx : (lo <= idx < hi)%nat).
  { unfold idx. split.
    - apply Nat.div_le_lower_bound; lia.
    - apply Nat.Div0.div_lt_upper_bound; lia. }
  destruct (lookup_lt_is_Some_2 base idx) as [x Hx]; [lia|].
  rewrite Hx. destruct (strcmp key (str x)) eqn:C; eauto.
  - (* key < base[idx]: the key lies to the left *)
    apply IH; auto; try lia.
    destruct (Nat.lt_ge_cases p idx) as [|Hge]; [lia|].
    exfalso. destruct (Nat.eq_dec p idx) as [->|Hne].
    + rewrite Hx in He. injection He as ->. rewrite <- Hk in C.
      assert (E : strcmp (str e) (str e) = Eq) by now apply strcmp_eq.
      congruence.
    + assert (L : token_le x e) by (apply (sorted_lookup_le base idx p); auto; lia).
      unfold token_le, compare_tokens in L. rewrite Hk in L.
      apply strcmp_gt_lt in C. congruence.
  - (* key > base[idx]: the key lies to the right *)
    apply IH; auto; try lia.
    destruct (Nat.lt_ge_cases idx p) as [|Hge]; [lia|].
    exfalso. destruct (Nat.eq_dec p idx) as [->|Hne].
    + rewrite Hx in He. injection He as ->. rewrite <- Hk in C.
      assert (E : strcmp (str e) (str e) = Eq) by now apply strcmp_eq.
      congruence.
    + assert (L : token_le e x) by (apply (sorted_lookup_le base p idx); auto; lia).
      unfold token_le, compare_tokens in L. rewrite Hk in L. congruence.
Qed.

End BinarySearch.

(** [str_lookup] on the index of a tokenizer: a result other than -1 is the
    index of a slot that holds the string. *)
Lemma str_lookup_found t s i :
  str_lookup s (sorted_vocab t) = i -> i <> -1 ->
  0 <= i < tokenizer_vocab_size t /\
  exists v, vocab t !! Z.to_nat i = Some v /\ piece v = s.
Proof.
  unfold str_lookup, bsearch. intros H Hi.
  destruct (bsearch_range _ _ _ _ _) as [r|] eqn:E; [|congruence].
  apply bsearch_range_sound in E as [Hin Hs].
  apply sorted_vocab_elem in Hin as (k & v & Hv & ->). simpl in *. subst i.
  pose proof (lookup_lt_Some _ _ _ Hv). unfold tokenizer_vocab_size.
  rewrite Nat2Z.id. split; [lia|]. eauto.
Qed.

(** [str_lookup] returns -1 exactly for the strings that are no piece of
    the vocabulary. *)
Lemma str_lookup_absent t s :
  str_lookup s (sorted_vocab t) = -1 <-> ~ (exists v, v ∈ vocab t /\ piece v = s).
Proof.
  split.
  - intros H (v & Hv & Hs).
    apply list_elem_of_lookup in Hv as [k Hk].
    assert (Hin : {| str := piece v; id := Z.of_nat k |} ∈ sorted_vocab t).
    { apply sorted_vocab_elem. eauto. }
    apply list_elem_of_lookup in Hin as [p Hp].
    pose proof (lookup_lt_Some _ _ _ Hp) as Hlt.
    destruct (bsearch_range_complete (sorted_vocab t) (sorted_vocab_sorted t)
                (length (sorted_vocab t)) s 0%nat (length (sorted_vocab t)) p
                {| str := piece v; id := Z.of_nat k |})
      as [r Hr]; auto; try lia.
    unfold str_lookup, bsearch in H. rewrite Hr in H.
    apply bsearch_range_sound in Hr as [Hin _].
    apply sorted_vocab_elem in Hin as (k' & v' & _ & ->). simpl in H. lia.
  - intros H. destruct (Z.eq_dec (str_lookup s (sorted_vocab t)) (-1)) as [|Hne]; auto.
    exfalso. apply H.
    destruct (str_lookup_found t s _ eq_refl Hne) as (_ & v & Hv & Hs).
    exists v. split; auto. eapply list_elem_of_lookup_2; eauto.
Qed.

(** ** The merge of a pair *)

(** The array after [k] rounds of the shifting loop started at [from]. *)
Lemma shift_rounds_lookup (l : list Z) (from k : nat) :
  (from + k < length l)%nat ->
  forall i : nat,
    fold_left
      (fun tk i => match tk !! S i with Some v => <[i := v]> tk | None => tk end)
      (seq from k) l !! i
    = if decide (from <= i < from + k)%nat then l !! S i else l !! i.
Proof.
  induction k as [|k IH]; intros Hk i.
  - simpl. case_decide; [lia|done].
  - rewrite seq_S, fold_left_app. cbn [fold_left].
    specialize (IH ltac:(lia)).
    set (l' := fold_left _ (seq from k) l) in *.
    destruct (lookup_lt_is_Some_2 l (S (from + k))) as [v Hv]; [lia|].
    rewrite (IH (S (from + k))). case_decide; [lia|]. rewrite Hv.
    assert (Hlen : length l' = length l).
    { apply Nat.le_antisymm.
      - apply Nat.nlt_ge. intros Hlt.
        pose proof (IH (length l)) as E. case_decide; [lia|].
        rewrite (lookup_ge_None_2 l (length l)) in E by lia.
        apply lookup_ge_None_1 in E. lia.
      - apply Nat.nlt_ge. intros Hlt.
        pose proof (IH (length l')) as E.
        rewrite (lookup_ge_None_2 l' (length l')) in E by lia.
        case_decide; symmetry in E; apply lookup_ge_None_1 in E; lia. }
    rewrite list_lookup_insert. case_decide as Hd.
    + destruct Hd as [<- _]. case_decide; [done|lia].
    + rewrite IH. repeat case_decide; try done; lia.
Qed.

Lemma shift_left_lookup (l : list Z) (from i : nat) :
  (from < length l)%nat ->
  shift_left l from (length l) !! i
  = if decide (from <= i < length l - 1)%nat then l !! S i else l !! i.
Proof.
  intros H. unfold shift_left. rewrite shift_rounds_lookup by lia.
  repeat case_decide; try done; lia.
Qed.

(** The merge written as the loop does it is the splice of the new id in
    place of the pair. *)
Lemma merge_pair_splice (tokens : list Z) (idx : nat) (new_id : Z) :
  (S idx < length tokens)%nat ->
  merge_pair tokens idx new_id = take idx tokens ++ new_id :: drop (idx + 2) tokens.
Proof.
  intros H. unfold merge_pair. apply list_eq. intros i.
  rewrite <- (length_insert tokens idx new_id) at 1 2.
  rewrite lookup_take, shift_left_lookup by (rewrite length_insert; lia).
  rewrite length_insert.
  rewrite lookup_app, lookup_take, length_take_le by lia.
  destruct (decide (i < idx)%nat) as [Hlt|Hge].
  - case_decide; [|lia]. case_decide; [lia|].
    rewrite list_lookup_insert_ne by lia.
    destruct (lookup_lt_is_Some_2 tokens i) as [x ->]; [lia|]. done.
  - destruct (decide (i = idx)) as [->|Hne].
    + rewrite Nat.sub_diag. simpl.
      case_decide; [|lia]. case_decide; [lia|].
      apply list_lookup_insert_eq. lia.
    + replace (i - idx)%nat with (S (i - idx - 1)) by lia. simpl.
      rewrite lookup_drop.
      case_decide.
      * case_decide; [|lia]. rewrite list_lookup_insert_ne by lia.
        f_equal. lia.
      * symmetry. apply lookup_ge_None_2. lia.
Qed.

Lemma merge_pair_length (tokens : list Z) (idx : nat) (new_id : Z) :
  (S idx < length tokens)%nat ->
  length (merge_pair tokens idx new_id) = (length tokens - 1)%nat.
Proof.
  intros H. rewrite merge_pair_splice by done.
  rewrite length_app, length_take_le by lia. simpl. rewrite length_drop. lia.
Qed.

(** ** The scan for the best pair *)

Lemma vocab_at_str_lookup t s :
  str_lookup s (sorted_vocab t) <> -1 ->
  exists e, vocab_at t (str_lookup s (sorted_vocab t)) = Ok e /\ piece e = s.
Proof.
  intros H. destruct (str_lookup_found t s _ eq_refl H) as ([H0 H1] & v & Hv & Hs).
  exists v. split; [|done]. unfold vocab_at.
  apply Z.leb_le in H0. apply Z.ltb_lt in H1. now rewrite H0, H1, Hv.
Qed.

Lemma vocab_at_not_exit t i s : vocab_at t i <> Exit s.
Proof.
  unfold vocab_at. destruct (_ && _); [|done]. destruct (_ !! _); done.
Qed.

Lemma drop_cons_inv (l : list Z) (i : nat) x xs :
  drop i l = x :: xs -> l !! i = Some x /\ drop (S i) l = xs.
Proof.
  intros H. split.
  - rewrite <- (Nat.add_0_r i), <- lookup_drop, H. done.
  - replace (S i) with (i + 1)%nat by lia. rewrite <- drop_drop, H. done.
Qed.

Lemma pair_id_short t (tokens : list Z) j :
  (length tokens <= S j)%nat -> pair_id t tokens j = None.
Proof.
  intros H. unfold pair_id. rewrite (lookup_ge_None_2 tokens (S j)) by lia.
  destruct (tokens !! j); done.
Qed.

Lemma scan_inv_init t tokens : scan_inv t tokens 0 no_best.
Proof. left. repeat split; intros; lia. Qed.

Lemma scan_pairs_cons t a c rest i b :
  scan_pairs t (a :: c :: rest) i b =
  (do ea <- vocab_at t a;
   do ec <- vocab_at t c;
   let id := str_lookup (piece ea ++ piece ec)%string (sorted_vocab t) in
   do b' <- (if id =? -1 then Ok b
             else do e <- vocab_at t id;
                  Ok (if F32.gt (score e) (best_score b)
                      then {| best_score := score e; best_id := id; best_idx := i |}
                      else b));
   scan_pairs t (c :: rest) (i + 1) b').
Proof. reflexivity. Qed.

(** The inner loop maintains [scan_inv]. *)
Lemma scan_pairs_inv t all tokens :
  forall (i : nat) (b b' : best),
    drop i all = tokens ->
    scan_inv t all i b ->
    scan_pairs t tokens (Z.of_nat i) b = Ok b' ->
    scan_inv t all (length all) b'.
Proof.
  induction tokens as [|a rest IH]; intros i b b' Hd Hinv Hs.
  { (* no token left *)
    simpl in Hs. injection Hs as <-.
    assert (Hlen : (length all <= i)%nat).
    { apply Nat.nlt_ge. intros Hlt.
      assert (L : length (drop i all) = 0%nat) by now rewrite Hd.
      rewrite length_drop in L. lia. }
    destruct Hinv as [(H1 & H2 & H3)|(i0 & Hi0 & H1 & H2 & H3 & H4 & H5 & H6)].
    - left. repeat split; try done. intros j id Hj Hk. apply (H3 j); [lia|done].
    - right. exists i0. repeat split; try done.
      + apply Nat.nle_gt. intros Hle.
        rewrite pair_id_short in H2 by lia. done.
      + intros j id Hj Hk. apply (H5 j); [lia|done]. }
  destruct rest as [|c rest].
  { (* one token left: no pair at [i] or beyond *)
    simpl in Hs. injection Hs as <-.
    assert (Hlen : length all = S i).
    { assert (L : length (drop i all) = 1%nat) by now rewrite Hd.
      rewrite length_drop in L. lia. }
    assert (Hno : forall j, (i <= j)%nat -> pair_id t all j = None).
    { intros j Hj. apply pair_id_short. lia. }
    destruct Hinv as [(H1 & H2 & H3)|(i0 & Hi0 & H1 & H2 & H3 & H4 & H5 & H6)].
    - left. repeat split; try done. intros j id _ Hj.
      destruct (Nat.lt_ge_cases j i) as [Hlt|Hge]; [eauto|].
      rewrite Hno in Hj by done. done.
    - right. exists i0. repeat split; try done; try lia.
      intros j id _ Hj.
      destruct (Nat.lt_ge_cases j i) as [Hlt|Hge]; [eauto|].
      rewrite Hno in Hj by done. done. }
  (* the pair (a, c) at position i *)
  apply drop_cons_inv in Hd as [Ha Hd].
  pose proof Hd as Hd'. apply drop_cons_inv in Hd' as [Hc _].
  rewrite scan_pairs_cons in Hs.
  destruct (vocab_at t a) as [ea| |] eqn:Ea; try done.
  destruct (vocab_at t c) as [ec| |] eqn:Ec; try done.
  cbn [bind] in Hs.
  set (id := str_lookup (piece ea ++ piece ec) (sorted_vocab t)) in *.
  assert (Hpair : pair_id t all i = if id =? -1 then None else Some id).
  { unfold pair_id. rewrite Ha, Hc, Ea, Ec. reflexivity. }
  destruct (Z.eqb_spec id (-1)) as [Hid|Hid].
  { (* the concatenation is no piece: nothing changes *)
    replace (Z.of_nat i + 1) with (Z.of_nat (S i)) in Hs by lia.
    apply (IH (S i) b b' Hd); [|done].
    destruct Hinv as [(H1 & H2 & H3)|(i0 & Hi0 & H1 & H2 & H3 & H4 & H5 & H6)].
    - left. repeat split; try done. intros j k Hj Hk.
      destruct (decide (j = i)) as [->|]; [congruence|]. apply (H3 j); [lia|done].
    - right. exists i0. repeat split; try done; try lia.
      intros j k Hj Hk.
      destruct (decide (j = i)) as [->|]; [congruence|]. apply (H5 j); [lia|done]. }
  destruct (vocab_at_str_lookup t _ Hid) as (e & He & _). fold id in He.
  rewrite He in Hs. cbn [bind] in Hs.
  assert (Hsc : score_of t id = score e) by (unfold score_of; now rewrite He).
  replace (Z.of_nat i + 1) with (Z.of_nat (S i)) in Hs by lia.
  destruct (F32.gt (score e) (best_score b)) eqn:Hgt.
  - (* a strictly better pair: it becomes the best *)
    eapply (IH (S i)); [exact Hd| |exact Hs].
    right. exists i. cbn [best_idx best_id best_score].
    rewrite Hsc.
    destruct Hinv as [(H1 & H2 & H3)|(i0 & Hi0 & H1 & H2 & H3 & H4 & H5 & H6)].
    + rewrite H2 in Hgt.
      repeat split; try done; try lia.
      * intros j k Hj Hk. destruct (decide (j = i)) as [->|].
        -- rewrite Hpair in Hk. injection Hk as <-. rewrite Hsc.
           apply F32_lt_irrefl.
        -- destruct (F32.gt (score_of t k) (score e)) eqn:G; [|done].
           assert (F32.gt (score_of t k) F32.minus_1e10 = true)
             by (unfold F32.gt in *; eauto with f32).
           rewrite (H3 j k) in H; [done|lia|done].
      * intros j k Hj Hk G. rewrite (H3 j k) in G; [done|lia|done].
    + repeat split; try done; try lia.
      * unfold F32.gt in *. eauto with f32.
      * intros j k Hj Hk. destruct (decide (j = i)) as [->|].
        -- rewrite Hpair in Hk. injection Hk as <-. rewrite Hsc.
           apply F32_lt_irrefl.
        -- destruct (F32.gt (score_of t k) (score e)) eqn:G; [|done].
           assert (F32.gt (score_of t k) (best_score b) = true)
             by (unfold F32.gt in *; eauto with f32).
           rewrite (H5 j k) in H; [done|lia|done].
      * intros j k Hj Hk G.
        apply (F32_le_lt_trans _ (best_score b)); [|exact Hgt].
        apply F32_not_lt_le.
        -- apply F32_lt_not_nan in H4. tauto.
        -- apply F32_lt_not_nan in G. tauto.
        -- apply (H5 j k); [lia|done].
  - (* not better: the best stays *)
    apply (IH (S i) b b' Hd); [|exact Hs].
    destruct Hinv as [(H1 & H2 & H3)|(i0 & Hi0 & H1 & H2 & H3 & H4 & H5 & H6)].
    + left. repeat split; try done. intros j k Hj Hk.
      destruct (decide (j = i)) as [->|]; [|apply (H3 j); [lia|done]].
      rewrite Hpair in Hk. injection Hk as <-. rewrite Hsc, <- H2. done.
    + right. exists i0. repeat split; try done; try lia.
      intros j k Hj Hk.
      destruct (decide (j = i)) as [->|]; [|apply (H5 j); [lia|done]].
      rewrite Hpair in Hk. injection Hk as <-. rewrite Hsc. done.
Qed.

(** The inner loop never calls [exit], and it faults only on a token that
    does not index the vocabulary. *)
Lemma scan_pairs_not_ok t tokens :
  forall i b,
    match scan_pairs t tokens i b with
    | Ok _ => True
    | Exit _ => False
    | Fault f => exists a, a ∈ tokens /\ vocab_at t a = Fault f
    end.
Proof.
  induction tokens as [|a rest IH]; intros i b; [done|].
  destruct rest as [|c rest]; [done|].
  rewrite scan_pairs_cons.
  destruct (vocab_at t a) as [ea|s|f] eqn:Ea; cbn [bind].
  2: { now apply vocab_at_not_exit in Ea. }
  2: { exists a. split; [left|done]. }
  destruct (vocab_at t c) as [ec|s|f] eqn:Ec; cbn [bind].
  2: { now apply vocab_at_not_exit in Ec. }
  2: { exists c. split; [right; left|done]. }
  set (id := str_lookup _ _).
  assert (Hb : exists b', (if id =? -1 then Ok b
             else do e <- vocab_at t id;
                  Ok (if F32.gt (score e) (best_score b)
                      then {| best_score := score e; best_id := id; best_idx := i |}
                      else b)) = Ok b').
  { destruct (Z.eqb_spec id (-1)) as [|Hid]; [eauto|].
    destruct (vocab_at_str_lookup t _ Hid) as (e & He & _). fold id in He.
    rewrite He. cbn [bind]. eauto. }
  destruct Hb as [b' ->]. cbn [bind].
  specialize (IH (i + 1) b').
  destruct (scan_pairs t (c :: rest) (i + 1) b') as [|s|f]; try done.
  destruct IH as (x & Hx & Hf). exists x. split; [right|]; done.
Qed.

Lemma scan_pairs_result t tokens b :
  scan_pairs t tokens 0 no_best = Ok b -> scan_inv t tokens (length tokens) b.
Proof.
  intros H. apply (scan_pairs_inv t tokens tokens 0%nat no_best b); try done.
  apply scan_inv_init.
Qed.

(** What a pair that resolves is: two tokens of the vocabulary whose
    concatenated pieces are the piece of slot [i]. *)
Lemma pair_id_Some t tokens j i :
  pair_id t tokens j = Some i <->
  exists a c ea ec,
    tokens !! j = Some a /\ tokens !! S j = Some c /\
    vocab_at t a = Ok ea /\ vocab_at t c = Ok ec /\
    str_lookup (piece ea ++ piece ec) (sorted_vocab t) = i /\ i <> -1.
Proof.
  unfold pair_id. split.
  - destruct (tokens !! j) as [a|]; [|done].
    destruct (tokens !! S j) as [c|]; [|done].
    destruct (vocab_at t a) as [ea| |] eqn:Ea; try done.
    destruct (vocab_at t c) as [ec| |] eqn:Ec; try done.
    destruct (Z.eqb_spec (str_lookup (piece ea ++ piece ec) (sorted_vocab t)) (-1));
      [done|].
    intros H. injection H as <-. exists a, c, ea, ec. repeat split; done.
  - intros (a & c & ea & ec & -> & -> & -> & -> & <- & Hne).
    destruct (Z.eqb_spec (str_lookup (piece ea ++ piece ec) (sorted_vocab t)) (-1));
      done.
Qed.

(** A pair of vocabulary tokens resolves exactly when the concatenation of
    the two pieces is a piece of the vocabulary. *)
Lemma pair_id_in_vocab t tokens j a c ea ec :
  tokens !! j = Some a -> tokens !! S j = Some c ->
  vocab_at t a = Ok ea -> vocab_at t c = Ok ec ->
  (exists i, pair_id t tokens j = Some i) <->
  (exists v, v ∈ vocab t /\ piece v = (piece ea ++ piece ec)%string).
Proof.
  intros Ha Hc Ea Ec. unfold pair_id. rewrite Ha, Hc, Ea, Ec.
  destruct (Z.eqb_spec (str_lookup (piece ea ++ piece ec) (sorted_vocab t)) (-1))
    as [E|E].
  - apply str_lookup_absent in E. split; [intros [? ?]; done|done].
  - split; [|eauto]. intros _.
    destruct (Z.eq_dec (str_lookup (piece ea ++ piece ec) (sorted_vocab t)) (-1));
      [done|].
    destruct (str_lookup_found t _ _ eq_refl E) as (_ & v & Hv & Hs).
    exists v. split; [eapply list_elem_of_lookup_2; eauto|done].
Qed.

(** ** The merge loop *)

(** A pass that merges found its pair inside the array. *)
Lemma merge_step_merges t tokens tokens' :
  merge_step t tokens = Ok (Some tokens') ->
  exists (idx : nat) (b : best),
    scan_pairs t tokens 0 no_best = Ok b /\ best_idx b = Z.of_nat idx /\
    pair_id t tokens idx = Some (best_id b) /\
    (S idx < length tokens)%nat /\
    tokens' = merge_pair tokens idx (best_id b).
Proof.
  unfold merge_step. intros H.
  destruct (scan_pairs t tokens 0 no_best) as [b| |] eqn:E; try done.
  cbn [bind] in H. destruct (Z.eqb_spec (best_idx b) (-1)) as [|Hne]; [done|].
  injection H as <-.
  destruct (scan_pairs_result t tokens b E)
    as [(H1 & _)|(i0 & Hi0 & H1 & H2 & _)]; [done|].
  exists i0, b. rewrite H1, Nat2Z.id. repeat split; try done.
  apply Nat.nle_gt. intros Hle. rewrite pair_id_short in H2 by lia. done.
Qed.

Lemma merge_step_length t tokens tokens' :
  merge_step t tokens = Ok (Some tokens') ->
  (2 <= length tokens)%nat /\ length tokens' = (length tokens - 1)%nat.
Proof.
  intros H. destruct (merge_step_merges _ _ _ H) as (idx & b & _ & _ & _ & Hl & ->).
  split; [lia|]. now apply merge_pair_length.
Qed.

Lemma merge_step_no_exit t tokens s : merge_step t tokens <> Exit s.
Proof.
  unfold merge_step. pose proof (scan_pairs_not_ok t tokens 0 no_best) as H.
  destruct (scan_pairs t tokens 0 no_best); done.
Qed.

(** With more fuel than tokens the loop reaches its [break] (or a fault),
    after at most [length tokens - 1] merges, each of which shortens the
    array by one. *)
Lemma merge_loop_bound fuel :
  forall t tokens m,
    (length tokens < fuel)%nat ->
    exists r m',
      merge_loop fuel t tokens m = Some (r, m') /\
      (m <= m' <= m + (length tokens - 1))%nat /\
      (forall tokens', r = Ok tokens' ->
         (length tokens' + (m' - m))%nat = length tokens) /\
      (forall s, r <> Exit s).
Proof.
  induction fuel as [|fuel IH]; intros t tokens m Hf; [lia|].
  cbn [merge_loop].
  destruct (merge_step t tokens) as [[tokens'|]|s|f] eqn:E.
  - destruct (merge_step_length _ _ _ E) as [H2 Hl].
    destruct (IH t tokens' (S m)) as (r & m' & -> & Hm & Hr & Hx); [lia|].
    exists r, m'. split; [done|]. split; [lia|]. split; [|done].
    intros tk Htk. specialize (Hr tk Htk). lia.
  - exists (Ok tokens), m. split; [done|]. split; [lia|]. split; [|done].
    intros tk Htk. injection Htk as <-. lia.
  - now apply merge_step_no_exit in E.
  - exists (Fault f), m. split; [done|]. split; [lia|]. done.
Qed.

(** More fuel does not change a result. *)
Lemma merge_loop_more_fuel fuel extra :
  forall t tokens m x,
    merge_loop fuel t tokens m = Some x ->
    merge_loop (fuel + extra) t tokens m = Some x.
Proof.
  induction fuel as [|fuel IH]; intros t tokens m x H; [done|].
  cbn [Nat.add merge_loop] in *.
  destruct (merge_step t tokens) as [[tokens'|]|s|f]; auto.
Qed.

(** C5 (amended).  One pass of the merge loop of [encode]: among the
    adjacent pairs whose concatenated pieces are a piece of the vocabulary
    with a score strictly above -1e10, the pass picks the pair of the highest
    score, the leftmost one of that score, replaces it by the id of the
    concatenation and shifts the rest of the array left by one; the loop
    breaks when no pair resolves to a score above -1e10.  The pass faults only
    on a token that does not index the vocabulary. *)
Theorem merge_step_picks_best (t : Tokenizer) (tokens : list Z) :
  match merge_step t tokens with
  | Ok None =>
      forall j i, pair_id t tokens j = Some i ->
        F32.gt (score_of t i) F32.minus_1e10 = false
  | Ok (Some tokens') =>
      exists (idx : nat) (new_id : Z),
        pair_id t tokens idx = Some new_id /\
        F32.gt (score_of t new_id) F32.minus_1e10 = true /\
        (forall j i, pair_id t tokens j = Some i ->
           F32.gt (score_of t i) (score_of t new_id) = false) /\
        (forall j i, (j < idx)%nat -> pair_id t tokens j = Some i ->
           F32.gt (score_of t i) F32.minus_1e10 = true ->
           F32.lt (score_of t i) (score_of t new_id) = true) /\
        tokens' = take idx tokens ++ new_id :: drop (idx + 2) tokens
  | Exit _ => False
  | Fault f => exists a, a ∈ tokens /\ vocab_at t a = Fault f
  end.
Proof.
  destruct (merge_step t tokens) as [[tokens'|]|s|f] eqn:E.
  - destruct (merge_step_merges _ _ _ E) as (idx & b & Hs & Hi & Hp & Hl & ->).
    destruct (scan_pairs_result t tokens b Hs)
      as [(H1 & _)|(i0 & Hi0 & H1 & H2 & H3 & H4 & H5 & H6)]; [lia|].
    assert (i0 = idx) as -> by lia.
    exists idx, (best_id b). rewrite <- H3.
    repeat split; try done.
    + intros j i Hj. apply (H5 j); [|done].
      apply Nat.nle_gt. intros Hle. rewrite pair_id_short in Hj by lia. done.
    + now apply merge_pair_splice.
  - unfold merge_step in E.
    destruct (scan_pairs t tokens 0 no_best) as [b| |] eqn:Hs; try done.
    cbn [bind] in E. destruct (Z.eqb_spec (best_idx b) (-1)) as [Hb|]; [|done].
    destruct (scan_pairs_result t tokens b Hs)
      as [(H1 & H2 & H3)|(i0 & Hi0 & H1 & _)]; [|lia].
    intros j i Hj. apply (H3 j); [|done].
    apply Nat.nle_gt. intros Hle. rewrite pair_id_short in Hj by lia. done.
  - now apply merge_step_no_exit in E.
  - unfold merge_step in E.
    pose proof (scan_pairs_not_ok t tokens 0 no_best) as H.
    destruct (scan_pairs t tokens 0 no_best) as [b| |f'] eqn:Hs; try done.
    cbn [bind] in E. injection E as <-. done.
Qed.

(** C5, as the claim states it, fails: in [low_score_tokenizer] the pieces
    of the tokens 4 and 5 concatenate to the piece of slot 6, so the pair
    resolves and is the only candidate, yet the pass breaks without merging
    it, and [encode] returns the three unmerged tokens. *)
Lemma merge_ignores_low_scores :
  pair_id low_score_tokenizer [3; 4; 5] 1 = Some 6
  /\ merge_step low_score_tokenizer [3; 4; 5] = Ok None
  /\ encode low_score_tokenizer (Some "ab"%string) 0 0 = Ok [3; 4; 5].
Proof. repeat split; vm_compute; reflexivity. Qed.

Example merge_step_tiny :
  merge_step tiny_tokenizer [1; 3; 4; 5] = Ok (Some [1; 3; 6])
  /\ merge_loop 5 tiny_tokenizer [1; 3; 4; 5] 0 = Some (Ok [1; 8], 2%nat)
  /\ encode tiny_tokenizer (Some "ab"%string) 1 0 = Ok [1; 8]
  /\ encode tiny_tokenizer (Some "abab"%string) 1 1 = Ok [1; 8; 6; 2]
  /\ encode tiny_tokenizer None 1 1 = Exit EXIT_FAILURE.
Proof. repeat split; vm_compute; reflexivity. Qed.

(** C6.  For every text, the merge loop of [encode] terminates: there is
    one result that the loop reaches with every fuel above the initial token
    count (the loop ends in [break] or in a fault, never in [exit]); the
    number of merges is at most the initial token count;
    each merge shortens the array by exactly one token; and [encode] is this
    loop, run after the allocation of the index and followed by the optional
    EOS. *)
Theorem encode_merge_loop_terminates (t : Tokenizer) (text : string)
    (bos eos : Z) :
  let tokens := initial_tokens t text bos in
  exists r merges,
    (forall extra,
       merge_loop (S (length tokens) + extra) t tokens 0 = Some (r, merges))
    /\ (forall s, r <> Exit s)
    /\ (merges <= length tokens)%nat
    /\ (forall tokens', r = Ok tokens' ->
          (length tokens' + merges)%nat = length tokens)
    /\ (forall tk tk', merge_step t tk = Ok (Some tk') ->
          S (length tk') = length tk)
    /\ encode t (Some text) bos eos
       = (do _ <- checked_alloc (tokenizer_vocab_size t);
          do tk <- r;
          Ok (if eos =? 0 then tk else tk ++ [2])).
Proof.
  intros tokens.
  destruct (merge_loop_bound (S (length tokens)) t tokens 0)
    as (r & m & E & Hm & Hr & Hx); [lia|].
  exists r, m. repeat split.
  - intros extra. now apply merge_loop_more_fuel.
  - exact Hx.
  - lia.
  - intros tk Htk. specialize (Hr tk Htk). lia.
  - intros tk tk' H. apply merge_step_length in H. lia.
  - unfold encode. fold tokens. now rewrite E.
Qed.

(** ** The dummy prefix *)

(** The scan of the text only appends tokens, at least one for a text that
    is not empty. *)
Lemma scan_text_appends sorted text :
  forall buffer tokens,
    exists more,
      scan_text sorted text buffer tokens = tokens ++ more
      /\ (text <> EmptyString -> more <> []).
Proof.
  induction text as [|c rest IH]; intros buffer tokens.
  - exists []. split; [now rewrite app_nil_r|done].
  - cbn [scan_text].
    set (buf := ((if is_continuation c then buffer else EmptyString)
                   ++ String c EmptyString)%string).
    destruct (is_continuation _ && _) eqn:Hc.
    + destruct (IH buf tokens) as (more & -> & Hm).
      exists more. split; [done|]. intros _. apply Hm.
      destruct rest; [|done]. vm_compute in Hc. done.
    + set (tokens' := if negb (str_lookup buf sorted =? -1)
                      then tokens ++ [str_lookup buf sorted]
                      else tokens ++ map (fun b => byte_val b + 3)
                                         (list_ascii_of_string buf)).
      assert (Ht : exists x more0, tokens' = tokens ++ x :: more0).
      { unfold tokens'. destruct (negb _); [eauto|].
        assert (Hb : exists y s, buf = String y s).
        { unfold buf. destruct (if is_continuation c then buffer else EmptyString);
            simpl; eauto. }
        destruct Hb as (y & s & ->). simpl. eauto. }
      destruct Ht as (x & more0 & ->).
      destruct (IH EmptyString (tokens ++ x :: more0)) as (more & -> & _).
      exists (x :: more0 ++ more). split; [|done].
      now rewrite <- app_assoc.
Qed.

(** The inner loop faults as soon as the array holds two tokens or more and
    one of them does not index the vocabulary. *)
Lemma scan_pairs_bad_token t tokens :
  forall i b a,
    (2 <= length tokens)%nat -> a ∈ tokens -> is_ok (vocab_at t a) = false ->
    exists f, scan_pairs t tokens i b = Fault f.
Proof.
  induction tokens as [|x rest IH]; intros i b a Hl Ha Hbad; [simpl in Hl; lia|].
  destruct rest as [|c rest]; [simpl in Hl; lia|].
  rewrite scan_pairs_cons.
  destruct (vocab_at t x) as [ex|s|f] eqn:Ex; cbn [bind]; [| |eauto].
  2: { now apply vocab_at_not_exit in Ex. }
  destruct (vocab_at t c) as [ec|s|f] eqn:Ec; cbn [bind]; [| |eauto].
  2: { now apply vocab_at_not_exit in Ec. }
  set (id := str_lookup _ _).
  assert (Hb : exists b', (if id =? -1 then Ok b
             else do e <- vocab_at t id;
                  Ok (if F32.gt (score e) (best_score b)
                      then {| best_score := score e; best_id := id; best_idx := i |}
                      else b)) = Ok b').
  { destruct (Z.eqb_spec id (-1)) as [|Hid]; [eauto|].
    destruct (vocab_at_str_lookup t _ Hid) as (e & He & _). fold id in He.
    rewrite He. cbn [bind]. eauto. }
  destruct Hb as [b' ->]. cbn [bind].
  apply elem_of_cons in Ha as [->|Ha]; [rewrite Ex in Hbad; done|].
  apply elem_of_cons in Ha as [->|Ha]; [rewrite Ec in Hbad; done|].
  apply (IH (i + 1) b' a); [|right; done|done].
  destruct rest; [inversion Ha|simpl; lia].
Qed.

(** Without the piece " " in the vocabulary, [encode] stores the failed
    lookup into the token array and the merge loop then reads the vocabulary
    at -1: every text that is not empty ends in a fault. *)
Lemma encode_missing_space_faults t text bos eos :
  text <> EmptyString ->
  vocab t <> [] ->
  str_lookup " " (sorted_vocab t) = -1 ->
  -1 ∈ initial_tokens t text bos
  /\ exists f, encode t (Some text) bos eos = Fault f.
Proof.
  intros Htext Hvocab Hsp.
  assert (Hin : -1 ∈ initial_tokens t text bos
                /\ (2 <= length (initial_tokens t text bos))%nat).
  { unfold initial_tokens. destruct text as [|c rest]; [done|]. rewrite Hsp.
    destruct (scan_text_appends (sorted_vocab t) (String c rest) EmptyString
                ((if bos =? 0 then [] else [1]) ++ [-1])) as (more & -> & Hm).
    destruct more as [|x more]; [now destruct Hm|].
    split.
    - apply elem_of_app. left. apply elem_of_app. right. left.
    - rewrite !length_app. simpl. lia. }
  destruct Hin as [Hin Hlen]. split; [done|].
  assert (Ha : checked_alloc (tokenizer_vocab_size t) = Ok tt).
  { unfold checked_alloc, tokenizer_vocab_size.
    destruct (vocab t) as [|v0 vs]; [done|].
    destruct (Z.leb_spec (Z.of_nat (length (v0 :: vs))) 0) as [Hle|]; [|done].
    simpl in Hle. lia. }
  unfold encode. rewrite Ha. cbn [bind merge_loop]. unfold merge_step.
  destruct (scan_pairs_bad_token t _ 0 no_best (-1) Hlen Hin) as [f ->]; [done|].
  cbn [bind]. eauto.
Qed.

(** C7 at a failing input.  In a vocabulary without the piece " " the text
    "a" puts the id -1 in front of the token of "a", and [encode] ends in a
    read of [vocab[-1]]; so does the call [generate] makes, with BOS. *)
Theorem encode_stores_failed_dummy_prefix :
  str_lookup " " (sorted_vocab no_space_tokenizer) = -1
  /\ initial_tokens no_space_tokenizer "a" 0 = [-1; 3]
  /\ encode no_space_tokenizer (Some "a"%string) 0 0 = Fault (OutOfBounds (-1))
  /\ initial_tokens no_space_tokenizer "a" 1 = [1; -1; 3]
  /\ encode no_space_tokenizer (Some "a"%string) 1 0 = Fault (OutOfBounds (-1)).
Proof. repeat split; vm_compute; reflexivity. Qed.

(** ** Machine integers *)

Lemma wrap32_range z : INT_MIN <= wrap32 z <= INT_MAX.
Proof.
  unfold wrap32, INT_MIN, INT_MAX.
  pose proof (Z.mod_pos_bound (z + 2 ^ 31) (2 ^ 32) eq_refl). lia.
Qed.

Lemma wrap32_small z : INT_MIN <= z <= INT_MAX -> wrap32 z = z.
Proof.
  unfold wrap32, INT_MIN, INT_MAX. intros H.
  rewrite Z.mod_small; lia.
Qed.

Lemma abs_representable v :
  INT_MIN < v <= INT_MAX -> abs v = Z.abs v.
Proof.
  unfold abs, INT_MIN, INT_MAX. intros H.
  apply wrap32_small. unfold INT_MIN, INT_MAX. lia.
Qed.

(** ** The checkpoint loader *)

Lemma read_ints_range n :
  forall file l, read_ints n file = Some l ->
    Forall (fun z => INT_MIN <= z <= INT_MAX) l.
Proof.
  induction n as [|n IH]; intros file l H; simpl in H.
  - injection H as <-. constructor.
  - destruct file as [|b0 [|b1 [|b2 [|b3 rest]]]]; try done.
    destruct (read_ints n rest) as [l'|] eqn:E; [|done].
    injection H as <-. constructor; [apply wrap32_range|eauto].
Qed.

(** [read_ints] reads the first [4 * n] bytes, and fails exactly when the
    file is shorter. *)
Lemma read_ints_take n :
  forall file, read_ints n (take (4 * n) file) = read_ints n file.
Proof.
  induction n as [|n IH]; intros file; [done|].
  replace (4 * S n)%nat with (S (S (S (S (4 * n))))) by lia.
  destruct file as [|b0 [|b1 [|b2 [|b3 rest]]]]; try done.
  cbn [take read_ints firstn]. now rewrite IH.
Qed.

Lemma read_ints_None n :
  forall file, read_ints n file = None <-> (length file < 4 * n)%nat.
Proof.
  induction n as [|n IH]; intros file.
  - simpl. split; [done|lia].
  - destruct file as [|b0 [|b1 [|b2 [|b3 rest]]]]; cbn [read_ints length];
      try (split; [lia|done]).
    specialize (IH rest). destruct (read_ints n rest).
    + split; [done|]. intros H. assert (length rest < 4 * n)%nat by lia.
      apply IH in H0. done.
    + split; [|done]. intros _. assert (length rest < 4 * n)%nat by now apply IH.
      lia.
Qed.

Lemma read_ints_length n :
  forall file l, read_ints n file = Some l -> length l = n.
Proof.
  induction n as [|n IH]; intros file l H; simpl in H.
  - now injection H as <-.
  - destruct file as [|b0 [|b1 [|b2 [|b3 rest]]]]; try done.
    destruct (read_ints n rest) as [l'|] eqn:E; [|done].
    injection H as <-. simpl. f_equal. eauto.
Qed.

Lemma fread_Config_None file :
  fread_Config file = None <-> (length file < 28)%nat.
Proof.
  unfold fread_Config. rewrite <- (read_ints_None 7 file).
  destruct (read_ints 7 file) as [l|] eqn:E; [|done].
  apply read_ints_length in E.
  destruct l as [|? [|? [|? [|? [|? [|? [|? [|? ?]]]]]]]]; done.
Qed.

Lemma fread_Config_take file :
  fread_Config (take 28 file) = fread_Config file.
Proof.
  unfold fread_Config. change 28%nat with (4 * 7)%nat.
  now rewrite (read_ints_take 7 file).
Qed.

Lemma fread_Config_range file c :
  fread_Config file = Some c -> INT_MIN <= vocab_size c <= INT_MAX.
Proof.
  unfold fread_Config. destruct (read_ints 7 file) as [l|] eqn:E; [|done].
  pose proof (read_ints_range _ _ _ E) as R.
  destruct l as [|? [|? [|? [|? [|? [|v [|? [|? ?]]]]]]]]; try done.
  intros H. injection H as <-. simpl.
  repeat (apply Forall_cons in R as [? R]). done.
Qed.

Lemma memory_map_weights_no_exit c p sh s : memory_map_weights c p sh <> Exit s.
Proof.
  unfold memory_map_weights, int_div.
  destruct (_ =? 0); [done|]. destruct (_ && _); done.
Qed.

(** C4 (amended).  [read_checkpoint] fails, with [exit(EXIT_FAILURE)], when
    the file cannot be opened and when it is shorter than the 28-byte
    header, and in no other case: the length of the file is stored in
    [file_size] and never compared with the layout, so two files that agree
    on the header are treated alike whatever their lengths. *)
Theorem read_checkpoint_checks_header_only (bytes : list byte)
    (mem : Z -> F32.t) (tr : Transformer) :
  read_checkpoint None mem tr = Exit EXIT_FAILURE
  /\ ((length bytes < 28)%nat <->
        exists s, read_checkpoint (Some bytes) mem tr = Exit s)
  /\ ((length bytes < 28)%nat ->
        read_checkpoint (Some bytes) mem tr = Exit EXIT_FAILURE)
  /\ (forall t, read_checkpoint (Some bytes) mem tr = Ok t ->
        file_size t = Z.of_nat (length bytes))
  /\ (forall bytes',
        (28 <= length bytes)%nat -> (28 <= length bytes')%nat ->
        take 28 bytes' = take 28 bytes ->
        match read_checkpoint (Some bytes) mem tr,
              read_checkpoint (Some bytes') mem tr with
        | Ok t, Ok t' => config t' = config t /\ weights t' = weights t
        | Fault f, Fault f' => f' = f
        | _, _ => False
        end).
Proof.
  split; [done|].
  assert (Hshort : (length bytes < 28)%nat ->
                   read_checkpoint (Some bytes) mem tr = Exit EXIT_FAILURE).
  { intros H. apply fread_Config_None in H. unfold read_checkpoint. now rewrite H. }
  split; [|split; [done|split]].
  - split; [eauto|]. intros [s H]. apply Nat.nle_gt. intros Hle.
    unfold read_checkpoint in H.
    destruct (fread_Config bytes) as [c|] eqn:E.
    + destruct (memory_map_weights _ _ _) as [w|s'|f] eqn:M; try done.
      now apply memory_map_weights_no_exit in M.
    + apply fread_Config_None in E. lia.
  - unfold read_checkpoint. intros t H.
    destruct (fread_Config bytes) as [c|]; [|done].
    destruct (memory_map_weights _ _ _) as [w| |]; try done.
    cbn [bind] in H. injection H as <-. done.
  - intros bytes' H1 H2 Ht. unfold read_checkpoint.
    rewrite <- (fread_Config_take bytes), <- (fread_Config_take bytes'), Ht.
    destruct (fread_Config (take 28 bytes)) as [c|] eqn:E.
    + destruct (memory_map_weights _ _ _) as [w|s|f] eqn:M; cbn [bind]; try done.
      now apply memory_map_weights_no_exit in M.
    + rewrite fread_Config_take in E. apply fread_Config_None in E. lia.
Qed.

(** C4, as the claim states it, fails: a file that holds the header of
    [tiny_config] and nothing else is 28 bytes long, the layout of that
    configuration ends at byte 812, and the loader accepts the file. *)
Lemma header_only_checkpoint_loads :
  Z.of_nat (length (header_bytes tiny_config)) = 28
  /\ layout_bytes tiny_config 1 = Ok 812
  /\ is_ok (read_checkpoint (Some (header_bytes tiny_config)) all_ones
              blank_transformer) = true
  /\ (do t <- read_checkpoint (Some (header_bytes tiny_config)) all_ones
                blank_transformer;
      Ok (config t, file_size t)) = Ok (tiny_config, 28).
Proof. repeat split; vm_compute; reflexivity. Qed.

Example read_checkpoint_examples :
  read_checkpoint (Some (take 27 tiny_file)) all_ones blank_transformer
  = Exit EXIT_FAILURE
  /\ (do t <- read_checkpoint (Some tiny_file) all_ones blank_transformer;
      Ok (config t, file_size t, wcls (weights t))) = Ok (tiny_config, 812, 7)
  /\ layout_bytes tiny_config 1 = Ok (Z.of_nat (length tiny_file)).
Proof. repeat split; vm_compute; reflexivity. Qed.

(** C8.  The loader stores the absolute value of the vocabulary-size field
    of the header as the vocabulary size; when the field is positive [wcls]
    is the token-embedding table, and otherwise it is the address after the
    two skipped rotary tables that follow the final rmsnorm weights. *)
Theorem vocab_size_sign_selects_classifier (bytes : list byte)
    (mem : Z -> F32.t) (tr t : Transformer) (header : Config) :
  fread_Config bytes = Some header ->
  read_checkpoint (Some bytes) mem tr = Ok t ->
  vocab_size (config t) = abs (vocab_size header)
  /\ (INT_MIN < vocab_size header -> vocab_size (config t) = Z.abs (vocab_size header))
  /\ (0 < vocab_size header ->
        wcls (weights t) = token_embedding_table (weights t))
  /\ (vocab_size header <= 0 ->
        exists head_size,
          int_div (dim header) (n_heads header) = Ok head_size /\
          wcls (weights t)
          = rms_final_weight (weights t) + dim header
            + Z.quot (wrap32 (max_seq_len header * head_size)) 2
            + Z.quot (wrap32 (max_seq_len header * head_size)) 2).
Proof.
  intros Hh H. pose proof (fread_Config_range _ _ Hh) as R.
  unfold read_checkpoint in H. rewrite Hh in H.
  unfold memory_map_weights in H. cbn [dim n_heads] in H.
  destruct (int_div (dim header) (n_heads header)) as [hs| |] eqn:D; try done.
  cbn [bind] in H. injection H as <-. cbn.
  split; [done|]. split; [intros; apply abs_representable; lia|].
  split.
  - intros Hpos. apply Z.gtb_lt in Hpos. now rewrite Hpos.
  - intros Hneg. exists hs. split; [done|].
    destruct (Z.gtb_spec (vocab_size header) 0) as [|_]; [lia|]. cbn. lia.
Qed.

(** C8 at a concrete header: the one of [tiny_config_unshared], which stores
    the vocabulary size -8. *)
Lemma vocab_size_sign_witness :
  vocab_size (config tiny_unshared_loaded) = abs (vocab_size tiny_config_unshared)
  /\ (INT_MIN < vocab_size tiny_config_unshared ->
        vocab_size (config tiny_unshared_loaded)
        = Z.abs (vocab_size tiny_config_unshared))
  /\ (0 < vocab_size tiny_config_unshared ->
        wcls (weights tiny_unshared_loaded)
        = token_embedding_table (weights tiny_unshared_loaded))
  /\ (vocab_size tiny_config_unshared <= 0 ->
        exists head_size,
          int_div (dim tiny_config_unshared) (n_heads tiny_config_unshared)
          = Ok head_size /\
          wcls (weights tiny_unshared_loaded)
          = rms_final_weight (weights tiny_unshared_loaded)
            + dim tiny_config_unshared
            + Z.quot (wrap32 (max_seq_len tiny_config_unshared * head_size)) 2
            + Z.quot (wrap32 (max_seq_len tiny_config_unshared * head_size)) 2).
Proof.
  apply (vocab_size_sign_selects_classifier
           (header_bytes tiny_config_unshared) all_ones blank_transformer
           tiny_unshared_loaded tiny_config_unshared);
    vm_compute; reflexivity.
Defined.

(** ** [rmsnorm] and [forward] *)

(** C3 at a failing input.  On a CUDA device (the devices are numbered
    from 0; the CPU is -1), [rmsnorm] returns the output buffer as it received
    it, whatever the input.  On the input vector [1.0] with the weight [1.0]
    the sequential branch writes 16777132 * 2^-24 (about 0.999995) and the
    device branch leaves the 0.0 that was there. *)
Theorem rmsnorm_device_branch_writes_nothing :
  (forall (device : nat) o x weight size,
     rmsnorm o x weight size (Z.of_nat device) = Ok o)
  /\ rmsnorm [F32.zero] [F32.one] (fun _ => Ok F32.one) 1 cudaCpuDeviceId
     = Ok [S754_finite false 16777132 (-24)]
  /\ rmsnorm [F32.zero] [F32.one] (fun _ => Ok F32.one) 1 0 = Ok [F32.zero].
Proof.
  split; [|split; vm_compute; reflexivity].
  intros device o x weight size. unfold rmsnorm, cudaCpuDeviceId.
  destruct (Z.eqb_spec (Z.of_nat device) (-1)) as [H|_]; [lia|reflexivity].
Qed.

(** What a call of [forward] that returns leaves behind. *)
Lemma forward_frame tr token pos device tr' ret :
  forward tr token pos device = Ok (tr', ret) ->
  ret = None
  /\ config tr' = config tr /\ weights tr' = weights tr
  /\ RunState.logits (state tr') = RunState.logits (state tr)
  /\ RunState.key_cache (state tr') = RunState.key_cache (state tr)
  /\ RunState.value_cache (state tr') = RunState.value_cache (state tr)
  /\ RunState.q (state tr') = RunState.q (state tr)
  /\ RunState.att (state tr') = RunState.att (state tr)
  /\ RunState.hb (state tr') = RunState.hb (state tr)
  /\ RunState.hb2 (state tr') = RunState.hb2 (state tr)
  /\ RunState.xb2 (state tr') = RunState.xb2 (state tr).
Proof.
  unfold forward.
  destruct (int_div _ (n_heads (config tr))) as [kv_dim| |]; try done.
  destruct (int_div (n_heads (config tr)) _) as [kv_mul| |]; try done.
  destruct (int_div (dim (config tr)) _) as [head_size| |]; try done.
  cbn [bind]. destruct (dim (config tr) <? 0); [done|].
  destruct (copy_row _ _ _ _ _) as [x'| |]; try done. cbn [bind].
  destruct (forward_layers _ _ _ _ _ _ _) as [xb'| |]; try done. cbn [bind].
  intros H. injection H as <- <-. cbn. repeat split; reflexivity.
Qed.

(** C1 at a failing input.  A call of [forward] that returns hands no
    logits to its caller and has written nothing but [x] and [xb]: the
    logits buffer, the key and value caches, [q], [att], [hb], [hb2] and
    [xb2] are as before.  The call on [tiny_transformer] (token 0, position
    0, on the CPU) is such a call: it returns, with the embedding row in [x],
    its rmsnorm in [xb], and no result. *)
Theorem forward_returns_no_logits :
  (forall tr token pos device,
     match forward tr token pos device with
     | Ok (tr', ret) =>
         ret = None
         /\ RunState.logits (state tr') = RunState.logits (state tr)
         /\ RunState.key_cache (state tr') = RunState.key_cache (state tr)
         /\ RunState.value_cache (state tr') = RunState.value_cache (state tr)
         /\ RunState.q (state tr') = RunState.q (state tr)
         /\ RunState.att (state tr') = RunState.att (state tr)
         /\ RunState.hb (state tr') = RunState.hb (state tr)
         /\ RunState.hb2 (state tr') = RunState.hb2 (state tr)
         /\ RunState.xb2 (state tr') = RunState.xb2 (state tr)
     | _ => True
     end)
  /\ (do r <- forward tiny_transformer 0 0 cudaCpuDeviceId;
      Ok (snd r, RunState.x (state (fst r)), RunState.xb (state (fst r)),
          RunState.logits (state (fst r))))
     = Ok (None,
           repeat F32.one 4,
           repeat (S754_finite false 16777132 (-24)) 4,
           repeat F32.zero 8).
Proof.
  split; [|vm_compute; reflexivity].
  intros tr token pos device.
  destruct (forward tr token pos device) as [[tr' ret]| |] eqn:E; [|done|done].
  apply forward_frame in E. tauto.
Qed.

(** ** The generation loop *)

Lemma generate_loop_calls transformer prompt_tokens steps device :
  let g := generate_loop transformer prompt_tokens steps device in
  (forall token p, (token, p) ∈ forward_calls g -> p = 0 /\ 0 < steps)
  /\ (length (forward_calls g) <= 1)%nat
  /\ 0 <= pos g <= 1
  /\ ending g <> Ok tt
  /\ (steps <= 0 -> forward_calls g = [] /\ ending g = Fault BadFree).
Proof.
  unfold generate_loop. destruct (Z.ltb_spec 0 steps) as [Hs|Hs].
  - assert (Hc : forall token p : Z,
               (token, p) ∈ [(match prompt_tokens with tok :: _ => tok | [] => 0 end, 0)]
               -> p = 0 /\ 0 < steps).
    { intros token p Hin. apply list_elem_of_singleton in Hin.
      injection Hin as -> ->. done. }
    destruct (forward _ _ _ _) as [[tr' ret]|s|f]; cbn;
      (split; [exact Hc|]); repeat split; try done; lia.
  - cbn. split; [intros token p Hin; inversion Hin|].
    repeat split; try done; lia.
Qed.

Lemma generate_calls transformer tokenizer sampler prompt steps device :
  let g := generate transformer tokenizer sampler prompt steps device in
  (forall token p, (token, p) ∈ forward_calls g -> p = 0 /\ 0 < steps)
  /\ (length (forward_calls g) <= 1)%nat
  /\ 0 <= pos g <= 1
  /\ ending g <> Ok tt.
Proof.
  assert (Hnil : forall e,
            let g := {| forward_calls := []; next := None; pos := 0; ending := e |} in
            (forall token p, (token, p) ∈ forward_calls g -> p = 0 /\ 0 < steps)
            /\ (length (forward_calls g) <= 1)%nat
            /\ 0 <= pos g <= 1).
  { intros e. cbn. split; [intros token p Hin; inversion Hin|]. split; lia. }
  unfold generate.
  destruct (encode _ _ _ _) as [prompt_tokens|s|f]; cbv zeta.
  - destruct (_ <? 1).
    + destruct (Hnil (Exit EXIT_FAILURE)) as (H1 & H2 & H3).
    split; [exact H1|]. split; [exact H2|]. split; [exact H3|]. done.
    + pose proof (generate_loop_calls transformer prompt_tokens steps device)
        as H. cbv zeta in H. destruct H as (H1 & H2 & H3 & H4 & _).
      split; [exact H1|]. split; [exact H2|]. split; [exact H3|]. exact H4.
  - destruct (Hnil (Exit s)) as (H1 & H2 & H3).
    split; [exact H1|]. split; [exact H2|]. split; [exact H3|]. done.
  - destruct (Hnil (Fault f)) as (H1 & H2 & H3).
    split; [exact H1|]. split; [exact H2|]. split; [exact H3|]. done.
Qed.

(** C2 at a failing input.  Whatever the prompt and the step budget,
    [generate] calls [forward] at most once, never gets past position 1, and
    does not return normally.  With the prompt "ab" and a
    budget of 4 steps it calls [forward] on the BOS token at position 0,
    forces the next prompt token, and the process exits with status -1: no
    second step, and no sampling. *)
Theorem generate_exits_after_first_step :
  (forall transformer tokenizer sampler prompt steps device,
     (length (forward_calls
                (generate transformer tokenizer sampler prompt steps device)) <= 1)%nat
     /\ pos (generate transformer tokenizer sampler prompt steps device) <= 1
     /\ ending (generate transformer tokenizer sampler prompt steps device)
        <> Ok tt)
  /\ generate tiny_transformer tiny_tokenizer
       (build_sampler 8 F32.zero F32.nine_tenths 1) (Some "ab"%string) 4
       cudaCpuDeviceId
     = {| forward_calls := [(1, 0)]; next := Some 8; pos := 1;
          ending := Exit (-1) |}.
Proof.
  split; [|vm_compute; reflexivity].
  intros transformer tokenizer sampler prompt steps device.
  pose proof (generate_calls transformer tokenizer sampler prompt steps device)
    as H. cbv zeta in H. destruct H as (_ & H2 & H3 & H4).
  split; [exact H2|]. split; [lia|exact H4].
Qed.

(** ** [main] *)

Lemma wrap64_small_seed z : 0 < z < 2 ^ 64 -> wrap64 z = z.
Proof. intros H. unfold wrap64. apply Z.mod_small. lia. Qed.

Lemma main_setup_Ok now o checkpoint mem junk build_tokenizer run :
  main_setup now o checkpoint mem junk build_tokenizer = Ok run ->
  exists transformer tokenizer,
    build_transformer checkpoint mem junk blank_transformer = Ok transformer
    /\ build_tokenizer (vocab_size (config transformer)) = Ok tokenizer
    /\ Run.transformer run = transformer /\ Run.tokenizer run = tokenizer
    /\ Run.sampler run
       = build_sampler (vocab_size (config transformer))
           (Options.temperature (correct_parameters now o))
           (Options.topp (correct_parameters now o))
           (Options.rng_seed (correct_parameters now o))
    /\ Options.steps (Run.options run)
       = clamp_steps (Options.steps (correct_parameters now o))
           (max_seq_len (config transformer))
    /\ Options.device (Run.options run) = Options.device (correct_parameters now o)
    /\ Options.prompt (Run.options run) = Options.prompt o
    /\ Options.mode (Run.options run) = Options.mode o.
Proof.
  unfold main_setup.
  destruct (build_transformer _ _ _ _) as [transformer| |] eqn:Eb; try done.
  cbn [bind].
  destruct (build_tokenizer _) as [tokenizer| |] eqn:Ek; try done.
  cbn [bind]. intros [= <-]. exists transformer, tokenizer.
  split; [reflexivity|]. split; [exact Ek|]. repeat split; reflexivity.
Qed.

Lemma clamp_steps_le steps msl : clamp_steps steps msl <= msl.
Proof.
  unfold clamp_steps. destruct (Z.eqb_spec steps 0); cbn; [lia|].
  destruct (Z.gtb_spec steps msl); lia.
Qed.

(** C9 (amended).  [forward] has no check of the position: a call at
    position [max_seq_len], or at any other, does what the call at position
    0 does.  The positions are bounded by the callers instead: the budget
    [main] hands to [generate] is at most [max_seq_len], [generate] calls
    [forward] only at positions below its budget, and so every call of
    [forward] in a run of [main] is at a position below [max_seq_len]. *)
Theorem forward_positions_bounded_by_callers :
  (forall tr token p p' device,
     forward tr token p device = forward tr token p' device)
  /\ (forall steps msl, clamp_steps steps msl <= msl)
  /\ (forall transformer tokenizer sampler prompt steps device token p,
        (token, p) ∈ forward_calls
                       (generate transformer tokenizer sampler prompt steps device) ->
        0 <= p < steps)
  /\ (forall now o checkpoint mem junk build_tokenizer token p,
        (token, p) ∈ forward_calls
                       (main now o checkpoint mem junk build_tokenizer) ->
        exists transformer,
          build_transformer checkpoint mem junk blank_transformer = Ok transformer
          /\ 0 <= p < max_seq_len (config transformer)).
Proof.
  split; [reflexivity|]. split; [apply clamp_steps_le|].
  assert (G : forall transformer tokenizer sampler prompt steps device token p,
             (token, p) ∈ forward_calls
               (generate transformer tokenizer sampler prompt steps device) ->
             0 <= p < steps).
  { intros transformer tokenizer sampler prompt steps device token p Hin.
    pose proof (generate_calls transformer tokenizer sampler prompt steps device)
      as (H & _). destruct (H token p Hin) as [-> ?]. lia. }
  split; [exact G|].
  intros now o checkpoint mem junk build_tokenizer token p. unfold main.
  destruct (main_setup _ _ _ _ _ _) as [run|s|f] eqn:E;
    [|intros Hin; inversion Hin|intros Hin; inversion Hin].
  apply main_setup_Ok in E
    as (transformer & tokenizer & Hb & _ & Ht & _ & _ & Hs & _).
  cbv zeta. destruct (String.eqb _ _); [|intros Hin; inversion Hin].
  intros Hin. apply G in Hin. exists transformer. split; [done|].
  rewrite Hs in Hin.
  pose proof (clamp_steps_le
                (Options.steps (correct_parameters now o))
                (max_seq_len (config transformer))). lia.
Qed.

(** C9, as the claim states it, fails: [tiny_transformer] has
    [max_seq_len = 4], and the call of [forward] at position 4 returns as
    the call at position 0 does, with the key and value caches as they
    were. *)
Lemma forward_accepts_position_max_seq_len :
  max_seq_len (config tiny_transformer) = 4
  /\ is_ok (forward tiny_transformer 0 4 cudaCpuDeviceId) = true
  /\ (do r <- forward tiny_transformer 0 4 cudaCpuDeviceId;
      Ok (RunState.key_cache (state (fst r)), RunState.value_cache (state (fst r))))
     = Ok (RunState.key_cache (state tiny_transformer),
           RunState.value_cache (state tiny_transformer)).
Proof. repeat split; vm_compute; reflexivity. Qed.

(** C10 (amended).  The parameter correction of [main] rejects nothing:
    whether the setup of a run succeeds does not depend on the options, and
    the values [main] hands to [build_sampler] and to [generate] are the
    corrected ones.  A seed of 0 (the value without the option [-s]) becomes
    the current time; every other value of the seed is kept, and a negative
    [int] given to [-s] is kept as that number plus 2^64, which is what its
    conversion to [unsigned long long] gives.  A temperature below 0 becomes
    0; a top-p below 0, or 1 and above (that is, every number outside [0, 1)),
    becomes 0.9; steps below 0 become 0; and after the transformer is built,
    steps that are 0 or above [max_seq_len] become [max_seq_len].  Values in
    range are kept. *)
Theorem parameters_are_clamped (now : Z) (o : Options.t)
    (checkpoint : option (list byte)) (mem : Z -> F32.t) (junk : F32.t)
    (build_tokenizer : Z -> outcome Tokenizer) (run : Run.t) :
  main_setup now o checkpoint mem junk build_tokenizer = Ok run ->
  let c := correct_parameters now o in
  let msl := max_seq_len (config (Run.transformer run)) in
  (forall o', is_ok (main_setup now o' checkpoint mem junk build_tokenizer) = true)
  /\ Run.sampler run
     = build_sampler (vocab_size (config (Run.transformer run)))
         (Options.temperature c) (Options.topp c) (Options.rng_seed c)
  /\ Options.steps (Run.options run) = clamp_steps (Options.steps c) msl
  /\ main now o checkpoint mem junk build_tokenizer
     = (if String.eqb (Options.mode o) "generate"
        then generate (Run.transformer run) (Run.tokenizer run) (Run.sampler run)
               (Options.prompt o) (clamp_steps (Options.steps c) msl)
               (Options.device c)
        else {| forward_calls := []; next := None; pos := 0;
                ending := Exit EXIT_FAILURE |})
  /\ (Options.rng_seed o = 0 -> Options.rng_seed c = wrap64 now)
  /\ (0 < Options.rng_seed o < 2 ^ 64 -> Options.rng_seed c = Options.rng_seed o)
  /\ (INT_MIN <= Options.rng_seed o < 0 ->
      Options.rng_seed c = 2 ^ 64 + Options.rng_seed o)
  /\ (F32.lt (Options.temperature o) F32.zero = true ->
     Options.temperature c = F32.zero)
  /\ (F32.lt (Options.temperature o) F32.zero = false ->
     Options.temperature c = Options.temperature o)
  /\ (F32.lt (Options.topp o) F32.zero = true \/ F32.le F32.one (Options.topp o) = true ->
     Options.topp c = F32.nine_tenths)
  /\ (F32.is_nan (Options.topp o) = false ->
      F32.le F32.zero (Options.topp o) && F32.lt (Options.topp o) F32.one = false ->
     Options.topp c = F32.nine_tenths)
  /\ (F32.le F32.zero (Options.topp o) = true /\ F32.lt (Options.topp o) F32.one = true ->
     Options.topp c = Options.topp o)
  /\ (Options.steps o < 0 -> Options.steps c = 0)
  /\ (0 <= Options.steps o -> Options.steps c = Options.steps o)
  /\ (Options.steps c = 0 \/ Options.steps c > msl ->
     clamp_steps (Options.steps c) msl = msl)
  /\ (0 < Options.steps c <= msl ->
     clamp_steps (Options.steps c) msl = Options.steps c)
  /\ (Options.steps o <= 0 \/ Options.steps o > msl ->
     Options.steps (Run.options run) = msl)
  /\ (0 < Options.steps o <= msl ->
     Options.steps (Run.options run) = Options.steps o).
Proof.
  intros Hrun. cbv zeta.
  pose proof (main_setup_Ok _ _ _ _ _ _ _ Hrun)
    as (transformer & tokenizer & Hb & Hk & Ht & Htk & Hsam & Hst & Hdev & Hpr & Hmo).
  split.
  { intros o'. unfold main_setup. rewrite Hb. cbn [bind]. now rewrite Hk. }
  split; [now rewrite Hsam, Ht|]. split; [now rewrite Hst, Ht|].
  split.
  { unfold main. rewrite Hrun. cbv zeta. now rewrite Hmo, Hpr, Hst, Hdev, Ht. }
  rewrite Hst, Ht. clear.
  set (msl := max_seq_len (config transformer)). clearbody msl.
  unfold correct_parameters, clamp_steps. cbn.
  repeat split.
  - intros ->. reflexivity.
  - intros H. rewrite (wrap64_small_seed _ H).
    destruct (Z.leb_spec (Options.rng_seed o) 0); [lia|done].
  - intros H. unfold INT_MIN in H.
    assert (E : wrap64 (Options.rng_seed o) = 2 ^ 64 + Options.rng_seed o).
    { unfold wrap64. symmetry. apply (Z.mod_unique _ _ (-1)); lia. }
    rewrite E. destruct (Z.leb_spec (2 ^ 64 + Options.rng_seed o) 0); [lia|done].
  - intros ->. done.
  - intros ->. done.
  - intros [->| ->]; [done|]. now rewrite orb_true_r.
  - intros Hn H. apply andb_false_iff in H as [H|H].
    + apply F32_not_le_lt in H; [|done|done]. now rewrite H.
    + apply F32_not_lt_le in H; [|done|done]. rewrite H. now rewrite orb_true_r.
  - intros [H1 H2]. apply F32_le_not_lt in H1.
    assert (H3 : F32.le F32.one (Options.topp o) = false).
    { destruct (F32.le F32.one (Options.topp o)) eqn:E; [|done].
      apply F32_le_not_lt in E. congruence. }
    now rewrite H1, H3.
  - intros H. apply Z.ltb_lt in H. now rewrite H.
  - intros H. destruct (Z.ltb_spec (Options.steps o) 0); [lia|done].
  - intros [H|H].
    + rewrite H. done.
    + apply Z.gtb_gt in H. rewrite H. now rewrite orb_true_r.
  - intros [H1 H2].
    destruct (Z.eqb_spec (if Options.steps o <? 0 then 0 else Options.steps o) 0);
      [lia|].
    destruct (Z.gtb_spec (if Options.steps o <? 0 then 0 else Options.steps o) msl);
      [lia|done].
  - intros [H|H].
    + destruct (Z.ltb_spec (Options.steps o) 0); [done|].
      assert (Options.steps o = 0) as -> by lia. done.
    + destruct (Z.ltb_spec (Options.steps o) 0).
      * done.
      * apply Z.gtb_gt in H. rewrite H. now rewrite orb_true_r.
  - intros [H1 H2]. destruct (Z.ltb_spec (Options.steps o) 0); [lia|].
    destruct (Z.eqb_spec (Options.steps o) 0); [lia|].
    destruct (Z.gtb_spec (Options.steps o) msl); [lia|done].
Qed.

(** The run of the examples: the default options on the small checkpoint. *)
Lemma parameters_are_clamped_witness :
  exists run,
    main_setup 1700000000 default_options (Some tiny_file) all_ones F32.zero
      (fun _ => Ok tiny_tokenizer) = Ok run
    /\ Sampler.rng_state (Run.sampler run) = 1700000000
    /\ Options.steps (Run.options run) = 4.
Proof.
  eexists. split; [vm_compute; reflexivity|].
  match goal with |- context [Run.sampler ?r] =>
    destruct (parameters_are_clamped 1700000000 default_options (Some tiny_file)
                all_ones F32.zero (fun _ => Ok tiny_tokenizer) r)
      as (_ & _ & _ & _ & Hseed & _ & _ & _ & _ & _ & _ & _ & _ & _ & _ & _ & Hsteps & _)
  end.
  - vm_compute. reflexivity.
  - split; [vm_compute; reflexivity|]. apply Hsteps. right. vm_compute. reflexivity.
Defined.

(** C10, as the claim states it, fails: a seed that is not positive is
    replaced by the time only when it is 0.  With the option [-s -5] the
    variable holds 2^64 - 5, the test [rng_seed <= 0] is false, and that
    number is the state the sampler is built with. *)
Lemma negative_seed_is_kept :
  (-5 <=? 0) = true
  /\ wrap64 1700000000 = 1700000000
  /\ Options.rng_seed
       (correct_parameters 1700000000
          {| Options.temperature := F32.one; Options.topp := F32.nine_tenths;
             Options.steps := 256; Options.rng_seed := -5; Options.device := -1;
             Options.prompt := Some "ab"%string; Options.mode := "generate"%string |})
     = 18446744073709551611
  /\ (do run <- main_setup 1700000000
                  {| Options.temperature := F32.one; Options.topp := F32.nine_tenths;
                     Options.steps := 256; Options.rng_seed := -5;
                     Options.device := -1; Options.prompt := Some "ab"%string;
                     Options.mode := "generate"%string |}
                  (Some tiny_file) all_ones F32.zero (fun _ => Ok tiny_tokenizer);
      Ok (Sampler.rng_state (Run.sampler run))) = Ok 18446744073709551611.
Proof. repeat split; vm_compute; reflexivity. Qed.

Example correct_parameters_example :
  correct_parameters 1700000000
    {| Options.temperature := F32.of_int (-1); Options.topp := F32.of_int 2;
       Options.steps := -3; Options.rng_seed := 0; Options.device := -1;
       Options.prompt := None; Options.mode := "generate"%string |}
  = {| Options.temperature := F32.zero; Options.topp := F32.nine_tenths;
       Options.steps := 0; Options.rng_seed := 1700000000;
       Options.device := cudaCpuDeviceId;
       Options.prompt := None; Options.mode := "generate"%string |}
  /\ clamp_steps 0 4 = 4 /\ clamp_steps 7 4 = 4 /\ clamp_steps 3 4 = 3.
Proof. repeat split; vm_compute; reflexivity. Qed.

Example main_example :
  main 1700000000 default_options (Some tiny_file) all_ones F32.zero
    (fun _ => Ok tiny_tokenizer)
  = {| forward_calls := [(1, 0)]; next := Some 8; pos := 1;
       ending := Exit (-1) |}.
Proof. vm_compute; reflexivity. Qed.

(** * Further properties of the tokenizer *)

(** ** The scan of the text *)

Lemma scan_text_cons sorted c rest str_buffer tokens :
  scan_text sorted (String c rest) str_buffer tokens =
  let buffer := ((if is_continuation c then str_buffer else EmptyString)
                   ++ String c EmptyString)%string in
  if is_continuation
       (match rest with String c' _ => c' | EmptyString => Ascii.zero end)
     && (Z.of_nat (String.length buffer) <? max_num_utf8_byte)
  then scan_text sorted rest buffer tokens
  else scan_text sorted rest EmptyString
         (tokens ++ code_point_tokens sorted buffer).
Proof.
  cbn [scan_text]. unfold code_point_tokens.
  destruct (_ && _); [reflexivity|]. destruct (negb _); reflexivity.
Qed.

Lemma string_length_snoc s c :
  String.length (s ++ String c EmptyString) = S (String.length s).
Proof. induction s as [|x s IH]; simpl; [reflexivity|]. now rewrite IH. Qed.

Lemma string_app_snoc s c r :
  ((s ++ String c EmptyString) ++ r)%string = (s ++ String c r)%string.
Proof. induction s as [|x s IH]; simpl; [reflexivity|]. now rewrite IH. Qed.

(** A byte that does not continue a code point, followed by up to three
    continuation bytes (the buffer then holds four bytes at most), is looked
    up as one string. *)
Lemma scan_text_group sorted conts :
  forall c rest str_buffer tokens,
    Forall (fun d => is_continuation d = true) (list_ascii_of_string conts) ->
    (String.length (if is_continuation c then str_buffer else EmptyString)
     + 1 + String.length conts <= 4)%nat ->
    match rest with String d _ => is_continuation d = false | EmptyString => True end ->
    scan_text sorted (String c (conts ++ rest)) str_buffer tokens
    = scan_text sorted rest EmptyString
        (tokens ++ code_point_tokens sorted
                     ((if is_continuation c then str_buffer else EmptyString)
                        ++ String c conts)).
Proof.
  induction conts as [|d conts IH]; intros c rest str_buffer tokens Hc Hl Hr.
  - cbn [String.append]. rewrite scan_text_cons. cbv zeta.
    assert (Hn : is_continuation
                   (match rest with String c' _ => c' | EmptyString => Ascii.zero end)
                 = false).
    { destruct rest; [reflexivity|exact Hr]. }
    rewrite Hn. reflexivity.
  - cbn [list_ascii_of_string] in Hc. apply Forall_cons in Hc as [Hd Hc].
    cbn [String.append]. rewrite scan_text_cons. cbv zeta.
    rewrite Hd. cbn [andb]. cbn [String.length] in Hl.
    rewrite string_length_snoc.
    destruct (Z.ltb_spec (Z.of_nat (S (String.length
                (if is_continuation c then str_buffer else EmptyString))))
                max_num_utf8_byte) as [_|Hge].
    2: { unfold max_num_utf8_byte in Hge. lia. }
    rewrite IH; rewrite ?Hd; try done.
    + now rewrite string_app_snoc.
    + rewrite string_length_snoc. lia.
Qed.

(** ** Strings *)

Lemma string_app_assoc (a b c : string) :
  ((a ++ b) ++ c)%string = (a ++ (b ++ c))%string.
Proof. induction a as [|x a IH]; simpl; [reflexivity|]. now rewrite IH. Qed.

Lemma string_app_nil_r (a : string) : (a ++ EmptyString)%string = a.
Proof. induction a as [|x a IH]; simpl; [reflexivity|]. now rewrite IH. Qed.

Lemma list_ascii_length (s : string) :
  length (list_ascii_of_string s) = String.length s.
Proof. induction s as [|x s IH]; simpl; [reflexivity|]. now rewrite IH. Qed.

(** ** The scan of the text *)

Lemma code_point_tokens_length sorted s :
  s <> EmptyString ->
  (1 <= length (code_point_tokens sorted s) <= String.length s)%nat.
Proof.
  intros Hs. unfold code_point_tokens.
  assert (1 <= String.length s)%nat by (destruct s; [done|simpl; lia]).
  destruct (negb _); [simpl; lia|].
  rewrite length_map, list_ascii_length. lia.
Qed.

(** The scan stores at most one token for each byte it has read. *)
Lemma scan_text_length sorted text :
  forall str_buffer tokens,
    (length (scan_text sorted text str_buffer tokens)
     <= length tokens + String.length str_buffer + String.length text)%nat.
Proof.
  induction text as [|c rest IH]; intros str_buffer tokens.
  - simpl. lia.
  - rewrite scan_text_cons. cbv zeta.
    set (buffer := ((if is_continuation c then str_buffer else EmptyString)
                      ++ String c EmptyString)%string).
    assert (Hb : (String.length buffer <= S (String.length str_buffer))%nat).
    { unfold buffer. rewrite string_length_snoc.
      destruct (is_continuation c); simpl; lia. }
    assert (Hne : buffer <> EmptyString).
    { unfold buffer. destruct (if is_continuation c then str_buffer else EmptyString); done. }
    destruct (_ && _).
    + specialize (IH buffer tokens). cbn [String.length]. lia.
    + specialize (IH EmptyString (tokens ++ code_point_tokens sorted buffer)).
      rewrite length_app in IH.
      pose proof (code_point_tokens_length sorted buffer Hne).
      cbn [String.length] in *. lia.
Qed.

(** On a text without continuation bytes every byte is a code point of its
    own. *)
Lemma scan_text_no_continuation sorted text :
  forall str_buffer tokens,
    no_continuation text ->
    scan_text sorted text str_buffer tokens
    = tokens ++ flat_map (fun c => code_point_tokens sorted (String c EmptyString))
                  (list_ascii_of_string text).
Proof.
  induction text as [|c rest IH]; intros str_buffer tokens Hn.
  - simpl. now rewrite app_nil_r.
  - unfold no_continuation in Hn. cbn [list_ascii_of_string] in Hn.
    apply Forall_cons in Hn as [Hc Hrest].
    rewrite scan_text_cons. cbv zeta. rewrite Hc.
    assert (Hnext : is_continuation
                      (match rest with String c' _ => c' | EmptyString => Ascii.zero end)
                    = false).
    { destruct rest as [|d rest']; [reflexivity|].
      cbn [list_ascii_of_string] in Hrest. now apply Forall_cons in Hrest as [? _]. }
    rewrite Hnext. cbn [andb String.append].
    rewrite (IH _ _ Hrest). cbn [list_ascii_of_string flat_map].
    now rewrite <- app_assoc.
Qed.

Lemma code_point_tokens_single sorted c :
  length (code_point_tokens sorted (String c EmptyString)) = 1%nat.
Proof. unfold code_point_tokens. destruct (negb _); reflexivity. Qed.

Lemma flat_map_single_length sorted (l : list ascii) :
  length (flat_map (fun c => code_point_tokens sorted (String c EmptyString)) l)
  = length l.
Proof.
  induction l as [|c l IH]; [reflexivity|].
  cbn [flat_map]. rewrite length_app, code_point_tokens_single, IH. reflexivity.
Qed.

(** ** Spelling *)

Lemma spell_app t a b :
  spell t (a ++ b) = (spell t a ++ spell t b)%string.
Proof.
  induction a as [|i a IH]; [reflexivity|].
  cbn [app spell fold_right]. fold (spell t (a ++ b)). fold (spell t a).
  now rewrite IH, string_app_assoc.
Qed.

Lemma piece_of_ok t i e : vocab_at t i = Ok e -> piece_of t i = piece e.
Proof. unfold piece_of. now intros ->. Qed.

Lemma in_vocab_ok t i : in_vocab t i <-> exists e, vocab_at t i = Ok e.
Proof.
  unfold in_vocab, vocab_at, tokenizer_vocab_size. split.
  - intros [H0 H1].
    destruct (Z.leb_spec 0 i); [|lia]. destruct (Z.ltb_spec i (Z.of_nat (length (vocab t)))); [|lia].
    cbn [andb]. destruct (vocab t !! Z.to_nat i) as [e|] eqn:E; [eauto|].
    apply lookup_ge_None in E. lia.
  - intros [e H].
    destruct (Z.leb_spec 0 i); [|done].
    destruct (Z.ltb_spec i (Z.of_nat (length (vocab t)))); [|done]. lia.
Qed.

Lemma str_lookup_in_vocab t s :
  str_lookup s (sorted_vocab t) <> -1 ->
  in_vocab t (str_lookup s (sorted_vocab t)).
Proof. intros H. apply in_vocab_ok. destruct (vocab_at_str_lookup t s H) as (e & ? & _). eauto. Qed.

Lemma piece_of_str_lookup t s :
  str_lookup s (sorted_vocab t) <> -1 ->
  piece_of t (str_lookup s (sorted_vocab t)) = s.
Proof.
  intros H. destruct (vocab_at_str_lookup t s H) as (e & He & Hp).
  now rewrite (piece_of_ok _ _ _ He).
Qed.

(** What one merge does to the array, in terms of its pieces. *)
Lemma merge_step_shape t tokens tokens' :
  merge_step t tokens = Ok (Some tokens') ->
  exists (idx : nat) a c new_id,
    tokens = take idx tokens ++ a :: c :: drop (idx + 2) tokens
    /\ tokens' = take idx tokens ++ new_id :: drop (idx + 2) tokens
    /\ in_vocab t a /\ in_vocab t c /\ in_vocab t new_id
    /\ piece_of t new_id = (piece_of t a ++ piece_of t c)%string.
Proof.
  intros H. destruct (merge_step_merges _ _ _ H) as (idx & b & _ & _ & Hp & Hlen & ->).
  apply pair_id_Some in Hp as (a & c & ea & ec & Ha & Hc & Hea & Hec & Hid & Hne).
  exists idx, a, c, (best_id b). rewrite merge_pair_splice by exact Hlen.
  split.
  { rewrite <- (take_drop idx tokens) at 1. f_equal.
    rewrite (drop_S _ _ _ Ha). f_equal.
    rewrite (drop_S _ _ _ Hc). f_equal. f_equal. lia. }
  split; [reflexivity|].
  split; [apply in_vocab_ok; eauto|]. split; [apply in_vocab_ok; eauto|].
  rewrite <- Hid in *. split; [now apply str_lookup_in_vocab|].
  rewrite piece_of_str_lookup by exact Hne.
  now rewrite (piece_of_ok _ _ _ Hea), (piece_of_ok _ _ _ Hec).
Qed.

Lemma merge_step_spell t tokens tokens' :
  merge_step t tokens = Ok (Some tokens') -> spell t tokens' = spell t tokens.
Proof.
  intros H. destruct (merge_step_shape _ _ _ H) as (idx & a & c & n & E & -> & _ & _ & _ & Hp).
  rewrite E at 3. rewrite !spell_app. f_equal.
  cbn [spell fold_right]. rewrite Hp. now rewrite string_app_assoc.
Qed.

Lemma merge_loop_spell fuel :
  forall t tokens m tokens' m',
    merge_loop fuel t tokens m = Some (Ok tokens', m') ->
    spell t tokens' = spell t tokens.
Proof.
  induction fuel as [|fuel IH]; intros t tokens m tokens' m' H; [done|].
  cbn [merge_loop] in H.
  destruct (merge_step t tokens) as [[next|]| |] eqn:E; try done.
  - rewrite (IH _ _ _ _ _ H). now apply merge_step_spell.
  - now inversion H.
Qed.

(** ** The strings looked up by the scan *)

Lemma code_points_cons c rest str_buffer :
  code_points (String c rest) str_buffer =
  let buffer := ((if is_continuation c then str_buffer else EmptyString)
                   ++ String c EmptyString)%string in
  if is_continuation
       (match rest with String c' _ => c' | EmptyString => Ascii.zero end)
     && (Z.of_nat (String.length buffer) <? max_num_utf8_byte)
  then code_points rest buffer
  else buffer :: code_points rest EmptyString.
Proof. reflexivity. Qed.

Lemma scan_text_code_points sorted text :
  forall str_buffer tokens,
    scan_text sorted text str_buffer tokens
    = tokens ++ flat_map (code_point_tokens sorted) (code_points text str_buffer).
Proof.
  induction text as [|c rest IH]; intros str_buffer tokens.
  - simpl. now rewrite app_nil_r.
  - rewrite scan_text_cons, code_points_cons. cbv zeta.
    destruct (_ && _).
    + apply IH.
    + rewrite IH. cbn [flat_map]. now rewrite <- app_assoc.
Qed.

Lemma join_cons s l : join (s :: l) = (s ++ join l)%string.
Proof. reflexivity. Qed.

Lemma code_points_join text :
  forall str_buffer,
    (str_buffer = EmptyString
     \/ exists d rest, text = String d rest /\ is_continuation d = true) ->
    join (code_points text str_buffer) = (str_buffer ++ text)%string.
Proof.
  induction text as [|c rest IH]; intros str_buffer Hb.
  - destruct Hb as [->|(d & r & ? & _)]; [reflexivity|done].
  - rewrite code_points_cons. cbv zeta.
    assert (E : ((if is_continuation c then str_buffer else EmptyString)
                   ++ String c rest)%string
                = (str_buffer ++ String c rest)%string).
    { destruct Hb as [->|(d & r & [= -> ->] & ->)]; [now destruct (is_continuation c)|done]. }
    rewrite <- E. clear E Hb.
    set (buffer0 := if is_continuation c then str_buffer else EmptyString).
    clearbody buffer0.
    set (next := match rest with String c' _ => c' | EmptyString => Ascii.zero end).
    assert (Hnext : is_continuation next = true ->
                    exists d r, rest = String d r /\ is_continuation d = true).
    { unfold next. destruct rest as [|d r]; [done|eauto]. }
    destruct (is_continuation next && _) eqn:Hc.
    + apply andb_true_iff in Hc as [Hc _].
      rewrite IH by (right; auto). now rewrite string_app_snoc.
    + rewrite join_cons, IH by now left.
      cbn [String.append]. now rewrite string_app_snoc.
Qed.

Lemma code_points_sizes text :
  forall str_buffer,
    (String.length str_buffer < 4)%nat ->
    Forall (fun g => (1 <= String.length g <= 4)%nat) (code_points text str_buffer).
Proof.
  induction text as [|c rest IH]; intros str_buffer Hb; [constructor|].
  rewrite code_points_cons. cbv zeta.
  set (buffer := ((if is_continuation c then str_buffer else EmptyString)
                    ++ String c EmptyString)%string).
  assert (Hl : (1 <= String.length buffer <= 4)%nat).
  { unfold buffer. rewrite string_length_snoc.
    destruct (is_continuation c); simpl; lia. }
  clearbody buffer.
  destruct (_ && _) eqn:Hc.
  - apply andb_true_iff in Hc as [_ Hlt]. apply Z.ltb_lt in Hlt.
    apply IH. unfold max_num_utf8_byte in Hlt. lia.
  - constructor; [exact Hl|]. apply IH. simpl. lia.
Qed.

(** ** Tokens within the vocabulary *)

Lemma byte_val_range c : 0 <= byte_val c < 256.
Proof.
  unfold byte_val. pose proof (N_ascii_bounded c). lia.
Qed.

Lemma code_point_tokens_in_vocab t s :
  259 <= tokenizer_vocab_size t ->
  Forall (in_vocab t) (code_point_tokens (sorted_vocab t) s).
Proof.
  intros Hv. unfold code_point_tokens.
  destruct (Z.eqb_spec (str_lookup s (sorted_vocab t)) (-1)) as [E|E]; cbn [negb].
  - apply Forall_forall. intros i Hi. apply list_elem_of_fmap in Hi as (b & -> & _).
    pose proof (byte_val_range b). unfold in_vocab. lia.
  - constructor; [now apply str_lookup_in_vocab|constructor].
Qed.

Lemma code_point_tokens_spell t s :
  is_piece t s -> spell t (code_point_tokens (sorted_vocab t) s) = s.
Proof.
  intros Hs. unfold code_point_tokens.
  destruct (Z.eqb_spec (str_lookup s (sorted_vocab t)) (-1)) as [E|E]; cbn [negb].
  - now apply str_lookup_absent in E.
  - cbn [spell fold_right]. rewrite piece_of_str_lookup by exact E.
    apply string_app_nil_r.
Qed.

Lemma is_piece_lookup t s : is_piece t s <-> str_lookup s (sorted_vocab t) <> -1.
Proof.
  unfold is_piece. split.
  - intros H E. now apply str_lookup_absent in E.
  - intros H. destruct (vocab_at_str_lookup t s H) as (e & He & Hp).
    exists e. split; [|exact Hp].
    unfold vocab_at in He. destruct (_ && _); [|done].
    destruct (vocab t !! _) eqn:E; [|done]. inversion He; subst.
    eapply list_elem_of_lookup_2, E.
Qed.

Lemma scan_pairs_ok t tokens i b :
  Forall (in_vocab t) tokens -> exists b', scan_pairs t tokens i b = Ok b'.
Proof.
  intros Hin. pose proof (scan_pairs_not_ok t tokens i b) as H.
  destruct (scan_pairs t tokens i b) as [b'| |f]; [eauto|done|].
  destruct H as (a & Ha & Hf). rewrite Forall_forall in Hin.
  apply Hin, in_vocab_ok in Ha as [e He]. congruence.
Qed.

Lemma merge_step_in_vocab t tokens :
  Forall (in_vocab t) tokens ->
  merge_step t tokens = Ok None
  \/ exists tokens', merge_step t tokens = Ok (Some tokens')
                     /\ Forall (in_vocab t) tokens'.
Proof.
  intros Hin. destruct (merge_step t tokens) as [[tokens'|]| |f] eqn:E.
  - right. exists tokens'. split; [reflexivity|].
    destruct (merge_step_shape _ _ _ E) as (idx & a & c & n & Et & -> & _ & _ & Hn & _).
    rewrite Et in Hin. apply Forall_app in Hin as [H1 H2].
    apply Forall_cons in H2 as [_ H2]. apply Forall_cons in H2 as [_ H2].
    apply Forall_app. split; [exact H1|]. now constructor.
  - now left.
  - now apply merge_step_no_exit in E.
  - unfold merge_step in E.
    destruct (scan_pairs_ok t tokens 0 no_best Hin) as [b Hb].
    rewrite Hb in E. done.
Qed.

Lemma merge_loop_in_vocab fuel :
  forall t tokens m,
    Forall (in_vocab t) tokens -> (length tokens < fuel)%nat ->
    exists tokens' m',
      merge_loop fuel t tokens m = Some (Ok tokens', m')
      /\ Forall (in_vocab t) tokens'.
Proof.
  induction fuel as [|fuel IH]; intros t tokens m Hin Hlen; [lia|].
  cbn [merge_loop].
  destruct (merge_step_in_vocab t tokens Hin) as [E|(tokens' & E & Hin')]; rewrite E.
  - eauto.
  - apply IH; [exact Hin'|].
    apply merge_step_length in E. lia.
Qed.

Lemma flat_map_in_vocab t groups :
  259 <= tokenizer_vocab_size t ->
  Forall (in_vocab t) (flat_map (code_point_tokens (sorted_vocab t)) groups).
Proof.
  intros Hv. induction groups as [|g groups IH]; [constructor|].
  cbn [flat_map]. apply Forall_app. split; [|exact IH].
  now apply code_point_tokens_in_vocab.
Qed.

Lemma flat_map_spell t groups :
  Forall (is_piece t) groups ->
  spell t (flat_map (code_point_tokens (sorted_vocab t)) groups) = join groups.
Proof.
  induction 1 as [|g groups Hg _ IH]; [reflexivity|].
  cbn [flat_map]. rewrite spell_app, IH, join_cons.
  now rewrite code_point_tokens_spell.
Qed.

Lemma initial_tokens_code_points t text bos :
  initial_tokens t text bos
  = ((if bos =? 0 then [] else [1])
       ++ match text with
          | EmptyString => []
          | String _ _ => [str_lookup " " (sorted_vocab t)]
          end)
      ++ flat_map (code_point_tokens (sorted_vocab t)) (code_points text EmptyString).
Proof.
  unfold initial_tokens. rewrite scan_text_code_points.
  destruct text; cbv zeta; [|reflexivity].
  cbn [code_points flat_map]. now rewrite !app_nil_r.
Qed.

Lemma vocab_at_fault t i f : vocab_at t i = Fault f -> f = OutOfBounds i.
Proof.
  unfold vocab_at. destruct (_ && _); [destruct (vocab t !! _)|]; congruence.
Qed.

Lemma merge_loop_fault fuel :
  forall t tokens m f m',
    merge_loop fuel t tokens m = Some (Fault f, m') -> exists i, f = OutOfBounds i.
Proof.
  induction fuel as [|fuel IH]; intros t tokens m f m' H; [discriminate|].
  cbn [merge_loop] in H.
  destruct (merge_step t tokens) as [[next|]| |f'] eqn:Es; try discriminate.
  - eapply IH, H.
  - inversion H; subst f'. unfold merge_step in Es.
    pose proof (scan_pairs_not_ok t tokens 0 no_best) as Hs.
    destruct (scan_pairs t tokens 0 no_best) as [b| |f']; try discriminate.
    cbn [bind] in Es. inversion Es; subst f'.
    destruct Hs as (a & _ & Ha). apply vocab_at_fault in Ha. eauto.
Qed.

(** ** Lookup, scan, merge and [encode] *)

(** X1. [str_lookup] on the index that [encode] sorts is an exact dictionary
    lookup: it returns -1 exactly when no slot of the vocabulary holds the
    string, and otherwise the number of a slot that holds it. *)
Theorem str_lookup_correct (t : Tokenizer) (s : string) :
  let i := str_lookup s (sorted_vocab t) in
  (i = -1 /\ forall v, v ∈ vocab t -> piece v = s -> False)
  \/ (0 <= i < tokenizer_vocab_size t
      /\ exists v, vocab t !! Z.to_nat i = Some v /\ piece v = s).
Proof.
  cbv zeta. destruct (Z.eq_dec (str_lookup s (sorted_vocab t)) (-1)) as [E|E].
  - left. split; [exact E|]. intros v Hv Hp.
    apply str_lookup_absent in E. apply E. eauto.
  - right. now apply str_lookup_found.
Qed.

(** X2. The merge of the pair at [idx] (the write of the new id, the shift
    loop and the decrement of the count) leaves the entries before [idx],
    puts the new id at [idx], and moves every later entry down by one. *)
Theorem merge_pair_lookup (tokens : list Z) (idx : nat) (new_id : Z) :
  (S idx < length tokens)%nat ->
  length (merge_pair tokens idx new_id) = (length tokens - 1)%nat
  /\ forall j,
       merge_pair tokens idx new_id !! j
       = if (j <? idx)%nat then tokens !! j
         else if (j =? idx)%nat then Some new_id
         else tokens !! S j.
Proof.
  intros H. split; [now apply merge_pair_length|].
  intros j. rewrite merge_pair_splice by exact H.
  destruct (Nat.ltb_spec j idx) as [Hj|Hj].
  - rewrite lookup_app_l by (rewrite length_take; lia).
    apply lookup_take_lt; lia.
  - rewrite lookup_app_r by (rewrite length_take; lia).
    rewrite length_take, Nat.min_l by lia.
    destruct (Nat.eqb_spec j idx) as [->|Hne].
    + now rewrite Nat.sub_diag.
    + destruct (j - idx)%nat as [|k] eqn:Ek; [lia|].
      change ((new_id :: drop (idx + 2) tokens) !! S k)
        with (drop (idx + 2) tokens !! k).
      rewrite lookup_drop. f_equal. lia.
Qed.

Lemma merge_pair_lookup_witness :
  length (merge_pair [5; 6; 7; 8] 1 9) = 3%nat
  /\ merge_pair [5; 6; 7; 8] 1 9 !! 2%nat = Some 8.
Proof.
  destruct (merge_pair_lookup [5; 6; 7; 8] 1 9) as [Hl Hj]; [simpl; lia|].
  split; [exact Hl|]. exact (Hj 2%nat).
Defined.

(** In each string the scan looks up, only the first byte can be other than
    a continuation byte. *)
Lemma code_points_tails text :
  forall str_buffer,
    (match str_buffer with
     | EmptyString => True
     | String _ r => Forall (fun d => is_continuation d = true) (list_ascii_of_string r)
     end) ->
    Forall (fun g => match g with
                     | EmptyString => False
                     | String _ r =>
                         Forall (fun d => is_continuation d = true)
                           (list_ascii_of_string r)
                     end)
      (code_points text str_buffer).
Proof.
  induction text as [|c rest IH]; intros str_buffer Hb; [constructor|].
  rewrite code_points_cons. cbv zeta.
  set (buffer := ((if is_continuation c then str_buffer else EmptyString)
                    ++ String c EmptyString)%string).
  assert (Hl : match buffer with
               | EmptyString => False
               | String _ r => Forall (fun d => is_continuation d = true)
                                 (list_ascii_of_string r)
               end).
  { unfold buffer. destruct (is_continuation c) eqn:Hc; [|constructor].
    destruct str_buffer as [|b r]; [constructor|].
    cbn [String.append]. clear -Hb Hc.
    induction r as [|x r IHr]; cbn [String.append list_ascii_of_string].
    - repeat constructor. exact Hc.
    - cbn [list_ascii_of_string] in Hb. apply Forall_cons in Hb as [Hx Hr].
      constructor; [exact Hx|]. now apply IHr. }
  clearbody buffer.
  destruct (_ && _).
  - apply IH. destruct buffer; [done|exact Hl].
  - constructor; [exact Hl|]. now apply IH.
Qed.

(** X3. The loop of [encode] over the bytes of the text cuts the text into
    the strings it looks up: their concatenation is the text, each has one to
    four bytes, only its first byte can be other than a UTF-8 continuation
    byte, and the tokens stored are those of the strings in order (the id of
    the string when the vocabulary has it, its bytes plus 3 otherwise). *)
Theorem scan_text_partitions_text (sorted : list TokenIndex) (text : string)
    (tokens : list Z) :
  let groups := code_points text EmptyString in
  scan_text sorted text EmptyString tokens
    = tokens ++ flat_map (code_point_tokens sorted) groups
  /\ join groups = text
  /\ Forall (fun g => (1 <= String.length g <= 4)%nat
                      /\ Forall (fun d => is_continuation d = true)
                           (list_ascii_of_string (substring 1 4 g)))
       groups.
Proof.
  cbv zeta. split; [apply scan_text_code_points|].
  split; [now rewrite code_points_join by now left|].
  pose proof (code_points_sizes text EmptyString) as Hs.
  pose proof (code_points_tails text EmptyString I) as Ht.
  specialize (Hs ltac:(simpl; lia)).
  rewrite Forall_forall in *. intros g Hg. split; [now apply Hs|].
  specialize (Hs g Hg). specialize (Ht g Hg).
  destruct g as [|b r]; [done|]. cbn [substring].
  assert (E : substring 0 4 r = r).
  { cbn [String.length] in Hs.
    destruct r as [|r1 [|r2 [|r3 [|r4 r]]]]; try reflexivity.
    cbn [String.length] in Hs. lia. }
  now rewrite E.
Qed.

(** X4. A byte that is no continuation byte, followed by up to three
    continuation bytes and then by the end of the text or another byte that
    is no continuation byte, is looked up as one string: a well-formed UTF-8
    code point is never split. *)
Theorem scan_text_whole_code_point (sorted : list TokenIndex) (c : ascii)
    (conts rest : string) (tokens : list Z) :
  is_continuation c = false ->
  Forall (fun d => is_continuation d = true) (list_ascii_of_string conts) ->
  (String.length conts <= 3)%nat ->
  match rest with String d _ => is_continuation d = false | EmptyString => True end ->
  scan_text sorted (String c (conts ++ rest)) EmptyString tokens
  = scan_text sorted rest EmptyString
      (tokens ++ code_point_tokens sorted (String c conts)).
Proof.
  intros Hc Hconts Hlen Hrest.
  rewrite (scan_text_group sorted conts c rest EmptyString tokens Hconts).
  - now rewrite Hc.
  - rewrite Hc. simpl. lia.
  - exact Hrest.
Qed.

Lemma scan_text_whole_code_point_witness :
  scan_text (sorted_vocab byte_tokenizer) (e_acute ++ "b") EmptyString [1]
  = scan_text (sorted_vocab byte_tokenizer) "b" EmptyString
      ([1] ++ code_point_tokens (sorted_vocab byte_tokenizer) e_acute).
Proof.
  apply (scan_text_whole_code_point (sorted_vocab byte_tokenizer)
           (ascii_of_nat 195) (String (ascii_of_nat 169) EmptyString)
           "b" [1]).
  - reflexivity.
  - repeat constructor.
  - simpl. lia.
  - reflexivity.
Defined.

(** X5. [encode] stores at most one token for each byte of the text, besides
    the BOS token, the dummy prefix and the EOS token: the array never holds
    more than [strlen(text) + 3] tokens, before the merges and after them. *)
Theorem encode_token_count (t : Tokenizer) (text : string) (bos eos : Z) :
  (length (initial_tokens t text bos) <= String.length text + 2)%nat
  /\ match encode t (Some text) bos eos with
     | Ok tokens => (length tokens <= String.length text + 3)%nat
     | _ => True
     end.
Proof.
  assert (Hi : (length (initial_tokens t text bos) <= String.length text + 2)%nat).
  { unfold initial_tokens.
    match goal with |- context [scan_text ?s ?x ?b ?tk] =>
      pose proof (scan_text_length s x b tk) as H; revert H;
      generalize (scan_text s x b tk) end.
    intros l. cbn [String.length].
    destruct (bos =? 0), text; cbn [length app]; lia. }
  split; [exact Hi|].
  cbn [encode]. destruct (checked_alloc _); cbn [bind]; [|done|done].
  destruct (merge_loop_bound (S (length (initial_tokens t text bos))) t
              (initial_tokens t text bos) 0 ltac:(lia))
    as (r & m' & -> & _ & Hr & _).
  destruct r as [tokens| |]; cbn [bind]; [|done|done].
  specialize (Hr tokens eq_refl).
  destruct (eos =? 0); [lia|]. rewrite length_app. simpl. lia.
Qed.

(** X6. [generate] allocates [sizeof(int) * strlen(prompt) + 3] bytes for the
    prompt tokens.  For every prompt without continuation bytes (every ASCII
    prompt, the empty one included) [encode] stores one token for each byte
    besides BOS and the dummy prefix, so the [int]s it writes do not fit the
    allocation. *)
Theorem generate_prompt_buffer_too_small (t : Tokenizer) (prompt : string) :
  no_continuation prompt ->
  Z.of_nat (length (initial_tokens t prompt 1))
  = Z.of_nat (String.length prompt)
    + (match prompt with EmptyString => 1 | String _ _ => 2 end)
  /\ prompt_tokens_bytes prompt < 4 * Z.of_nat (length (initial_tokens t prompt 1)).
Proof.
  intros Hn.
  assert (E : length (initial_tokens t prompt 1)
              = (String.length prompt
                 + match prompt with EmptyString => 1 | String _ _ => 2 end)%nat).
  { unfold initial_tokens. rewrite scan_text_no_continuation by exact Hn.
    rewrite length_app, flat_map_single_length, list_ascii_length.
    destruct prompt; cbn [Z.eqb length app]; lia. }
  rewrite E. unfold prompt_tokens_bytes. destruct prompt; lia.
Qed.

Lemma generate_prompt_buffer_too_small_witness :
  Z.of_nat (length (initial_tokens tiny_tokenizer "ab" 1)) = 2 + 2
  /\ prompt_tokens_bytes "ab" < 4 * Z.of_nat (length (initial_tokens tiny_tokenizer "ab" 1)).
Proof.
  apply (generate_prompt_buffer_too_small tiny_tokenizer "ab").
  repeat constructor.
Defined.

(** X7. The merge loop never changes what the array spells: whenever it
    ends in [break], the pieces of the tokens it leaves concatenate to the
    same string as the pieces of the tokens it started from, and the array is
    shorter by the number of merges made. *)
Theorem merge_loop_preserves_spelling (fuel : nat) (t : Tokenizer)
    (tokens tokens' : list Z) (merges : nat) :
  merge_loop fuel t tokens 0 = Some (Ok tokens', merges) ->
  spell t tokens' = spell t tokens
  /\ (length tokens' + merges = length tokens)%nat.
Proof.
  intros H. split; [exact (merge_loop_spell _ _ _ _ _ _ H)|].
  destruct (merge_loop_bound (fuel + S (length tokens)) t tokens 0 ltac:(lia))
    as (r & m' & Hb & _ & Hr & _).
  rewrite (merge_loop_more_fuel _ (S (length tokens)) _ _ _ _ H) in Hb.
  inversion Hb; subst. specialize (Hr tokens' eq_refl). lia.
Qed.

Lemma merge_loop_preserves_spelling_witness :
  spell tiny_tokenizer [1; 8] = spell tiny_tokenizer [1; 3; 4; 5]
  /\ (length [1; 8] + 2 = length [1; 3; 4; 5])%nat.
Proof.
  apply (merge_loop_preserves_spelling 5 tiny_tokenizer [1; 3; 4; 5] [1; 8] 2).
  vm_compute. reflexivity.
Defined.

(** X8. Round trip of [encode]: when the vocabulary has the piece " " and
    every string the scan looks up, the pieces of the tokens returned
    concatenate to the text behind the dummy prefix, between the pieces of
    BOS and EOS when these are asked for. *)
Theorem encode_spells_text (t : Tokenizer) (text : string) (bos eos : Z)
    (tokens : list Z) :
  encode t (Some text) bos eos = Ok tokens ->
  is_piece t " " ->
  Forall (is_piece t) (code_points text EmptyString) ->
  spell t tokens
  = ((if (bos =? 0)%Z then EmptyString else piece_of t 1)
     ++ (match text with EmptyString => EmptyString | String _ _ => " " end)
     ++ text
     ++ (if (eos =? 0)%Z then EmptyString else piece_of t 2))%string.
Proof.
  intros H Hsp Hg. cbn [encode] in H.
  destruct (checked_alloc _); cbn [bind] in H; [|done|done].
  destruct (merge_loop _ _ _ _) as [[r m]|] eqn:E; [|done].
  destruct r as [merged| |]; cbn [bind] in H; [|done|done].
  inversion H; subst tokens; clear H.
  assert (Hm : spell t merged
               = ((if (bos =? 0)%Z then EmptyString else piece_of t 1)
                  ++ (match text with EmptyString => EmptyString | String _ _ => " " end)
                  ++ text)%string).
  { rewrite (merge_loop_spell _ _ _ _ _ _ E), initial_tokens_code_points.
    rewrite !spell_app, flat_map_spell by exact Hg.
    rewrite code_points_join by now left. cbn [String.append].
    rewrite string_app_assoc. f_equal.
    - destruct (bos =? 0); [reflexivity|].
      cbn [spell fold_right]. apply string_app_nil_r.
    - f_equal. destruct text; [reflexivity|].
      cbn [spell fold_right]. rewrite string_app_nil_r.
      apply piece_of_str_lookup. now apply is_piece_lookup. }
  destruct (eos =? 0).
  - rewrite Hm, !string_app_nil_r. reflexivity.
  - rewrite spell_app, Hm. cbn [spell fold_right].
    rewrite string_app_nil_r, !string_app_assoc. reflexivity.
Qed.

Lemma encode_spells_text_witness :
  spell byte_tokenizer cafe_tokens = ("<s>" ++ " " ++ cafe_text ++ "</s>")%string.
Proof.
  apply (encode_spells_text byte_tokenizer cafe_text 1 1 cafe_tokens).
  - vm_compute. reflexivity.
  - apply is_piece_lookup. vm_compute. discriminate.
  - repeat constructor; apply is_piece_lookup; vm_compute; discriminate.
Defined.

Lemma string_length_app (a b : string) :
  String.length (a ++ b) = (String.length a + String.length b)%nat.
Proof. induction a as [|x a IH]; simpl; [reflexivity|]. now rewrite IH. Qed.

Lemma vocab_at_elem t i e : vocab_at t i = Ok e -> e ∈ vocab t.
Proof.
  unfold vocab_at. destruct (_ && _); [|discriminate].
  destruct (vocab t !! _) eqn:E; [|discriminate].
  intros [= <-]. eapply list_elem_of_lookup_2, E.
Qed.

Lemma str_buffer_size_fits t :
  pieces_fit t -> str_buffer_size t = max_token_length t * 2 + 3 /\ 5 <= str_buffer_size t.
Proof.
  intros (H1 & H2 & _). unfold str_buffer_size.
  rewrite Z.mod_small by lia. lia.
Qed.

(** With at least five chars of buffer the scan of the text stays inside
    it. *)
Lemma scan_text_checked_ok sorted size text :
  forall str_buffer tokens,
    5 <= size -> (String.length str_buffer < 4)%nat ->
    scan_text_checked sorted size text str_buffer tokens
    = Ok (scan_text sorted text str_buffer tokens).
Proof.
  induction text as [|c rest IH]; intros str_buffer tokens Hs Hb; [reflexivity|].
  cbn [scan_text_checked scan_text].
  set (buffer0 := if is_continuation c then str_buffer else EmptyString).
  assert (Hb0 : (String.length buffer0 < 4)%nat).
  { unfold buffer0. destruct (is_continuation c); [exact Hb|simpl; lia]. }
  unfold buffer_write.
  destruct (Z.leb_spec 0 (Z.of_nat (String.length buffer0))); [|lia].
  destruct (Z.ltb_spec (Z.of_nat (String.length buffer0)) size); [|lia].
  cbn [andb bind].
  destruct (Z.leb_spec 0 (Z.of_nat (String.length buffer0) + 1)); [|lia].
  destruct (Z.ltb_spec (Z.of_nat (String.length buffer0) + 1) size); [|lia].
  cbn [andb bind].
  destruct (is_continuation _ && _) eqn:Ec.
  - apply IH; [exact Hs|]. apply andb_true_iff in Ec as [_ Ec].
    apply Z.ltb_lt in Ec. unfold max_num_utf8_byte in Ec. lia.
  - apply IH; [exact Hs|simpl; lia].
Qed.

Lemma scan_pairs_checked_cons t a c rest i b :
  scan_pairs_checked t (a :: c :: rest) i b =
  (do ea <- vocab_at t a;
   do ec <- vocab_at t c;
   do _ <- sprintf (str_buffer_size t) (piece ea ++ piece ec);
   let id := str_lookup (piece ea ++ piece ec)%string (sorted_vocab t) in
   do b' <- (if id =? -1 then Ok b
             else do e <- vocab_at t id;
                  Ok (if F32.gt (score e) (best_score b)
                      then {| best_score := score e; best_id := id; best_idx := i |}
                      else b));
   scan_pairs_checked t (c :: rest) (i + 1) b').
Proof. reflexivity. Qed.

Lemma scan_pairs_checked_eq t :
  pieces_fit t ->
  forall tokens i b, scan_pairs_checked t tokens i b = scan_pairs t tokens i b.
Proof.
  intros Hfit. destruct (str_buffer_size_fits t Hfit) as [Hsize _].
  destruct Hfit as (_ & _ & Hp). rewrite Forall_forall in Hp.
  induction tokens as [|a tokens IH]; intros i b; [reflexivity|].
  destruct tokens as [|c rest]; [reflexivity|].
  rewrite scan_pairs_checked_cons, scan_pairs_cons.
  destruct (vocab_at t a) as [ea| |] eqn:Ea; cbn [bind]; try reflexivity.
  destruct (vocab_at t c) as [ec| |] eqn:Ec; cbn [bind]; try reflexivity.
  unfold sprintf. rewrite string_length_app, Hsize.
  pose proof (Hp ea (vocab_at_elem _ _ _ Ea)).
  pose proof (Hp ec (vocab_at_elem _ _ _ Ec)).
  destruct (Z.ltb_spec (Z.of_nat (String.length (piece ea) + String.length (piece ec)))
              (max_token_length t * 2 + 3)); [|lia].
  cbn [bind]. cbv zeta.
  destruct (if _ =? -1 then _ else _) as [b'| |]; cbn [bind]; try reflexivity.
  apply IH.
Qed.

Lemma merge_loop_checked_eq t :
  pieces_fit t ->
  forall fuel tokens m, merge_loop_checked fuel t tokens m = merge_loop fuel t tokens m.
Proof.
  intros Hfit. induction fuel as [|fuel IH]; intros tokens m; [reflexivity|].
  cbn [merge_loop_checked merge_loop]. unfold merge_step_checked, merge_step.
  rewrite (scan_pairs_checked_eq t Hfit).
  destruct (scan_pairs t tokens 0 no_best) as [b| |]; cbn [bind]; try reflexivity.
  destruct (best_idx b =? -1); [reflexivity|]. apply IH.
Qed.

(** When the pieces fit the buffer, the checks of the writes to it never
    fail. *)
Lemma encode_checked_eq t text bos eos :
  pieces_fit t -> encode_checked t text bos eos = encode t text bos eos.
Proof.
  intros Hfit. destruct text as [text|]; [|reflexivity].
  cbn [encode_checked encode].
  destruct (checked_alloc _); cbn [bind]; try reflexivity.
  destruct (str_buffer_size_fits t Hfit) as [_ H5].
  rewrite scan_text_checked_ok by (first [exact H5|simpl; lia]).
  cbn [bind]. fold (initial_tokens t text bos).
  now rewrite (merge_loop_checked_eq t Hfit).
Qed.

(** X9. With a vocabulary of at least 259 slots (the three special pieces
    and the 256 byte pieces) that has the piece " ", and whose pieces are no
    longer than [max_token_length] says, [encode] returns for every text:
    no write leaves the scratch buffer, every token it returns is the number
    of a slot of the vocabulary, and the result is the one computed without
    regard to the buffer. *)
Theorem encode_total_with_byte_pieces (t : Tokenizer) (text : string)
    (bos eos : Z) :
  259 <= tokenizer_vocab_size t ->
  is_piece t " " ->
  pieces_fit t ->
  exists tokens,
    encode_checked t (Some text) bos eos = Ok tokens
    /\ encode t (Some text) bos eos = Ok tokens
    /\ Forall (in_vocab t) tokens.
Proof.
  intros Hv Hsp Hfit. rewrite (encode_checked_eq t _ bos eos Hfit). cbn [encode].
  assert (Ha : checked_alloc (tokenizer_vocab_size t) = Ok tt).
  { unfold checked_alloc. destruct (Z.leb_spec (tokenizer_vocab_size t) 0); [lia|reflexivity]. }
  rewrite Ha. cbn [bind].
  assert (Hin : Forall (in_vocab t) (initial_tokens t text bos)).
  { rewrite initial_tokens_code_points. apply Forall_app. split.
    - apply Forall_app. split.
      + destruct (bos =? 0); [constructor|].
        constructor; [unfold in_vocab; lia|constructor].
      + destruct text; [constructor|]. constructor; [|constructor].
        apply str_lookup_in_vocab. now apply is_piece_lookup.
    - now apply flat_map_in_vocab. }
  destruct (merge_loop_in_vocab (S (length (initial_tokens t text bos))) t
              (initial_tokens t text bos) 0 Hin ltac:(lia))
    as (merged & m & -> & Hm).
  cbn [bind]. eexists. split; [reflexivity|]. split; [reflexivity|].
  destruct (eos =? 0); [exact Hm|].
  apply Forall_app. split; [exact Hm|].
  constructor; [unfold in_vocab; lia|constructor].
Qed.

Lemma byte_tokenizer_pieces_fit : pieces_fit byte_tokenizer.
Proof.
  split; [vm_compute; discriminate|]. split; [vm_compute; reflexivity|].
  apply Forall_forall. intros e He. apply list_elem_of_In in He.
  assert (H : forallb (fun e => Z.of_nat (String.length (piece e)) <=? 6)
                (vocab byte_tokenizer) = true) by (vm_compute; reflexivity).
  rewrite forallb_forall in H. apply Z.leb_le. exact (H e He).
Qed.

Lemma encode_total_with_byte_pieces_witness :
  exists tokens,
    encode_checked byte_tokenizer (Some cafe_text) 1 1 = Ok tokens
    /\ encode byte_tokenizer (Some cafe_text) 1 1 = Ok tokens
    /\ Forall (in_vocab byte_tokenizer) tokens.
Proof.
  apply (encode_total_with_byte_pieces byte_tokenizer cafe_text 1 1).
  - vm_compute. discriminate.
  - apply is_piece_lookup. vm_compute. discriminate.
  - exact byte_tokenizer_pieces_fit.
Defined.

(** When the file understates the length of the pieces, the merge loop
    writes past the end of the buffer: with [max_token_length] 1 the buffer
    has five chars, and the pieces "<s>" and " a" take six with their NUL. *)
Example encode_overflows_understated_buffer :
  str_buffer_size understated_tokenizer = 5
  /\ encode_checked understated_tokenizer (Some "a"%string) 1 0
     = Fault (OutOfBounds 5)
  /\ encode understated_tokenizer (Some "a"%string) 1 0 = Ok [1; 264].
Proof. repeat split; vm_compute; reflexivity. Qed.

(** X10. For the empty text [encode] looks nothing up and merges nothing:
    whatever the vocabulary holds (if it is not empty), the result is the BOS
    token and the EOS token, as far as they are asked for, with no dummy
    prefix between them. *)
Theorem encode_empty_text (t : Tokenizer) (bos eos : Z) :
  encode t (Some EmptyString) bos eos
  = if tokenizer_vocab_size t <=? 0 then Exit (-1)
    else Ok ((if bos =? 0 then [] else [1]) ++ (if eos =? 0 then [] else [2])).
Proof.
  cbn [encode]. unfold checked_alloc.
  destruct (tokenizer_vocab_size t <=? 0); cbn [bind]; [reflexivity|].
  unfold initial_tokens. destruct (bos =? 0), (eos =? 0); reflexivity.
Qed.

(** X11. The dummy prefix is stored without a test: for every text that is
    not empty and every vocabulary without the piece " " (and not empty),
    the array of [encode] holds the id -1 and the merge loop ends in a read
    outside the vocabulary. *)
Theorem encode_without_space_piece (t : Tokenizer) (text : string) (bos eos : Z) :
  text <> EmptyString ->
  vocab t <> [] ->
  (forall v, v ∈ vocab t -> piece v <> " "%string) ->
  -1 ∈ initial_tokens t text bos
  /\ exists i, encode t (Some text) bos eos = Fault (OutOfBounds i).
Proof.
  intros Ht Hv Hsp.
  assert (E : str_lookup " " (sorted_vocab t) = -1).
  { apply str_lookup_absent. intros (v & Hin & Hp). exact (Hsp v Hin Hp). }
  destruct (encode_missing_space_faults t text bos eos Ht Hv E) as [H1 [f Hf]].
  split; [exact H1|]. rewrite Hf.
  cbn [encode] in Hf.
  destruct (checked_alloc _) eqn:Ea; cbn [bind] in Hf.
  2: discriminate.
  2: { unfold checked_alloc in Ea. destruct (_ <=? _); discriminate. }
  destruct (merge_loop _ _ _ _) as [[r m]|] eqn:El.
  2: { destruct (merge_loop_bound (S (length (initial_tokens t text bos))) t
                   (initial_tokens t text bos) 0 ltac:(lia))
         as (r & m' & Hb & _). congruence. }
  destruct r as [x| |f']; cbn [bind] in Hf; try discriminate.
  inversion Hf; subst f'.
  destruct (merge_loop_fault _ _ _ _ _ _ El) as [i ->]. eauto.
Qed.

Lemma encode_without_space_piece_witness :
  -1 ∈ initial_tokens no_space_tokenizer "a" 1
  /\ exists i, encode no_space_tokenizer (Some "a"%string) 1 0 = Fault (OutOfBounds i).
Proof.
  apply (encode_without_space_piece no_space_tokenizer "a" 1 0).
  - discriminate.
  - discriminate.
  - intros v Hv. unfold no_space_tokenizer in Hv. cbn [vocab] in Hv.
    repeat (apply elem_of_cons in Hv as [->|Hv]; [discriminate|]).
    now apply elem_of_nil in Hv.
Defined.

(** * Further properties of the transformer *)

(** ** Buffers *)

Lemma load_lookup (a : list F32.t) (j : nat) v :
  a !! j = Some v -> load a (Z.of_nat j) = Ok v.
Proof.
  intros H. unfold load. destruct (Z.ltb_spec (Z.of_nat j) 0); [lia|].
  now rewrite Nat2Z.id, H.
Qed.

Lemma store_insert (a : list F32.t) (j : nat) v :
  (j < length a)%nat -> store a (Z.of_nat j) v = Ok (<[j := v]> a).
Proof.
  intros H. unfold store.
  destruct (Z.leb_spec 0 (Z.of_nat j)); [|lia].
  destruct (Z.ltb_spec (Z.of_nat j) (Z.of_nat (length a))); [|lia].
  now rewrite Nat2Z.id.
Qed.

Lemma sum_of_squares_fold (x : list F32.t) (n : nat) :
  forall (j : nat) ss,
    (j + n <= length x)%nat ->
    sum_of_squares x (Z.of_nat j) n ss
    = Ok (fold_left (fun ss v => F32.add ss (F32.mul v v)) (take n (drop j x)) ss).
Proof.
  induction n as [|n IH]; intros j ss Hj; [reflexivity|].
  cbn [sum_of_squares].
  destruct (x !! j) as [v|] eqn:E; [|apply lookup_ge_None in E; lia].
  rewrite (load_lookup _ _ _ E). cbn [bind].
  replace (Z.of_nat j + 1) with (Z.of_nat (S j)) by lia.
  rewrite IH by lia. rewrite (drop_S _ _ _ E). reflexivity.
Qed.

Lemma normalize_and_scale_lookup (x : list F32.t) (weight : Z -> outcome F32.t)
    (w : Z -> F32.t) (ss : F32.t) (n : nat) :
  forall (j : nat) (o : list F32.t),
    (j + n <= length x)%nat -> (j + n <= length o)%nat ->
    (forall k, Z.of_nat j <= k < Z.of_nat (j + n) -> weight k = Ok (w k)) ->
    exists o',
      normalize_and_scale o x weight ss (Z.of_nat j) n = Ok o'
      /\ length o' = length o
      /\ forall i : nat,
           o' !! i = if (j <=? i)%nat && (i <? j + n)%nat
                     then option_map
                            (fun v => F32.mul (w (Z.of_nat i)) (F32.mul ss v)) (x !! i)
                     else o !! i.
Proof.
  induction n as [|n IH]; intros j o Hx Ho Hw.
  - exists o. split; [reflexivity|]. split; [reflexivity|]. intros i.
    destruct (Nat.leb_spec j i), (Nat.ltb_spec i (j + 0)); try reflexivity. lia.
  - cbn [normalize_and_scale]. rewrite Hw by lia. cbn [bind].
    destruct (x !! j) as [v|] eqn:E; [|apply lookup_ge_None in E; lia].
    rewrite (load_lookup _ _ _ E). cbn [bind].
    rewrite store_insert by lia. cbn [bind].
    replace (Z.of_nat j + 1) with (Z.of_nat (S j)) by lia.
    destruct (IH (S j) (<[j := F32.mul (w (Z.of_nat j)) (F32.mul ss v)]> o))
      as (o' & -> & Hl & Hi).
    { lia. } { rewrite length_insert. lia. } { intros k Hk. apply Hw. lia. }
    exists o'. split; [reflexivity|]. rewrite length_insert in Hl.
    split; [exact Hl|]. intros i. rewrite Hi.
    destruct (decide (i = j)) as [->|Hne].
    + rewrite list_lookup_insert_eq by lia. rewrite E.
      destruct (Nat.leb_spec (S j) j), (Nat.ltb_spec j (S j + n)),
               (Nat.leb_spec j j), (Nat.ltb_spec j (j + S n));
        cbn [andb]; try reflexivity; lia.
    + rewrite list_lookup_insert_ne by lia.
      destruct (Nat.leb_spec (S j) i), (Nat.ltb_spec i (S j + n)),
               (Nat.leb_spec j i), (Nat.ltb_spec i (j + S n));
        cbn [andb]; try reflexivity; lia.
Qed.

(** X12. The sequential branch of [rmsnorm] in closed form: when [x] and [o]
    have at least [size] entries and [weight[j]] can be read for [j < size],
    the call returns; it writes [o[j] = weight[j] * (s * x[j])] for [j < size]
    with the one scale [s = 1 / sqrtf(sum of squares / size + 1e-5)] computed
    from the first [size] entries of [x], and leaves the other entries of [o]
    and its length as they were. *)
Theorem rmsnorm_cpu_closed_form (o x : list F32.t) (weight : Z -> outcome F32.t)
    (w : Z -> F32.t) (size : Z) :
  0 <= size <= Z.of_nat (length x) ->
  size <= Z.of_nat (length o) ->
  (forall j, 0 <= j < size -> weight j = Ok (w j)) ->
  exists o',
    rmsnorm o x weight size cudaCpuDeviceId = Ok o'
    /\ length o' = length o
    /\ forall i : nat,
         o' !! i = if Z.of_nat i <? size
                   then option_map
                          (fun v => F32.mul (w (Z.of_nat i))
                                      (F32.mul (rms_scale x size) v)) (x !! i)
                   else o !! i.
Proof.
  intros Hx Ho Hw. unfold rmsnorm. rewrite Z.eqb_refl.
  pose proof (sum_of_squares_fold x (Z.to_nat size) 0 F32.zero) as Hs.
  change (Z.of_nat 0) with 0 in Hs.
  rewrite Hs by lia. cbn [bind drop]. cbv zeta.
  destruct (normalize_and_scale_lookup x weight w (rms_scale x size)
              (Z.to_nat size) 0 o) as (o' & Hn & Hl & Hi); try lia.
  { intros k Hk. apply Hw. lia. }
  change (Z.of_nat 0) with 0 in Hn.
  exists o'. split; [exact Hn|]. split; [exact Hl|].
  intros i. rewrite Hi. cbn [Nat.leb andb].
  destruct (Nat.ltb_spec i (0 + Z.to_nat size)), (Z.ltb_spec (Z.of_nat i) size);
    try reflexivity; lia.
Qed.

Lemma rmsnorm_cpu_closed_form_witness :
  exists o',
    rmsnorm [F32.zero; F32.zero] [F32.one; F32.one] (fun _ => Ok F32.one) 1
      cudaCpuDeviceId = Ok o'
    /\ length o' = 2%nat
    /\ forall i : nat,
         o' !! i = if Z.of_nat i <? 1
                   then option_map
                          (fun v => F32.mul F32.one
                                      (F32.mul (rms_scale [F32.one; F32.one] 1) v))
                          ([F32.one; F32.one] !! i)
                   else [F32.zero; F32.zero] !! i.
Proof.
  apply (rmsnorm_cpu_closed_form [F32.zero; F32.zero] [F32.one; F32.one]
           (fun _ => Ok F32.one) (fun _ => F32.one) 1).
  - simpl. lia.
  - simpl. lia.
  - reflexivity.
Defined.

(** ** The run state and the loader *)

Lemma cudaMallocManaged_cases junk n :
  cudaMallocManaged junk n
  = if 0 <? n then Ok (repeat junk (Z.to_nat n)) else Exit (-1).
Proof.
  unfold cudaMallocManaged, checked_alloc.
  destruct (Z.leb_spec n 0), (Z.ltb_spec 0 n); try lia; reflexivity.
Qed.

Lemma int_div_ok a b q : int_div a b = Ok q -> b <> 0 /\ q = Z.quot a b.
Proof.
  unfold int_div. destruct (Z.eqb_spec b 0); [done|].
  destruct (_ && _); [done|]. intros [= <-]. done.
Qed.


Lemma memory_map_weights_ok c p sh w :
  memory_map_weights c p sh = Ok w ->
  n_heads c <> 0
  /\ token_embedding_table w = p
  /\ rms_att_weight w = p + wrap32 (vocab_size c * dim c).
Proof.
  unfold memory_map_weights. destruct (int_div _ _) as [hs| |] eqn:E; try discriminate.
  cbn [bind]. intros [= <-]. apply int_div_ok in E as [Hn _]. done.
Qed.


Lemma int_div_cases a b :
  int_div a b
  = if (b =? 0) || ((a =? INT_MIN) && (b =? -1)) then Fault DivideByZero
    else Ok (Z.quot a b).
Proof.
  unfold int_div. destruct (b =? 0); [reflexivity|].
  destruct ((a =? INT_MIN) && (b =? -1)); reflexivity.
Qed.

Lemma alloc_run_state_cases junk c :
  let kv_dim := Z.quot (wrap32 (dim c * n_kv_heads c)) (n_heads c) in
  let cache := wrap32 (wrap32 (n_layers c * max_seq_len c) * kv_dim) in
  let att := wrap32 (n_heads c * max_seq_len c) in
  alloc_run_state junk c
  = if (n_heads c =? 0)
       || ((wrap32 (dim c * n_kv_heads c) =? INT_MIN) && (n_heads c =? -1))
    then Fault DivideByZero
    else if (0 <? dim c) && (0 <? hidden_dim c) && (0 <? cache) && (0 <? att)
            && (0 <? vocab_size c)
    then Ok {| RunState.x := repeat junk (Z.to_nat (dim c));
               RunState.xb := repeat junk (Z.to_nat (dim c));
               RunState.xb2 := repeat junk (Z.to_nat (dim c));
               RunState.hb := repeat junk (Z.to_nat (hidden_dim c));
               RunState.hb2 := repeat junk (Z.to_nat (hidden_dim c));
               RunState.q := repeat junk (Z.to_nat (dim c));
               RunState.att := repeat junk (Z.to_nat att);
               RunState.logits := repeat junk (Z.to_nat (vocab_size c));
               RunState.key_cache := repeat junk (Z.to_nat cache);
               RunState.value_cache := repeat junk (Z.to_nat cache) |}
    else Exit (-1).
Proof.
  cbv zeta. unfold alloc_run_state. rewrite int_div_cases.
  destruct (_ || _); [reflexivity|]. cbn [bind].
  rewrite !cudaMallocManaged_cases.
  destruct (0 <? dim c); cbn [bind andb]; [|reflexivity].
  destruct (0 <? hidden_dim c); cbn [bind andb]; [|reflexivity].
  destruct (0 <? wrap32 (wrap32 (n_layers c * max_seq_len c) * _));
    cbn [bind andb]; [|reflexivity].
  destruct (0 <? wrap32 (n_heads c * max_seq_len c)); cbn [bind andb];
    [|reflexivity].
  destruct (0 <? vocab_size c); reflexivity.
Qed.

(** X13. What [build_transformer] checks, for a file that holds the 28
    bytes of a header.  It runs into an undefined division when [n_heads] is
    0 or when -1 divides the least [int]; otherwise it succeeds exactly when
    the five sizes it allocates with are positive ([dim], [hidden_dim], the
    size of a cache, the size of [att] and the vocabulary size), and ends the
    run with status -1 when one of them is not, as with [n_layers],
    [max_seq_len] or [n_kv_heads] equal to 0.  On success the configuration
    is the header with the absolute value of the vocabulary size, and every
    buffer has the size computed from it. *)
Theorem build_transformer_result (bytes : list byte) (mem : Z -> F32.t)
    (junk : F32.t) (tr0 : Transformer) (header : Config) :
  fread_Config bytes = Some header ->
  let c := {| dim := dim header; hidden_dim := hidden_dim header;
              n_layers := n_layers header; n_heads := n_heads header;
              n_kv_heads := n_kv_heads header;
              vocab_size := abs (vocab_size header);
              max_seq_len := max_seq_len header |} in
  let shared_weights := if vocab_size header >? 0 then 1 else 0 in
  let kv_dim := Z.quot (wrap32 (dim c * n_kv_heads c)) (n_heads c) in
  let cache := wrap32 (wrap32 (n_layers c * max_seq_len c) * kv_dim) in
  let att := wrap32 (n_heads c * max_seq_len c) in
  let undefined_division :=
    (n_heads c =? 0)
    || ((dim c =? INT_MIN) && (n_heads c =? -1))
    || ((wrap32 (dim c * n_kv_heads c) =? INT_MIN) && (n_heads c =? -1)) in
  let sizes_positive :=
    (0 <? dim c) && (0 <? hidden_dim c) && (0 <? cache) && (0 <? att)
    && (0 <? vocab_size c) in
  match build_transformer (Some bytes) mem junk tr0 with
  | Fault f => f = DivideByZero /\ undefined_division = true
  | Exit s => s = -1 /\ undefined_division = false /\ sizes_positive = false
  | Ok tr =>
      undefined_division = false /\ sizes_positive = true
      /\ n_layers c <> 0 /\ max_seq_len c <> 0 /\ n_kv_heads c <> 0
      /\ config tr = c
      /\ memory_map_weights c 7 shared_weights = Ok (weights tr)
      /\ token_embedding_table (weights tr) = 7
      /\ file_size tr = Z.of_nat (length bytes) /\ data tr = mem
      /\ state tr
         = {| RunState.x := repeat junk (Z.to_nat (dim c));
              RunState.xb := repeat junk (Z.to_nat (dim c));
              RunState.xb2 := repeat junk (Z.to_nat (dim c));
              RunState.hb := repeat junk (Z.to_nat (hidden_dim c));
              RunState.hb2 := repeat junk (Z.to_nat (hidden_dim c));
              RunState.q := repeat junk (Z.to_nat (dim c));
              RunState.att := repeat junk (Z.to_nat att);
              RunState.logits := repeat junk (Z.to_nat (vocab_size c));
              RunState.key_cache := repeat junk (Z.to_nat cache);
              RunState.value_cache := repeat junk (Z.to_nat cache) |}
  end.
Proof.
  intros Hh. cbv zeta. unfold build_transformer, read_checkpoint. rewrite Hh.
  change (Z.quot sizeof_Config 4) with 7.
  set (c := {| dim := dim header; hidden_dim := hidden_dim header;
               n_layers := n_layers header; n_heads := n_heads header;
               n_kv_heads := n_kv_heads header;
               vocab_size := abs (vocab_size header);
               max_seq_len := max_seq_len header |}).
  change (dim header) with (dim c). change (hidden_dim header) with (hidden_dim c).
  change (n_layers header) with (n_layers c).
  change (n_heads header) with (n_heads c).
  change (n_kv_heads header) with (n_kv_heads c).
  change (max_seq_len header) with (max_seq_len c).
  change (abs (vocab_size header)) with (vocab_size c).
  destruct (memory_map_weights c 7 _) as [w| |f] eqn:Em; cbn [bind].
  - pose proof Em as Em'. apply memory_map_weights_ok in Em' as (_ & Ht & _).
    unfold memory_map_weights in Em. rewrite int_div_cases in Em.
    destruct ((n_heads c =? 0) || ((dim c =? INT_MIN) && (n_heads c =? -1)))
      eqn:E1; [discriminate|].
    apply orb_false_iff in E1 as [E1 E1'].
    cbn [config]. rewrite alloc_run_state_cases. rewrite E1. cbn [orb].
    destruct ((wrap32 (dim c * n_kv_heads c) =? INT_MIN) && (n_heads c =? -1))
      eqn:E2; cbn [bind].
    { split; reflexivity. }
    cbn [orb].
    destruct ((0 <? dim c) && _ && _ && _ && _) eqn:E3; cbn [bind];
      [|done].
    cbn [config weights state data file_size].
    apply andb_true_iff in E3 as [E3 _]. apply andb_true_iff in E3 as [E3 _].
    apply andb_true_iff in E3 as [_ E3]. apply Z.ltb_lt in E3.
    split; [reflexivity|]. split; [reflexivity|].
    assert (Hz : wrap32 0 = 0) by reflexivity.
    split; [|split; [|split]].
    + intros E. rewrite E in E3.
      repeat first [rewrite Z.mul_0_l in E3 | rewrite Hz in E3]. lia.
    + intros E. rewrite E in E3.
      repeat first [rewrite Z.mul_0_l in E3 | rewrite Z.mul_0_r in E3
                   | rewrite Hz in E3]. lia.
    + intros E. apply Z.eqb_neq in E1. rewrite E in E3.
      repeat first [rewrite Z.mul_0_r in E3 | rewrite Hz in E3
                   | rewrite (Z.quot_0_l _ E1) in E3]. lia.
    + done.
  - now apply memory_map_weights_no_exit in Em.
  - unfold memory_map_weights in Em. rewrite int_div_cases in Em.
    destruct ((n_heads c =? 0) || ((dim c =? INT_MIN) && (n_heads c =? -1)));
      [|discriminate].
    cbn [bind] in Em. injection Em as <-. done.
Qed.

Lemma build_transformer_result_witness :
  match build_transformer (Some tiny_file) all_ones F32.zero blank_transformer with
  | Ok tr => config tr = tiny_config
             /\ length (RunState.key_cache (state tr)) = 8%nat
  | _ => False
  end.
Proof.
  pose proof (build_transformer_result tiny_file all_ones F32.zero
                blank_transformer tiny_config eq_refl) as H.
  cbv zeta in H.
  destruct (build_transformer (Some tiny_file) all_ones F32.zero blank_transformer)
    as [tr|s|f].
  - destruct H as (_ & _ & _ & _ & _ & Hc & _ & _ & _ & _ & Hs).
    split; [exact Hc|]. rewrite Hs. reflexivity.
  - destruct H as (_ & _ & H). discriminate H.
  - destruct H as (_ & H). discriminate H.
Defined.

(** ** The body of [forward] within bounds *)





Lemma wrap64_small z : 0 <= z < 2 ^ 64 -> wrap64 z = z.
Proof. intros H. unfold wrap64. now apply Z.mod_small. Qed.



(** [forward] is its body followed by the end of the function, where no
    value is handed to the caller. *)
Lemma forward_runs_body tr token pos device :
  forward tr token pos device
  = do s <- forward_body tr token pos device;
    Ok ({| config := config tr; weights := weights tr; state := s;
           data := data tr; file_size := file_size tr |}, None).
Proof.
  unfold forward, forward_body.
  destruct (int_div _ (n_heads (config tr))); cbn [bind]; try reflexivity.
  destruct (int_div (n_heads (config tr)) _); cbn [bind]; try reflexivity.
  destruct (int_div (dim (config tr)) _); cbn [bind]; try reflexivity.
  destruct (_ <? 0); [reflexivity|].
  destruct (copy_row _ _ _ _ _); cbn [bind]; try reflexivity.
  destruct (forward_layers _ _ _ _ _ _ _); reflexivity.
Qed.



(** ** The layout of the weights *)

(** X15. On a configuration whose products do not overflow,
    [memory_map_weights] lays the regions out one behind the other in the
    order of the file, each of the size the configuration gives it
    ([head_size] is [dim / n_heads] rounded down): the embedding table, the
    attention rmsnorm weights, wq, wk, wv, wo, the ffn rmsnorm weights, w1, w2,
    w3, the final rmsnorm weights, and behind the two skipped rotary tables
    the classifier, which is the embedding table when the weights are
    shared. *)
Theorem memory_map_weights_layout (c : Config) (ptr shared_weights : Z) :
  no_overflow c ->
  let head_size := dim c / n_heads c in
  let L := n_layers c in
  let d := dim c in
  exists w,
    memory_map_weights c ptr shared_weights = Ok w
    /\ token_embedding_table w = ptr
    /\ rms_att_weight w = token_embedding_table w + vocab_size c * d
    /\ wq w = rms_att_weight w + L * d
    /\ wk w = wq w + L * d * (n_heads c * head_size)
    /\ wv w = wk w + L * d * (n_kv_heads c * head_size)
    /\ wo w = wv w + L * d * (n_kv_heads c * head_size)
    /\ rms_ffn_weight w = wo w + L * (n_heads c * head_size) * d
    /\ w1 w = rms_ffn_weight w + L * d
    /\ w2 w = w1 w + L * d * hidden_dim c
    /\ w3 w = w2 w + L * hidden_dim c * d
    /\ rms_final_weight w = w3 w + L * d * hidden_dim c
    /\ wcls w = (if shared_weights =? 0
                 then rms_final_weight w + d + 2 * (max_seq_len c * head_size / 2)
                 else ptr).
Proof.
  intros (Hh & Hkv & HL & Hd & Hhd & Hv & Hm & Ovd & Okv & Oms & O1 & O2 & O3).
  cbv zeta. unfold memory_map_weights.
  assert (Ehs : int_div (dim c) (n_heads c) = Ok (dim c / n_heads c)).
  { unfold int_div. destruct (Z.eqb_spec (n_heads c) 0); [lia|].
    destruct (Z.eqb_spec (dim c) INT_MIN); [unfold INT_MIN in *; lia|].
    cbn [andb]. now rewrite Z.quot_div_nonneg by lia. }
  rewrite Ehs. cbn [bind].
  set (hs := dim c / n_heads c) in *.
  assert (Hhs : 0 <= hs) by (apply Z.div_pos; lia).
  assert (Hq : 0 <= n_heads c * hs <= dim c).
  { split; [nia|]. unfold hs. apply Z.mul_div_le. lia. }
  unfold INT_MAX in *.
  assert (E1 : wrap32 (n_heads c * hs) = n_heads c * hs).
  { apply wrap32_small. unfold INT_MIN, INT_MAX. lia. }
  assert (E2 : wrap32 (n_kv_heads c * hs) = n_kv_heads c * hs).
  { apply wrap32_small. unfold INT_MIN, INT_MAX. nia. }
  assert (E3 : wrap32 (vocab_size c * dim c) = vocab_size c * dim c).
  { apply wrap32_small. unfold INT_MIN, INT_MAX. nia. }
  assert (E4 : wrap32 (max_seq_len c * hs) = max_seq_len c * hs).
  { apply wrap32_small. unfold INT_MIN, INT_MAX. nia. }
  assert (B1 : 0 <= n_layers c * dim c < 2 ^ 64) by nia.
  assert (B4 : 0 <= n_layers c * dim c * (n_heads c * hs) < 2 ^ 64) by nia.
  assert (B5 : 0 <= n_layers c * dim c * (n_kv_heads c * hs) < 2 ^ 64) by nia.
  assert (B6 : 0 <= n_layers c * dim c * hidden_dim c < 2 ^ 64) by nia.
  assert (B7 : 0 <= n_layers c * (n_heads c * hs) < 2 ^ 64) by nia.
  assert (B8 : 0 <= n_layers c * hidden_dim c < 2 ^ 64) by nia.
  assert (B9 : 0 <= n_layers c * (n_heads c * hs) * dim c < 2 ^ 64) by nia.
  assert (B10 : 0 <= n_layers c * hidden_dim c * dim c < 2 ^ 64) by nia.
  rewrite E1, E2, E3, E4.
  rewrite (wrap64_small (n_layers c)) by lia.
  rewrite (wrap64_small (dim c)) by lia.
  rewrite (wrap64_small (hidden_dim c)) by lia.
  rewrite (wrap64_small (n_heads c * hs)) by lia.
  rewrite (wrap64_small (n_kv_heads c * hs)) by nia.
  rewrite !(wrap64_small (n_layers c * dim c)) by exact B1.
  rewrite (wrap64_small (n_layers c * (n_heads c * hs))) by exact B7.
  rewrite (wrap64_small (n_layers c * hidden_dim c)) by exact B8.
  rewrite !(wrap64_small (n_layers c * dim c * (n_heads c * hs))) by exact B4.
  rewrite !(wrap64_small (n_layers c * dim c * (n_kv_heads c * hs))) by exact B5.
  rewrite !(wrap64_small (n_layers c * dim c * hidden_dim c)) by exact B6.
  rewrite (wrap64_small (n_layers c * (n_heads c * hs) * dim c)) by exact B9.
  rewrite (wrap64_small (n_layers c * hidden_dim c * dim c)) by exact B10.
  eexists. split; [reflexivity|].
  cbn [token_embedding_table rms_att_weight rms_ffn_weight wq wk wv wo w1 w2 w3
       rms_final_weight wcls].
  repeat (split; [reflexivity|]).
  rewrite Z.quot_div_nonneg by nia.
  destruct (shared_weights =? 0); [lia|reflexivity].
Qed.

Lemma memory_map_weights_layout_witness :
  exists w,
    memory_map_weights tiny_config 7 1 = Ok w
    /\ token_embedding_table w = 7
    /\ rms_att_weight w = token_embedding_table w + 8 * 4
    /\ wq w = rms_att_weight w + 1 * 4
    /\ wk w = wq w + 1 * 4 * (2 * 2)
    /\ wv w = wk w + 1 * 4 * (1 * 2)
    /\ wo w = wv w + 1 * 4 * (1 * 2)
    /\ rms_ffn_weight w = wo w + 1 * (2 * 2) * 4
    /\ w1 w = rms_ffn_weight w + 1 * 4
    /\ w2 w = w1 w + 1 * 4 * 8
    /\ w3 w = w2 w + 1 * 8 * 4
    /\ rms_final_weight w = w3 w + 1 * 4 * 8
    /\ wcls w = 7.
Proof.
  apply (memory_map_weights_layout tiny_config 7 1).
  unfold no_overflow. repeat split; vm_compute; congruence.
Defined.

(** X16. [read_checkpoint] validates no field of the header.  The one
    header it cannot load is one whose [n_heads] is zero (or -1 with [dim] the
    least [int]): there the division [dim / n_heads] of [memory_map_weights]
    is undefined.  Every other header of 28 bytes is accepted, whatever the
    signs and sizes of its fields. *)
Theorem read_checkpoint_divides_by_n_heads (bytes : list byte)
    (mem : Z -> F32.t) (tr : Transformer) (header : Config) :
  fread_Config bytes = Some header ->
  if (n_heads header =? 0) || ((dim header =? INT_MIN) && (n_heads header =? -1))
  then read_checkpoint (Some bytes) mem tr = Fault DivideByZero
  else is_ok (read_checkpoint (Some bytes) mem tr) = true.
Proof.
  intros H. unfold read_checkpoint. rewrite H.
  unfold memory_map_weights, int_div.
  cbn [dim n_heads].
  destruct (n_heads header =? 0); [reflexivity|]. cbn [orb].
  destruct ((dim header =? INT_MIN) && (n_heads header =? -1)); reflexivity.
Qed.

Lemma read_checkpoint_divides_by_n_heads_witness :
  read_checkpoint (Some (header_bytes headless_config)) all_ones blank_transformer
  = Fault DivideByZero.
Proof.
  apply (read_checkpoint_divides_by_n_heads (header_bytes headless_config)
           all_ones blank_transformer headless_config).
  vm_compute. reflexivity.
Defined.

(** ** [main] *)

(** X17. The parameter correction of [main] is idempotent: corrected
    options are in range, so correcting them again (at the same time of day)
    changes nothing.  In particular the replacement values 0.0 for the
    temperature, 0.9 for top-p and [cudaCpuDeviceId] for the device pass the
    tests that put them there. *)
Theorem correct_parameters_idempotent (now : Z) (o : Options.t) :
  correct_parameters now (correct_parameters now o) = correct_parameters now o.
Proof.
  unfold correct_parameters. cbn.
  assert (Ht : (if F32.lt (if F32.lt (Options.temperature o) F32.zero
                           then F32.zero else Options.temperature o) F32.zero
                then F32.zero
                else if F32.lt (Options.temperature o) F32.zero
                     then F32.zero else Options.temperature o)
               = if F32.lt (Options.temperature o) F32.zero
                 then F32.zero else Options.temperature o).
  { destruct (F32.lt (Options.temperature o) F32.zero) eqn:E; [reflexivity|].
    now rewrite E. }
  assert (Hp : forall p : F32.t,
             let p' := if F32.lt p F32.zero || F32.le F32.one p
                       then F32.nine_tenths else p in
             (if F32.lt p' F32.zero || F32.le F32.one p'
              then F32.nine_tenths else p') = p').
  { intros p. cbv zeta.
    destruct (F32.lt p F32.zero || F32.le F32.one p) eqn:E; [reflexivity|].
    now rewrite E. }
  assert (Hs : forall s, (if (if s <? 0 then 0 else s) <? 0 then 0
                          else if s <? 0 then 0 else s)
                         = if s <? 0 then 0 else s).
  { intros s. destruct (Z.ltb_spec s 0); [reflexivity|].
    destruct (Z.ltb_spec s 0); [lia|reflexivity]. }
  assert (Hw : forall z, wrap64 (wrap64 z) = wrap64 z).
  { intros z. unfold wrap64. apply Z.mod_mod. lia. }
  assert (Hr : forall r, (if wrap64 (if wrap64 r <=? 0 then wrap64 now
                                     else wrap64 r) <=? 0
                          then wrap64 now
                          else wrap64 (if wrap64 r <=? 0 then wrap64 now
                                       else wrap64 r))
                         = if wrap64 r <=? 0 then wrap64 now else wrap64 r).
  { intros r. destruct (Z.leb_spec (wrap64 r) 0) as [H|H]; rewrite Hw.
    - destruct (wrap64 now <=? 0); reflexivity.
    - destruct (Z.leb_spec (wrap64 r) 0); [lia|reflexivity]. }
  assert (Hd : forall d, (if (if d <? 0 then cudaCpuDeviceId else d) <? 0
                          then cudaCpuDeviceId
                          else if d <? 0 then cudaCpuDeviceId else d)
                         = if d <? 0 then cudaCpuDeviceId else d).
  { intros d. destruct (Z.ltb_spec d 0); [reflexivity|].
    destruct (Z.ltb_spec d 0); [lia|reflexivity]. }
  rewrite Ht, (Hp (Options.topp o)), Hs, Hr, Hd. reflexivity.
Qed.

(** X18. No run of [main] reaches its [return 0]: whatever the options, the
    checkpoint and the tokenizer, the run ends in an [exit] or in an undefined
    operation, after at most one call of [forward], and that call is at
    position 0; without a transformer there is no call at all.  The calls of
    [free_sampler], [free_tokenizer] and [free_transformer] are never
    reached. *)
Theorem main_never_returns (now : Z) (o : Options.t)
    (checkpoint : option (list byte)) (mem : Z -> F32.t) (junk : F32.t)
    (load_tokenizer : Z -> outcome Tokenizer) :
  let run := main now o checkpoint mem junk load_tokenizer in
  is_ok (ending run) = false
  /\ (length (forward_calls run) <= 1)%nat
  /\ Forall (fun call => snd call = 0) (forward_calls run)
  /\ (is_ok (build_transformer checkpoint mem junk blank_transformer) = false
      \/ is_ok (load_tokenizer
                  (vocab_size
                     (config
                        (match build_transformer checkpoint mem junk
                                 blank_transformer with
                         | Ok tr => tr
                         | _ => blank_transformer
                         end)))) = false ->
      forward_calls run = []).
Proof.
  cbv zeta.
  assert (Hfail : is_ok (build_transformer checkpoint mem junk blank_transformer)
                  = false
                  \/ is_ok (load_tokenizer
                              (vocab_size
                                 (config
                                    (match build_transformer checkpoint mem junk
                                             blank_transformer with
                                     | Ok tr => tr
                                     | _ => blank_transformer
                                     end)))) = false ->
                  is_ok (main_setup now o checkpoint mem junk load_tokenizer)
                  = false).
  { unfold main_setup.
    destruct (build_transformer _ _ _ _) as [tr|s|f]; cbn [bind];
      [|reflexivity|reflexivity].
    destruct (load_tokenizer _) as [tk|s|f]; cbn [bind]; [|reflexivity|reflexivity].
    intros [H|H]; discriminate. }
  unfold main in *.
  destruct (main_setup _ _ _ _ _ _) as [run|s|f] eqn:E.
  2, 3: cbn; repeat split; try done; lia.
  cbv zeta. destruct (String.eqb _ _).
  2: { cbn. repeat split; try done; lia. }
  match goal with |- context [generate ?a ?b ?c ?d ?e ?f] =>
    pose proof (generate_calls a b c d e f) as Hg; cbv zeta in Hg;
    set (g := generate a b c d e f) in *; clearbody g end.
  destruct Hg as (H1 & H2 & _ & H4).
  split.
  { destruct (ending g) as [[]| |]; [done|reflexivity|reflexivity]. }
  split; [exact H2|]. split.
  { apply Forall_forall. intros [token p] Hin. now destruct (H1 token p Hin). }
  intros H. apply Hfail in H. discriminate.
Qed.

(** ** [build_tokenizer] *)

Example build_tokenizer_examples :
  build_tokenizer (Some tiny_tokenizer_file) 4 = Ok tiny_file_tokenizer
  /\ build_tokenizer (Some tiny_tokenizer_file) 5 = Exit EXIT_FAILURE
  /\ build_tokenizer (Some tiny_tokenizer_file) 3
     = Ok {| vocab := take 3 (vocab tiny_file_tokenizer); max_token_length := 5 |}
  /\ build_tokenizer None 4 = Exit EXIT_FAILURE
  /\ float_of_bits 1065353216 = F32.one
  /\ float_of_bits 3212836864 = F32.of_int (-1).
Proof. repeat split; vm_compute; reflexivity. Qed.

Lemma c_string_length buffer : (String.length (c_string buffer) <= length buffer)%nat.
Proof.
  induction buffer as [|b rest IH]; [done|].
  cbn [c_string]. destruct (Byte.eqb b x00); cbn [String.length length]; lia.
Qed.

Lemma read_vocab_Ok n :
  forall file v,
    read_vocab n file = Ok v ->
    length v = n /\ (entries_size v <= length file)%nat.
Proof.
  induction n as [|n IH]; intros file v H.
  - injection H as <-. split; [reflexivity|]. cbn. lia.
  - cbn [read_vocab] in H.
    destruct file as [|s0 [|s1 [|s2 [|s3 [|l0 [|l1 [|l2 [|l3 rest]]]]]]]];
      try discriminate.
    destruct (int_of_bytes l0 l1 l2 l3 =? INT_MAX); [discriminate|].
    destruct (Z.ltb_spec (int_of_bytes l0 l1 l2 l3) 0) as [|Hlen].
    { destruct rest; discriminate. }
    destruct (Z.eqb_spec (int_of_bytes l0 l1 l2 l3) 0) as [|Hne];
      [discriminate|].
    destruct (Z.ltb_spec (Z.of_nat (length rest)) (int_of_bytes l0 l1 l2 l3))
      as [|Hfit]; [discriminate|].
    cbn [orb] in H.
    destruct (read_vocab n _) as [more| |] eqn:E; cbn [bind] in H;
      try discriminate.
    injection H as <-. destruct (IH _ _ E) as [Hl Hs].
    split; [cbn [length]; lia|].
    cbn [entries_size fold_right piece]. fold (entries_size more).
    rewrite length_drop in Hs.
    pose proof (c_string_length (take (Z.to_nat (int_of_bytes l0 l1 l2 l3)) rest)) as Hc.
    rewrite length_take in Hc. cbn [length]. lia.
Qed.

Lemma read_vocab_app n more :
  forall file v,
    read_vocab n file = Ok v -> read_vocab n (file ++ more) = Ok v.
Proof.
  induction n as [|n IH]; intros file v H; [exact H|].
  cbn [read_vocab] in H.
  destruct file as [|s0 [|s1 [|s2 [|s3 [|l0 [|l1 [|l2 [|l3 rest]]]]]]]];
    try discriminate.
  cbn [app read_vocab].
  destruct (int_of_bytes l0 l1 l2 l3 =? INT_MAX); [discriminate|].
  destruct (Z.ltb_spec (int_of_bytes l0 l1 l2 l3) 0) as [|Hlen].
  { destruct rest; discriminate. }
  destruct (Z.eqb_spec (int_of_bytes l0 l1 l2 l3) 0) as [|Hne];
    [discriminate|].
  destruct (Z.ltb_spec (Z.of_nat (length rest)) (int_of_bytes l0 l1 l2 l3))
    as [|Hfit]; [discriminate|].
  cbn [orb] in H.
  destruct (Z.ltb_spec (Z.of_nat (length (rest ++ more)))
              (int_of_bytes l0 l1 l2 l3)) as [Hbad|_].
  { rewrite length_app in Hbad. lia. }
  cbn [orb].
  destruct (read_vocab n (drop _ rest)) as [tail| |] eqn:E; cbn [bind] in H;
    try discriminate.
  rewrite drop_app_le by lia. rewrite (IH _ _ E). cbn [bind].
  rewrite take_app_le by lia. exact H.
Qed.

Lemma uint_of_bytes_range b0 b1 b2 b3 : 0 <= uint_of_bytes b0 b1 b2 b3 < 2 ^ 32.
Proof.
  assert (H : forall b, 0 <= byte_to_Z b < 2 ^ 8).
  { intros b. unfold byte_to_Z. pose proof (Byte.to_N_bounded b). lia. }
  unfold uint_of_bytes.
  pose proof (H b0). pose proof (H b1). pose proof (H b2). pose proof (H b3). lia.
Qed.

(** X19. A tokenizer that [build_tokenizer] returns has as many slots as the
    caller asked for (none for a count below one), whatever the file says;
    its [max_token_length] is the first four bytes of the file read as an
    [unsigned int], taken as it is; and the file is at least as long as those
    four bytes and, for every slot, eight bytes of score and length and a
    piece of at least one byte (a length of zero makes [fread] return 0,
    which ends the run). *)
Theorem build_tokenizer_result (file : option (list byte)) (vocab_size : Z)
    (t : Tokenizer) :
  build_tokenizer file vocab_size = Ok t ->
  exists b0 b1 b2 b3 rest,
    file = Some (b0 :: b1 :: b2 :: b3 :: rest)
    /\ max_token_length t = uint_of_bytes b0 b1 b2 b3
    /\ 0 <= max_token_length t < 2 ^ 32
    /\ tokenizer_vocab_size t = Z.max 0 vocab_size
    /\ read_vocab (Z.to_nat vocab_size) rest = Ok (vocab t)
    /\ (entries_size (vocab t) <= length rest)%nat
    /\ 9 * Z.max 0 vocab_size <= Z.of_nat (length rest).
Proof.
  unfold build_tokenizer. intros H.
  destruct file as [[|b0 [|b1 [|b2 [|b3 rest]]]]|]; try discriminate.
  destruct (read_vocab _ rest) as [v| |] eqn:E; cbn [bind] in H; try discriminate.
  injection H as <-. exists b0, b1, b2, b3, rest. split; [reflexivity|].
  destruct (read_vocab_Ok _ _ _ E) as [Hl Hs].
  unfold tokenizer_vocab_size. cbn [vocab max_token_length].
  split; [reflexivity|]. split; [apply uint_of_bytes_range|].
  split; [lia|]. split; [exact E|]. split; [exact Hs|].
  assert (Hm : (9 * length v <= entries_size v)%nat).
  { clear. induction v as [|e v IH]; [cbn; lia|].
    cbn [entries_size fold_right length]. fold (entries_size v). lia. }
  lia.
Qed.

Lemma build_tokenizer_result_witness :
  exists b0 b1 b2 b3 rest,
    Some long_token_file = Some (b0 :: b1 :: b2 :: b3 :: rest)
    /\ 4294967295 = uint_of_bytes b0 b1 b2 b3
    /\ 0 <= 4294967295 < 2 ^ 32
    /\ 4 = Z.max 0 4
    /\ read_vocab (Z.to_nat 4) rest = Ok (vocab tiny_file_tokenizer)
    /\ (entries_size (vocab tiny_file_tokenizer) <= length rest)%nat
    /\ 9 * Z.max 0 4 <= Z.of_nat (length rest).
Proof.
  apply (build_tokenizer_result (Some long_token_file) 4
           {| vocab := vocab tiny_file_tokenizer; max_token_length := 4294967295 |}).
  vm_compute. reflexivity.
Defined.

(** X20. [build_tokenizer] reads the entries it was asked for and closes
    the file without looking for its end: bytes behind the last entry read
    change nothing, so a file with more entries than the checkpoint's
    vocabulary size loads as its prefix. *)
Theorem build_tokenizer_ignores_trailing_bytes (bytes more : list byte)
    (vocab_size : Z) (t : Tokenizer) :
  build_tokenizer (Some bytes) vocab_size = Ok t ->
  build_tokenizer (Some (bytes ++ more)) vocab_size = Ok t.
Proof.
  unfold build_tokenizer. intros H.
  destruct bytes as [|b0 [|b1 [|b2 [|b3 rest]]]]; try discriminate.
  cbn [app].
  destruct (read_vocab _ rest) as [v| |] eqn:E; cbn [bind] in H; try discriminate.
  now rewrite (read_vocab_app _ more _ _ E).
Qed.

Lemma build_tokenizer_ignores_trailing_bytes_witness :
  build_tokenizer (Some (tiny_tokenizer_file ++ [x01; x02; x03])) 4
  = Ok tiny_file_tokenizer.
Proof.
  apply (build_tokenizer_ignores_trailing_bytes tiny_tokenizer_file
           [x01; x02; x03] 4 tiny_file_tokenizer).
  vm_compute. reflexivity.
Defined.

(** ** [generate] *)

Lemma forward_no_exit tr token pos device s :
  forward tr token pos device <> Exit s.
Proof.
  assert (Hdiv : forall a b s', int_div a b <> Exit s').
  { intros a b s'. unfold int_div. destruct (_ =? _); [done|].
    destruct (_ && _); done. }
  assert (Hstore : forall a j v s', store a j v <> Exit s').
  { intros a j v s'. unfold store. destruct (_ && _); done. }
  assert (Hload : forall a j s', load a j <> Exit s').
  { intros a j s'. unfold load. destruct (_ <? _); [done|].
    destruct (a !! _); done. }
  assert (Hdata : forall i s', data_at tr i <> Exit s').
  { intros i s'. unfold data_at. destruct (_ && _); done. }
  assert (Hcopy : forall n src x j s', copy_row tr src x j n <> Exit s').
  { induction n as [|n IH]; intros src x j s'; [done|].
    cbn [copy_row]. destruct (data_at tr _) as [v| |] eqn:Ed; cbn [bind];
      [|now apply Hdata in Ed|done].
    destruct (store x j v) as [x'| |] eqn:Es; cbn [bind];
      [apply IH|now apply Hstore in Es|done]. }
  assert (Hss : forall n x j ss s', sum_of_squares x j n ss <> Exit s').
  { induction n as [|n IH]; intros x j ss s'; [done|].
    cbn [sum_of_squares]. destruct (load x j) as [v| |] eqn:El; cbn [bind];
      [apply IH|now apply Hload in El|done]. }
  assert (Hns : forall n o x w ss j s',
             (forall k s'', w k <> Exit s'') ->
             normalize_and_scale o x w ss j n <> Exit s').
  { induction n as [|n IH]; intros o x w ss j s' Hw; [done|].
    cbn [normalize_and_scale].
    destruct (w j) as [wj| |] eqn:Ew; cbn [bind]; [|now apply Hw in Ew|done].
    destruct (load x j) as [v| |] eqn:El; cbn [bind];
      [|now apply Hload in El|done].
    destruct (store o j _) as [o'| |] eqn:Es; cbn [bind];
      [now apply IH|now apply Hstore in Es|done]. }
  assert (Hrms : forall o x w size dev s',
             (forall k s'', w k <> Exit s'') -> rmsnorm o x w size dev <> Exit s').
  { intros o x w size dev s' Hw. unfold rmsnorm.
    destruct (dev =? cudaCpuDeviceId); [|done].
    destruct (sum_of_squares _ _ _ _) as [ss| |] eqn:E; cbn [bind];
      [now apply Hns|now apply Hss in E|done]. }
  assert (Hfl : forall n x xb d dev l s', forward_layers tr x xb d dev l n <> Exit s').
  { induction n as [|n IH]; intros x xb d dev l s'; [done|].
    cbn [forward_layers].
    destruct (rmsnorm _ _ _ _ _) as [xb'| |] eqn:E; cbn [bind];
      [apply IH| |done].
    apply Hrms in E; [done|]. intros k s''. apply Hdata. }
  unfold forward. cbv zeta.
  destruct (int_div _ (n_heads (config tr))) as [kv| |] eqn:E1; cbn [bind];
    [|now apply Hdiv in E1|done].
  destruct (int_div (n_heads (config tr)) _) as [km| |] eqn:E2; cbn [bind];
    [|now apply Hdiv in E2|done].
  destruct (int_div (dim (config tr)) _) as [hs| |] eqn:E3; cbn [bind];
    [|now apply Hdiv in E3|done].
  destruct (_ <? 0); [done|].
  destruct (copy_row _ _ _ _ _) as [x'| |] eqn:E4; cbn [bind];
    [|now apply Hcopy in E4|done].
  destruct (forward_layers _ _ _ _ _ _ _) as [xb'| |] eqn:E5; cbn [bind];
    [done|now apply Hfl in E5|done].
Qed.

Lemma encode_bos_nonempty t text eos tokens :
  encode t (Some text) 1 eos = Ok tokens -> (1 <= length tokens)%nat.
Proof.
  cbn [encode]. destruct (checked_alloc _); cbn [bind]; try discriminate.
  destruct (merge_loop_bound (S (length (initial_tokens t text 1))) t
              (initial_tokens t text 1) 0 ltac:(lia))
    as (r & m' & -> & Hm & Hr & _).
  destruct r as [merged| |]; cbn [bind]; try discriminate.
  intros [= <-]. specialize (Hr merged eq_refl).
  assert (Hi : (1 <= length (initial_tokens t text 1))%nat).
  { rewrite initial_tokens_code_points. rewrite !length_app.
    change (1 =? 0) with false. cbn [length]. lia. }
  assert (1 <= length merged)%nat by lia.
  destruct (eos =? 0); [done|]. rewrite length_app. lia.
Qed.

Lemma encode_exit_status t text bos eos s :
  encode t (Some text) bos eos = Exit s -> s = -1.
Proof.
  cbn [encode]. unfold checked_alloc.
  destruct (_ <=? 0); cbn [bind]; [now intros [= <-]|].
  destruct (merge_loop_bound (S (length (initial_tokens t text bos))) t
              (initial_tokens t text bos) 0 ltac:(lia))
    as (r & m' & -> & _ & _ & Hr).
  destruct r as [merged|s'|]; cbn [bind]; try discriminate.
  intros _. now destruct (Hr s').
Qed.

(** X21. The only status with which [generate] ends the process is -1 (the
    [exit(-1)] after the first step, or a CUDA allocation that failed).
    With BOS asked for, [encode] returns at least one token, so the test
    [num_prompt_tokens < 1] and its [exit(EXIT_FAILURE)] are never taken. *)
Theorem generate_exit_status (transformer : Transformer) (tokenizer : Tokenizer)
    (sampler : Sampler.t) (prompt : option string) (steps device : Z) (s : Z) :
  ending (generate transformer tokenizer sampler prompt steps device) = Exit s ->
  s = -1.
Proof.
  unfold generate.
  destruct (encode _ _ _ _) as [prompt_tokens|s'|f] eqn:E.
  - apply encode_bos_nonempty in E.
    destruct (Z.ltb_spec (Z.of_nat (length prompt_tokens)) 1); [lia|].
    unfold generate_loop. destruct (0 <? steps); [|discriminate].
    destruct (forward _ _ _ _) as [[tr' logits]|s'|f] eqn:Ef; cbn [ending].
    + now intros [= <-].
    + now apply forward_no_exit in Ef.
    + discriminate.
  - cbn [ending]. intros [= <-]. now apply encode_exit_status in E.
  - discriminate.
Qed.

Lemma generate_exit_status_witness :
  exists s,
    ending (generate tiny_transformer tiny_tokenizer
              (build_sampler 8 F32.one F32.nine_tenths 1) (Some "ab"%string) 4
              cudaCpuDeviceId) = Exit s
    /\ s = -1.
Proof.
  exists (-1). split; [vm_compute; reflexivity|].
  apply (generate_exit_status tiny_transformer tiny_tokenizer
           (build_sampler 8 F32.one F32.nine_tenths 1) (Some "ab"%string) 4
           cudaCpuDeviceId (-1)).
  vm_compute. reflexivity.
Defined.

(** X22. With a step budget of zero or less the loop of [generate] is
    skipped: no call of [forward] is made, and [generate] reaches
    [free(prompt_tokens)], which hands to [free] a buffer that came from
    [cudaMallocManaged]. *)
Theorem generate_without_steps (transformer : Transformer) (tokenizer : Tokenizer)
    (sampler : Sampler.t) (prompt : option string) (steps device : Z)
    (prompt_tokens : list Z) :
  steps <= 0 ->
  encode tokenizer
    (Some (match prompt with Some p => p | None => EmptyString end)) 1 0
  = Ok prompt_tokens ->
  generate transformer tokenizer sampler prompt steps device
  = {| forward_calls := []; next := None; pos := 0; ending := Fault BadFree |}.
Proof.
  intros Hs He. unfold generate. rewrite He.
  apply encode_bos_nonempty in He.
  destruct (Z.ltb_spec (Z.of_nat (length prompt_tokens)) 1); [lia|].
  unfold generate_loop. destruct (Z.ltb_spec 0 steps); [lia|reflexivity].
Qed.

Lemma generate_without_steps_witness :
  generate tiny_transformer tiny_tokenizer
    (build_sampler 8 F32.one F32.nine_tenths 1) None 0 cudaCpuDeviceId
  = {| forward_calls := []; next := None; pos := 0; ending := Fault BadFree |}.
Proof.
  apply (generate_without_steps tiny_transformer tiny_tokenizer
           (build_sampler 8 F32.one F32.nine_tenths 1) None 0 cudaCpuDeviceId [1]).
  - discriminate.
  - vm_compute. reflexivity.
Defined.
